(** * MergePaths: a shallow embedding of the path merger of ABySS

    The program under study is [ParseAligns/MergePaths]: it reads a file of
    contig paths, links consistent paths together and either prints the
    merged paths or splices the contig sequences along them.

    The embedding follows the C++ text function by function.  Code that can
    stop the process ([assert], an uncaught [std::out_of_range], an index
    outside a vector) returns in the [result] monad below; reference
    parameters that the code mutates are threaded explicitly. *)

From Stdlib Require Import ZArith Ascii String List Lia Bool Sorting.Sorted
  Sorting.Permutation.
From stdpp Require Import base option list gmap fin_maps sorting infinite.

Import ListNotations.
Local Open Scope nat_scope.

(** ** Failures *)

(** Modelled from the spec: [extDirection], the enumeration of [Sense.h],
    a header that is not part of the sources at hand.  [mergePath] passes
    [(extDirection)0] and the splicer is specified to put the accumulator
    on the left, which is the [SENSE] branch of [mergeSequences], so [SENSE]
    is the enumerator of value 0. *)
Inductive extDirection := SENSE | ANTISENSE.

(** [Sequence] is [std::string]. *)
Abbreviation Sequence := (list ascii) (only parsing).

(** Ways in which the process stops before a function returns. *)
Inductive failure :=
| AssertFailed (cond : string)
    (** an [assert] whose condition is false *)
| OutOfRange
    (** [std::out_of_range] thrown by [substr] and never caught *)
| BadIndex
    (** [operator[]] applied outside the bounds of a vector *)
| BadPointer
    (** a pointer to a path that is not allocated is dereferenced *)
| Uninitialized
    (** an [int] is read that no extraction has assigned *)
| IntOverflow
    (** a signed increment overflows *)
| OverlapViolation (data1 data2 : Sequence) (dir : extDirection)
    (isReversed : bool) (leftEnd rightBegin : Sequence).
    (** the two [printf] lines of [mergeSequences] followed by the failing
        [assert(leftEnd == rightBegin)] *)

Inductive result (A : Type) :=
| Ok (a : A)
| Abort (f : failure).
Arguments Ok {A} a.
Arguments Abort {A} f.

#[global] Instance result_ret : MRet result := fun A a => Ok a.

#[global] Instance result_bind : MBind result := fun A B k r =>
  match r with
  | Ok a => k a
  | Abort f => Abort f
  end.

Definition assert (cond : string) (b : bool) : result unit :=
  if b then Ok tt else Abort (AssertFailed cond).

(** ** Data model *)

Abbreviation LinearNumKey := N (only parsing).

(** [struct MergeNode { LinearNumKey id; bool isRC; }], as the code
    initialises it ([MergeNode rootNode = {id, 0}]) and reads its fields. *)
Record MergeNode := { id : LinearNumKey; isRC : bool }.

(** Modelled from the spec: [operator==] on [MergeNode], declared in a
    header that is not part of the sources at hand; two oriented contigs are
    equal iff both fields match. *)
Definition MergeNode_eqb (a b : MergeNode) : bool :=
  N.eqb (id a) (id b) && Bool.eqb (isRC a) (isRC b).

(** A [ContigPath] is the vector of its nodes. *)
Abbreviation ContigPath := (list MergeNode) (only parsing).

(** Modelled from the spec: [ContigPath::reverseComplement], a method
    declared in [ContigPath.h], which is not part of the sources at hand;
    reversing a path reverses the order of its elements and toggles each
    orientation flag. *)
Definition flipNode (n : MergeNode) : MergeNode :=
  {| id := id n; isRC := negb (isRC n) |}.

(** Modelled from the spec: see [flipNode]. *)
Definition reverseComplementPath (p : ContigPath) : ContigPath :=
  rev (map flipNode p).

(** [path[i]] on a vector. *)
Definition at_index {A} (v : list A) (i : nat) : result A :=
  match nth_error v i with
  | Some x => Ok x
  | None => Abort BadIndex
  end.

(** ** The path parser, [readPathsFromFile] *)

(** One line of the path file after the extraction
    [s >> at >> pivot >> sep >> path]; the tokenizer itself is an external
    collaborator.  [line_eof] is the value of [s.eof()] after the extraction. *)
Record PathLine := {
  line_at : ascii;
  line_pivot : MergeNode;
  line_sep : string;
  line_path : ContigPath;
  line_eof : bool
}.

Definition rootNode (k : LinearNumKey) : MergeNode :=
  {| id := k; isRC := false |}.

(** [p->front() == rootNode] *)
Definition front_is (p : ContigPath) (n : MergeNode) : bool :=
  match p with
  | [] => false
  | x :: _ => MergeNode_eqb x n
  end.

(** The body of the [while (getline ...)] loop.  Every stored path is a
    fresh object reached from one key only, so the store is modelled by
    value: the entry of [k] is created as [[rootNode k]] when it is absent
    and the path behind the pointer is then updated in place. *)
Definition readPathLine (contigPathMap : gmap N ContigPath) (l : PathLine)
  : result (gmap N ContigPath) :=
  let k := id (line_pivot l) in
  let dir := isRC (line_pivot l) in
  assert "s.eof()" (line_eof l) ;;
  assert "at == '@'" (Ascii.eqb (line_at l) "@"%char) ;;
  assert "sep == ->" (String.eqb (line_sep l) "->"%string) ;;
  (* contigPathMap[id], after the entry has been created when absent *)
  let p := default [rootNode k] (contigPathMap !! k) in
  if negb dir then
    assert "p->size() == 1" (Nat.eqb (length p) 1) ;;
    assert "p->front() == rootNode" (front_is p (rootNode k)) ;;
    Ok (<[k := p ++ line_path l]> contigPathMap)
  else
    assert "p->front() == rootNode" (front_is p (rootNode k)) ;;
    Ok (<[k := rev (line_path l) ++ p]> contigPathMap).

(** The loop over the lines of the file. *)
Fixpoint readPathLines (contigPathMap : gmap N ContigPath)
    (lines : list PathLine) : result (gmap N ContigPath) :=
  match lines with
  | [] => Ok contigPathMap
  | l :: rest =>
      m ← readPathLine contigPathMap l;
      readPathLines m rest
  end.

(** [readPathsFromFile], called by [main] on an empty map.  Opening the
    file and the closing [assert(pathStream.eof())] concern the stream and
    are left out. *)
Definition readPathsFromFile (lines : list PathLine)
    (contigPathMap : gmap N ContigPath) : result (gmap N ContigPath) :=
  readPathLines contigPathMap lines.

(** The tails of the forward (resp. reverse) records of root [k], in file
    order. *)
Definition tailsOf (rc : bool) (k : LinearNumKey) (lines : list PathLine)
  : ContigPath :=
  concat (map line_path
    (List.filter (fun l => N.eqb (id (line_pivot l)) k
                           && Bool.eqb (isRC (line_pivot l)) rc) lines)).

(** The well-formedness checks at the head of the loop body. *)
Definition line_wf (l : PathLine) : bool :=
  line_eof l && Ascii.eqb (line_at l) "@"%char
  && String.eqb (line_sep l) "->"%string.

(** ** The pairwise check, [checkPathConsistency] *)

(** Indices and sizes are [size_t] in the source and natural numbers here.
    Every subtraction of the function is applied to operands [a - b] with
    [b <= a] ([size() - 1] on a non-empty path, [max2 - i] for an index [i]
    of [path2], [end - start] of a range), so none wraps around. *)

(** A [for] loop over the elements of [l], threading the state [s]. *)
Fixpoint forEach {A S} (body : S -> A -> result S) (s : S) (l : list A)
  : result S :=
  match l with
  | [] => Ok s
  | x :: rest => s' ← body s x; forEach body s' rest
  end.

(** [extractMinCoordSet]: the indices of [path] that hold [anchor], pushed
    onto [coords] from the last index down to the first. *)
Definition extractMinCoordSet (anchor : LinearNumKey) (path : ContigPath)
    (coords : list nat) : result (bool * list nat) :=
  let maxIdx := length path in
  coords ← forEach (fun coords idx =>
      let tIdx := maxIdx - idx - 1 in
      n ← at_index path tIdx;
      Ok (if N.eqb (id n) anchor then coords ++ [tIdx] else coords))
    coords (seq 0 maxIdx);
  match coords with
  | [] => Ok (false, coords)
  | _ => Ok (true, coords)
  end.

Record PathConsistencyStats := {
  startP1 : nat;
  endP1 : nat;
  startP2 : nat;
  endP2 : nat;
  flipped : bool;
  duplicateSize : bool
}.

(** The four reference parameters [startP1, endP1, startP2, endP2] of
    [checkPathConsistency], in that order. *)
Abbreviation Range := (nat * nat * nat * nat)%type (only parsing).

(** What the double loop of [checkPathConsistency] updates: [path2], which
    is reversed in place, the local [flipped], the reference parameters and
    the map [pathAlignments]. *)
Record ScanState := {
  sc_path2 : list MergeNode;
  sc_flipped : bool;
  sc_range : nat * nat * nat * nat;
  sc_alignments : gmap nat PathConsistencyStats
}.

(** The first [while (1)]: extend to the left. *)
Fixpoint lowLoop (path1 path2 : ContigPath) (startP1 startP2 : nat)
  {struct startP1} : result (bool * nat * nat) :=
  n1 ← at_index path1 startP1;
  n2 ← at_index path2 startP2;
  if negb (N.eqb (id n1) (id n2)) then Ok (false, startP1, startP2)
  else
    match startP1, startP2 with
    | S startP1', S startP2' => lowLoop path1 path2 startP1' startP2'
    | _, _ => Ok (true, startP1, startP2)
    end.

(** The second [while (1)]: extend to the right.  The loop either stops or
    moves [endP1] one step closer to the end of [path1], beyond which the
    index is invalid; [fuel] bounds the number of such steps. *)
Fixpoint highLoop (path1 path2 : ContigPath) (max1 max2 : nat) (fuel : nat)
    (endP1 endP2 : nat) {struct fuel} : result (bool * nat * nat) :=
  n1 ← at_index path1 endP1;
  n2 ← at_index path2 endP2;
  if negb (N.eqb (id n1) (id n2)) then Ok (false, endP1, endP2)
  else if Nat.eqb endP1 max1 || Nat.eqb endP2 max2 then Ok (true, endP1, endP2)
  else
    match fuel with
    | 0 => Abort BadIndex
    | S fuel' => highLoop path1 path2 max1 max2 fuel' (S endP1) (S endP2)
    end.

(** [pathAlignments[count]] is created on the first alignment of that
    length; a later one only sets [duplicateSize]. *)
Definition recordAlignment (count : nat) (a : PathConsistencyStats)
    (pathAlignments : gmap nat PathConsistencyStats)
  : gmap nat PathConsistencyStats :=
  match pathAlignments !! count with
  | None => <[count := a]> pathAlignments
  | Some old =>
      <[count := {| startP1 := startP1 old; endP1 := endP1 old;
                    startP2 := startP2 old; endP2 := endP2 old;
                    flipped := flipped old; duplicateSize := true |}]>
        pathAlignments
  end.

(** The body of the double loop for the seed pair
    [(coords1[i], coords2[j]) = (c1, c2)]. *)
Definition seedPair (path1 : ContigPath) (max1 max2 : nat) (st : ScanState)
    (c1 c2 : nat) : result ScanState :=
  let startP1 := c1 in
  let endP1 := c1 in
  let startP2 := if sc_flipped st then max2 - c2 else c2 in
  let endP2 := startP2 in
  n1 ← at_index path1 startP1;
  n2 ← at_index (sc_path2 st) startP2;
  let '(path2, flipped, startP2, endP2) :=
    if negb (Bool.eqb (isRC n1) (isRC n2))
    then (reverseComplementPath (sc_path2 st), negb (sc_flipped st),
          max2 - startP2, max2 - endP2)
    else (sc_path2 st, sc_flipped st, startP2, endP2) in
  '(lowValid, startP1, startP2) ← lowLoop path1 path2 startP1 startP2;
  '(highValid, endP1, endP2) ←
    highLoop path1 path2 max1 max2 (length path1 - endP1) endP1 endP2;
  pathAlignments ←
    (if lowValid && highValid then
       let count := endP1 - startP1 in
       assert "endP2 - startP2 == count" (Nat.eqb (endP2 - startP2) count) ;;
       Ok (recordAlignment count
             {| startP1 := startP1; endP1 := endP1;
                startP2 := startP2; endP2 := endP2;
                flipped := flipped; duplicateSize := false |}
             (sc_alignments st))
     else Ok (sc_alignments st));
  Ok {| sc_path2 := path2; sc_flipped := flipped;
        sc_range := (startP1, endP1, startP2, endP2);
        sc_alignments := pathAlignments |}.

(** The double loop over [coords1] and [coords2]. *)
Definition alignSeeds (path1 : ContigPath) (max1 max2 : nat)
    (coords1 coords2 : list nat) (st : ScanState) : result ScanState :=
  forEach (fun st c1 =>
    forEach (fun st c2 => seedPair path1 max1 max2 st c1 c2) st coords2)
    st coords1.

(** The first part of [checkPathConsistency], up to the end of the double
    loop.  [None] stands for the early [return false] taken when the anchor
    is missing from one of the paths. *)
Definition scanPaths (path2Root : LinearNumKey) (path1 path2 : ContigPath)
    (range : Range) : result (option ScanState) :=
  '(valid1, coords1) ← extractMinCoordSet path2Root path1 [];
  '(valid2, coords2) ← extractMinCoordSet path2Root path2 [];
  if negb valid1 || negb valid2 then Ok None
  else
    let max1 := length path1 - 1 in
    let max2 := length path2 - 1 in
    st ← alignSeeds path1 max1 max2 coords1 coords2
           {| sc_path2 := path2; sc_flipped := false; sc_range := range;
              sc_alignments := ∅ |};
    Ok (Some st).

(** [--pathAlignments.end()]: the entry with the largest key. *)
Definition biggest (pathAlignments : gmap nat PathConsistencyStats)
  : option (nat * PathConsistencyStats) :=
  let count := max_list (map fst (map_to_list pathAlignments)) in
  (fun a => (count, a)) <$> pathAlignments !! count.

(** The closing [for] loop over [c < count]. *)
Fixpoint interiorCheck (path1 path2 : ContigPath) (startP1 startP2 : nat)
    (cs : list nat) : result bool :=
  match cs with
  | [] => Ok true
  | c :: rest =>
      n1 ← at_index path1 (startP1 + c);
      n2 ← at_index path2 (startP2 + c);
      if negb (N.eqb (id n1) (id n2)) then Ok false
      else interiorCheck path1 path2 startP1 startP2 rest
  end.

(** The second part of [checkPathConsistency], from the test
    [pathAlignments.empty()] on.  The result is the returned boolean together
    with the final [path2] and reference parameters. *)
Definition resolve (path1 : ContigPath) (max1 max2 : nat) (st : ScanState)
  : result (bool * list MergeNode * Range) :=
  match biggest (sc_alignments st) with
  | None => Ok (false, sc_path2 st, sc_range st)
  | Some (count, b) =>
      assert "biggestIt->second.startP1 == 0 || biggestIt->second.startP2 == 0"
        (Nat.eqb (startP1 b) 0 || Nat.eqb (startP2 b) 0) ;;
      assert "biggestIt->second.endP1 == max1 || biggestIt->second.endP2 == max2"
        (Nat.eqb (endP1 b) max1 || Nat.eqb (endP2 b) max2) ;;
      if duplicateSize b && negb (Nat.eqb count (Nat.min max1 max2))
      then Ok (false, sc_path2 st, sc_range st)
      else
        let range := (startP1 b, endP1 b, startP2 b, endP2 b) in
        let path2 :=
          if negb (Bool.eqb (flipped b) (sc_flipped st))
          then reverseComplementPath (sc_path2 st) else sc_path2 st in
        ok ← interiorCheck path1 path2 (startP1 b) (startP2 b) (seq 0 count);
        Ok (ok, path2, range)
  end.

(** The condition asserted on entry. *)
Definition entryAssertion (path1 path2 : ContigPath) : bool :=
  negb (Nat.eqb (length path1) 0) && negb (Nat.eqb (length path2) 1).

Definition checkPathConsistency (path1Root path2Root : LinearNumKey)
    (path1 path2 : ContigPath) (range : Range)
  : result (bool * list MergeNode * Range) :=
  assert "path1.size() != 0 && path2.size() != 1"
    (entryAssertion path1 path2) ;;
  scanned ← scanPaths path2Root path1 path2 range;
  match scanned with
  | None => Ok (false, path2, range)
  | Some st => resolve path1 (length path1 - 1) (length path2 - 1) st
  end.

(** *** Invariants of the double loop *)

(** [path2] as it stands after an in-place reversal iff [f]. *)
Definition orient (f : bool) (path2 : ContigPath) : ContigPath :=
  if f then reverseComplementPath path2 else path2.

(** Index [i] of [p1] and index [j] of [p2] hold the same contig id. *)
Definition sameIdAt (p1 p2 : ContigPath) (i j : nat) : Prop :=
  exists n1 n2,
    nth_error p1 i = Some n1 /\ nth_error p2 j = Some n2 /\ id n1 = id n2.

(** What holds of an entry [a] stored under the key [count]: its ranges lie
    within the paths, have [count + 1] elements, touch a boundary at each
    end, and agree on every id, [path2] being read in the orientation that
    the entry records. *)
Definition Recorded (path1 path2 : ContigPath) (count : nat)
    (a : PathConsistencyStats) : Prop :=
  startP1 a <= endP1 a /\ endP1 a <= length path1 - 1
  /\ startP2 a <= endP2 a /\ endP2 a <= length path2 - 1
  /\ endP1 a - startP1 a = count /\ endP2 a - startP2 a = count
  /\ (startP1 a = 0 \/ startP2 a = 0)
  /\ (endP1 a = length path1 - 1 \/ endP2 a = length path2 - 1)
  /\ forall c, c <= count ->
       sameIdAt path1 (orient (flipped a) path2) (startP1 a + c) (startP2 a + c).

Definition ScanInv (path1 path2 : ContigPath) (st : ScanState) : Prop :=
  sc_path2 st = orient (sc_flipped st) path2
  /\ map_Forall (Recorded path1 path2) (sc_alignments st).

(** ** The sequence splicer, [mergePath] and [mergeSequences] *)

(** The alphabet layer.  [opt::colourSpace] is a global flag set by [main];
    the table that complements one base lives in [Sequence.h], which is not
    part of the sources at hand, and is left as a parameter. *)
Class Alphabet := {
  colourSpace : bool;
  complementBaseChar : ascii -> ascii
}.

(** Modelled from the spec: [reverseComplement] on sequences, a function
    of [Sequence.h], which is not part of the sources at hand; a nucleotide
    sequence is reversed with each base complemented, a colour-space
    sequence is reversed with no complementing. *)
Definition reverseComplement `{Alphabet} (s : Sequence) : Sequence :=
  if colourSpace then rev s else rev (map complementBaseChar s).

(** Modelled from the spec: the complement table of the nucleotide
    alphabet, missing with [Sequence.h].  A and T, C and G are exchanged, N
    is kept, and the case of the letter is preserved; the spec says nothing
    of other symbols, which are kept here. *)
Definition complementNucleotide (c : ascii) : ascii :=
  (if Ascii.eqb c "A" then "T" else if Ascii.eqb c "T" then "A"
   else if Ascii.eqb c "C" then "G" else if Ascii.eqb c "G" then "C"
   else if Ascii.eqb c "a" then "t" else if Ascii.eqb c "t" then "a"
   else if Ascii.eqb c "c" then "g" else if Ascii.eqb c "g" then "c"
   else c)%char.

Definition nucleotide : Alphabet :=
  {| colourSpace := false; complementBaseChar := complementNucleotide |}.

(** [struct Contig { string id; Sequence seq; unsigned coverage; }].  The
    field [id] is called [name] here, [id] being the field of [MergeNode];
    [coverage] is a 32-bit unsigned number. *)
Record Contig := {
  name : string;
  seq : list ascii;
  coverage : Z
}.

(** One past [UINT_MAX], [SIZE_MAX] and [INT_MAX]. *)
Definition UINT_MAX1 : Z := 2 ^ 32.
Definition INT_MAX1 : Z := 2 ^ 31.
Definition SIZE_MAX1 : Z := 2 ^ 64.

(** Unsigned 32-bit addition, as in [coverage += contig.coverage]. *)
Definition add_unsigned (a b : Z) : Z := (a + b) mod UINT_MAX1.

(** Subtraction on [size_t], for operands that are [size_t] values: the
    difference wraps around when it is negative. *)
Definition sub_size_t (a b : Z) : Z :=
  if (b <=? a)%Z then (a - b)%Z else (a - b + SIZE_MAX1)%Z.

(** The first [n] symbols of [s], and [s] without its first [n] symbols,
    for a [size_t] count [n]. *)
Fixpoint takeZ (n : Z) (s : list ascii) : list ascii :=
  match s with
  | [] => []
  | c :: s' => if (n <=? 0)%Z then [] else c :: takeZ (n - 1) s'
  end.

Fixpoint dropZ (n : Z) (s : list ascii) : list ascii :=
  match s with
  | [] => []
  | c :: s' => if (n <=? 0)%Z then s else dropZ (n - 1) s'
  end.

(** [s.substr(pos, n)]: throws [std::out_of_range] when [pos > s.size()],
    and otherwise returns at most [n] symbols from [pos] on. *)
Definition substr (s : Sequence) (pos n : Z) : result (list ascii) :=
  if (Z.of_nat (length s) <? pos)%Z then Abort OutOfRange
  else Ok (takeZ n (dropZ pos s)).

(** [s.substr(pos)], that is [s.substr(pos, npos)]: everything from [pos]
    on. *)
Definition substr_from (s : Sequence) (pos : Z) : result (list ascii) :=
  if (Z.of_nat (length s) <? pos)%Z then Abort OutOfRange
  else Ok (dropZ pos s).

(** Equality on sequences, [operator==] of [std::string]. *)
Fixpoint Sequence_eqb (a b : list ascii) : bool :=
  match a, b with
  | [], [] => true
  | x :: a', y :: b' => Ascii.eqb x y && Sequence_eqb a' b'
  | _, _ => false
  end.

(** [mergeSequences]; the result is the new value of the reference
    parameter [rootContig].  [kmer] is the [size_t] value of the argument. *)
Definition mergeSequences `{Alphabet} (rootContig otherContig : Sequence)
    (dir : extDirection) (isReversed : bool) (kmer : Z)
  : result (list ascii) :=
  let overlap := sub_size_t kmer 1 in
  let slaveSeq :=
    if isReversed then reverseComplement otherContig else otherContig in
  let '(leftSeq, rightSeq) :=
    match dir with
    | SENSE => (rootContig, slaveSeq)
    | ANTISENSE => (slaveSeq, rootContig)
    end in
  leftEnd ← substr leftSeq
              (sub_size_t (Z.of_nat (length leftSeq)) overlap) overlap;
  rightBegin ← substr rightSeq 0 overlap;
  (if negb (Sequence_eqb leftEnd rightBegin)
   then Abort (OverlapViolation rootContig otherContig dir isReversed
                 leftEnd rightBegin)
   else Ok tt) ;;
  rest ← substr_from rightSeq overlap;
  Ok (leftSeq ++ rest).

(** What [mergePath] writes: the record
    [FastaRecord(toString(count), "<length> <coverage> <path>", merged)]. *)
Record FastaRecord := {
  fa_id : Z;
  fa_length : nat;
  fa_coverage : Z;
  fa_path : list MergeNode;
  fa_seq : list ascii
}.

(** The body of the [for] loop of [mergePath] for the node [mn]. *)
Definition mergeNode `{Alphabet} (sourceContigs : list Contig) (kmer : Z)
    (acc : list ascii * Z) (mn : MergeNode) : result (list ascii * Z) :=
  let '(merged, cov) := acc in
  contig ← at_index sourceContigs (N.to_nat (id mn));
  assert "!contig.seq.empty()" (negb (Nat.eqb (length (seq contig)) 0)) ;;
  (* the [int] argument becomes a [size_t] *)
  merged ← mergeSequences merged (seq contig) SENSE (isRC mn)
             (kmer mod SIZE_MAX1);
  Ok (merged, add_unsigned cov (coverage contig)).

(** [mergePath].  [toString(currPath)] asserts that the path is not empty;
    the loop over [i = 1 .. numNodes - 1] visits the nodes after the
    first. *)
Definition mergePath `{Alphabet} (cID : LinearNumKey)
    (sourceContigs : list Contig) (currPath : ContigPath) (count kmer : Z)
  : result FastaRecord :=
  assert "numNodes > 0" (negb (Nat.eqb (length currPath) 0)) ;;
  firstNode ← at_index currPath 0;
  firstContig ← at_index sourceContigs (N.to_nat (id firstNode));
  let merged := seq firstContig in
  let cov := coverage firstContig in
  let merged := if isRC firstNode then reverseComplement merged else merged in
  assert "!merged.empty()" (negb (Nat.eqb (length merged) 0)) ;;
  '(merged, cov) ← forEach (mergeNode sourceContigs kmer) (merged, cov)
                     (tail currPath);
  Ok {| fa_id := count; fa_length := length merged; fa_coverage := cov;
        fa_path := currPath; fa_seq := merged |}.

(** *** The overlap contract, stated on the sequences alone *)

(** The sequence of contig [c] as node [n] orients it. *)
Definition oriented `{Alphabet} (n : MergeNode) (c : Contig) : list ascii :=
  if isRC n then reverseComplement (seq c) else seq c.

(** The contigs that a path names, when all its ids are in the table. *)
Definition pathContigs (sourceContigs : list Contig) (path : ContigPath)
  : option (list Contig) :=
  mapM (fun n => nth_error sourceContigs (N.to_nat (id n))) path.

(** The last [ov] symbols of [acc] are the first [ov] symbols of [s]. *)
Definition windowMatches (ov : nat) (acc s : list ascii) : Prop :=
  ov <= length acc /\ ov <= length s
  /\ skipn (length acc - ov) acc = firstn ov s.

(** The sequences [ss] can be spliced one after the other onto [acc], each
    one matching the window of what has been accumulated so far. *)
Fixpoint JointOverlap (ov : nat) (acc : list ascii) (ss : list (list ascii))
  : Prop :=
  match ss with
  | [] => True
  | s :: rest =>
      windowMatches ov acc s /\ JointOverlap ov (acc ++ skipn ov s) rest
  end.

(** The accumulator after the sequences [ss] have been spliced onto it. *)
Definition spliced (ov : nat) (acc : list ascii) (ss : list (list ascii))
  : list ascii :=
  fold_left (fun a s => a ++ skipn ov s) ss acc.

(** The orientation-applied sequences of the nodes [ns] naming [cs]. *)
Definition orientedSeqs `{Alphabet} (ns : list MergeNode) (cs : list Contig)
  : list (list ascii) :=
  zip_with oriented ns cs.

(** Contigs as [mergePath] expects them and as their type has them: the
    sequence is not empty, the coverage is a 32-bit unsigned number. *)
Definition nonEmpty (c : Contig) : Prop := seq c <> [].

Definition coverageInRange (c : Contig) : Prop :=
  (0 <= coverage c < UINT_MAX1)%Z.

(** Sums over the contigs of a path. *)
Definition totalLength (cs : list Contig) : Z :=
  fold_right (fun c acc => Z.of_nat (length (seq c)) + acc)%Z 0%Z cs.

Definition totalCoverage (cs : list Contig) : Z :=
  fold_right (fun c acc => coverage c + acc)%Z 0%Z cs.

(** ** Post-processing and emission, in [main] *)

(** The order on nodes, [operator<] of [MergeNode], is declared in a header
    that is not part of the sources at hand and is left as a parameter; all
    that the properties below use of it is that it is asymmetric. *)
Class NodeOrder := { node_lt : MergeNode -> MergeNode -> bool }.

Definition AsymmetricOrder `{NodeOrder} : Prop :=
  forall a b, node_lt a b = true -> node_lt b a = false.

(** An instance: by id, then forward before reverse. *)
Definition byIdThenSense : NodeOrder :=
  {| node_lt := fun a b =>
       N.ltb (id a) (id b)
       || (N.eqb (id a) (id b) && negb (isRC a) && isRC b) |}.

(** Modelled from the spec: [operator<] on paths, missing with
    [ContigPath.h]; paths are compared lexicographically over their element
    sequences, as [std::lexicographical_compare] does. *)
Fixpoint ContigPath_lt `{NodeOrder} (a b : list MergeNode) : bool :=
  match a, b with
  | _, [] => false
  | [], _ :: _ => true
  | x :: a', y :: b' =>
      if node_lt x y then true
      else if node_lt y x then false
      else ContigPath_lt a' b'
  end.

(** [std::sort] on the vector of paths.  The standard leaves the algorithm
    open and promises a sorted arrangement of the vector; insertion sort is
    taken here, and the properties below rely only on the result being
    sorted and a permutation. *)
Fixpoint insertPath `{NodeOrder} (p : list MergeNode)
    (l : list (list MergeNode)) : list (list MergeNode) :=
  match l with
  | [] => [p]
  | q :: l' => if ContigPath_lt q p then q :: insertPath p l' else p :: l
  end.

Definition sortPaths `{NodeOrder} (l : list (list MergeNode))
  : list (list MergeNode) :=
  fold_right insertPath [] l.

(** Path objects live on the heap; a [ContigPath*] is an address. *)
Definition deref (heap : gmap N (list MergeNode)) (ptr : N)
  : result (list MergeNode) :=
  match heap !! ptr with
  | Some p => Ok p
  | None => Abort BadPointer
  end.

(** [set<ContigPath*> uniquePtr], filled with [it->second] for every entry
    of [resultsPathMap]. *)
Definition uniquePtr (resultsPathMap : gmap N N) : gset N :=
  list_to_set (map snd (map_to_list resultsPathMap)).

(** [transform(uniquePtr.begin(), uniquePtr.end(),
    back_inserter(uniquePaths), deref<ContigPath>)]. *)
Definition derefAll (heap : gmap N (list MergeNode)) (ptrs : list N)
  : result (list (list MergeNode)) :=
  forEach (fun paths ptr => p ← deref heap ptr; Ok (paths ++ [p])) [] ptrs.

(** The vector [uniquePaths] of [main]: one path per distinct pointer of the
    result store, then sorted by value.  The set is traversed in the order
    of the addresses, which the sort makes immaterial. *)
Definition uniquePaths `{NodeOrder} (resultsPathMap : gmap N N)
    (heap : gmap N (list MergeNode)) : result (list (list MergeNode)) :=
  paths ← derefAll heap (elements (uniquePtr resultsPathMap));
  Ok (sortPaths paths).

(** Paths-only mode: the lines [<pathID> <path>], [pathID] counting from
    0. *)
Definition pathsOnlyOutput (uniquePaths : list (list MergeNode))
  : list (nat * list MergeNode) :=
  imap (fun pathID p => (pathID, p)) uniquePaths.

(** [getContigIDs]: the ids that occur in the paths. *)
Definition getContigIDs (paths : list (list MergeNode)) : gset N :=
  list_to_set (map id (concat paths)).

(** [s >> id] on a stream holding [s], as the C++11 library that the
    sources are written for does it ([thread_local] in [Options.h]).  Leading
    white space is skipped; when the stream ends there the extraction does
    not start and the variable is left as it was, which is [None].  Otherwise
    an optional sign and decimal digits are read and the variable is assigned:
    the number, or 0 when no digit could be read, or the nearest bound of
    [int] when the number does not fit. *)
Definition isSpace (c : ascii) : bool :=
  let n := nat_of_ascii c in Nat.eqb n 32 || (Nat.leb 9 n && Nat.leb n 13).

Definition digitOf (c : ascii) : option Z :=
  let n := nat_of_ascii c in
  if Nat.leb 48 n && Nat.leb n 57 then Some (Z.of_nat (n - 48)) else None.

Fixpoint skipSpaces (s : list ascii) : list ascii :=
  match s with
  | c :: s' => if isSpace c then skipSpaces s' else s
  | [] => []
  end.

Fixpoint readDigits (s : list ascii) (acc : option Z) : option Z :=
  match s with
  | c :: s' =>
      match digitOf c with
      | Some d => readDigits s' (Some (10 * default 0%Z acc + d)%Z)
      | None => acc
      end
  | [] => acc
  end.

Definition extractInt (s : string) : option Z :=
  match skipSpaces (list_ascii_of_string s) with
  | [] => None
  | s =>
      let '(neg, digits) :=
        match s with
        | "-"%char :: s' => (true, s')
        | "+"%char :: s' => (false, s')
        | _ => (false, s)
        end in
      match readDigits digits None with
      | Some n =>
          let v := if neg then (- n)%Z else n in
          Some (if (v <? - INT_MAX1)%Z then (- INT_MAX1)%Z
                else if (INT_MAX1 <=? v)%Z then (INT_MAX1 - 1)%Z
                else v)
      | None => Some 0%Z
      end
  end.

(** What FASTA mode writes: input contigs, unchanged, and merged records. *)
Inductive OutRecord :=
| Unmerged (c : Contig)
| Merged (r : FastaRecord).

(** The loop over [contigVec]: the unused contigs are written; the coverage
    statistics are floating-point numbers printed to the console and are not
    modelled, but for the assertion on the contigs of positive coverage,
    whose left-hand side is computed on [unsigned]. *)
Definition writeUnused (contigVec : list Contig) (seen : gset N) (k : Z)
  : result (list OutRecord) :=
  forEach (fun out '(i, contig) =>
      let out := if decide (N.of_nat i ∈ seen) then out
                 else out ++ [Unmerged contig] in
      (if (0 <? coverage contig)%Z
       then assert "(int)contig.seq.length() - opt::k + 1 > 0"
              (0 <? (Z.of_nat (length (seq contig)) - k + 1) mod UINT_MAX1)%Z
       else Ok tt) ;;
      Ok out)
    [] (imap (fun i c => (i, c)) contigVec).

(** [opt::k] is [unsigned] and [mergePath] takes an [int]. *)
Definition int_of_unsigned (u : Z) : Z :=
  if (u <? INT_MAX1)%Z then u else (u - UINT_MAX1)%Z.

(** The value of an [int] after an operation whose exact result is [v]:
    the machines the program is built for keep the low 32 bits, so that
    [id++] at [INT_MAX] goes on from [INT_MIN]. *)
Definition wrap_int (v : Z) : Z :=
  ((v + INT_MAX1) mod UINT_MAX1 - INT_MAX1)%Z.

(** The final loop of [main]: [mergePath(..., id++, ...)] for every unique
    path, appending to what [out] holds already. *)
Definition writeMerged `{Alphabet} (contigVec : list Contig) (k : Z)
    (uniquePaths : list (list MergeNode)) (out : list OutRecord) (first : Z)
  : result (list OutRecord * Z) :=
  forEach (fun '(out, id_) path =>
      front ← at_index path 0;
      r ← mergePath (id front) contigVec path id_ (int_of_unsigned k);
      Ok (out ++ [Merged r], wrap_int (id_ + 1)))
    (out, first) uniquePaths.

(** FASTA mode, from [ofstream out(opt::out.c_str())] to the end of
    [main]; [k] is [opt::k], which [main] has checked to be positive.
    [g_contigIDs.key(i)] is the name of contig [i], the contigs having been
    interned in the order of [contigVec]. *)
Definition fastaOutput `{Alphabet} (contigVec : list Contig)
    (uniquePaths : list (list MergeNode)) (k : Z) : result (list OutRecord) :=
  let seen := getContigIDs uniquePaths in
  out ← writeUnused contigVec seen k;
  lastContig ← at_index contigVec (length contigVec - 1);
  match extractInt (name lastContig) with
  | None => Abort Uninitialized
  | Some first =>
      '(out, _) ← writeMerged contigVec k uniquePaths out first;
      Ok out
  end.

(** The ids of the merged records of an output, in order. *)
Definition mergedIds (out : list OutRecord) : list Z :=
  omap (fun o => match o with Merged r => Some (fa_id r) | Unmerged _ => None end)
    out.

(** ** The linking pass, [linkPaths] *)

(** [MergeNodeList] is [std::list<MergeNode>]. *)
Abbreviation MergeNodeList := (list MergeNode) (only parsing).

(** [addPathNodesToList]: the nodes of [path] are pushed onto the back of
    [list], first to last. *)
Definition addPathNodesToList (list : MergeNodeList) (path : ContigPath)
  : MergeNodeList :=
  fold_left (fun list node => list ++ [node]) path list.

(** [ContigPath nodes(&v[first], &v[last])]: the elements from index
    [first] up to, not including, index [last]; the two pointers have to
    lie inside the vector, or one past its end, in that order. *)
Definition slice (v : ContigPath) (first last : nat) : result ContigPath :=
  if Nat.leb first last && Nat.leb last (length v)
  then Ok (firstn (last - first) (skipn first v))
  else Abort BadPointer.

(** The [set<LinearNumKey>] filled with the ids of a path. *)
Definition keysOf (path : ContigPath) : gset N :=
  list_to_set (map id path).

(** [usedPathMap->find(key)] and, when the key is found, the copy
    [*findIter->second].  With [deleteSubsumed] the store in use is the
    result store, a map from keys to addresses; without it the original
    store, which [readPathsFromFile] has filled with one object of its own
    per key and which [linkPaths] only reads, so that it is taken by value
    as there. *)
Definition findPath (deleteSubsumed : bool)
    (contigPathMap : gmap N ContigPath) (resultPathMap : gmap N N)
    (heap : gmap N (list MergeNode)) (key : LinearNumKey)
  : result (option ContigPath) :=
  if deleteSubsumed then
    match resultPathMap !! key with
    | Some ptr => path ← deref heap ptr; Ok (Some path)
    | None => Ok None
    end
  else Ok (contigPathMap !! key).

(** [resultPathMap.erase(findIter); delete findIter->second]: the entry of
    [key] is erased and the path object that it pointed to is freed.  The
    code reads the pointer off the entry once the entry is erased; the
    model takes the pointer that the entry held. *)
Definition eraseChild (resultPathMap : gmap N N)
    (heap : gmap N (list MergeNode)) (key : LinearNumKey)
  : result (gmap N N * gmap N (list MergeNode)) :=
  match resultPathMap !! key with
  | Some ptr =>
      match heap !! ptr with
      | Some _ => Ok (delete key resultPathMap, delete ptr heap)
      | None => Abort BadPointer
      end
  | None => Abort BadPointer
  end.

(** The body of the [while] loop of [linkPaths] up to, not including,
    [mergeInList.erase(iter++)]; [node] is [*iter], the front of
    [mergeInList], and [refCanonical] is the address of the canonical path.
    The result is the result store, the heap and the work list as the turn
    leaves them.  The locals [s1, e1, s2, e2] are passed uninitialised;
    [checkPathConsistency] assigns them before it returns true and never
    reads what they held, so the model passes zeros. *)
Definition linkNode (id_ : LinearNumKey) (deleteSubsumed : bool)
    (contigPathMap : gmap N ContigPath) (resultPathMap : gmap N N)
    (heap : gmap N (list MergeNode))
    (refCanonical : N) (mergeInList : list MergeNode)
    (node : MergeNode)
  : result (gmap N N * gmap N (list MergeNode) * list MergeNode) :=
  if N.eqb (id node) id_ then Ok (resultPathMap, heap, mergeInList)
  else
    found ← findPath deleteSubsumed contigPathMap resultPathMap heap
              (id node);
    match found with
    | None => Ok (resultPathMap, heap, mergeInList)
    | Some childCanonPath =>
        path1 ← deref heap refCanonical;
        '(validMerge, childCanonPath, (_, _, s2, e2)) ←
          checkPathConsistency id_ (id node) path1 childCanonPath
            (0, 0, 0, 0);
        if validMerge && deleteSubsumed then
          if negb (Nat.eqb s2 0)
             || negb (Nat.eqb (e2 + 1) (length childCanonPath))
          then
            let refKeys := keysOf path1 in
            let childKeys := keysOf childCanonPath in
            let refIncludesChild := bool_decide (childKeys ⊆ refKeys) in
            let childIncludesRef := bool_decide (refKeys ⊆ childKeys) in
            assert "refIncludesChild || childIncludesRef"
              (refIncludesChild || childIncludesRef) ;;
            if refIncludesChild && negb childIncludesRef
            then
              '(resultPathMap, heap) ←
                eraseChild resultPathMap heap (id node);
              Ok (resultPathMap, heap, mergeInList)
            else Ok (resultPathMap, heap, mergeInList)
          else
            '(resultPathMap, heap) ←
              eraseChild resultPathMap heap (id node);
            Ok (resultPathMap, heap, mergeInList)
        else if validMerge then
          prependNodes ← slice childCanonPath 0 s2;
          appendNodes ← slice childCanonPath (e2 + 1)
                          (length childCanonPath);
          let mergeInList := addPathNodesToList mergeInList prependNodes in
          let mergeInList := addPathNodesToList mergeInList appendNodes in
          Ok (resultPathMap,
              <[refCanonical := prependNodes ++ path1 ++ appendNodes]> heap,
              mergeInList)
        else Ok (resultPathMap, heap, mergeInList)
    end.

(** [while (!mergeInList.empty())]: [iter] is always the front of the
    list, every turn erasing the node it has looked at; [fuel] bounds the
    number of turns, and [None] is a loop that has not come to its end
    within them. *)
Fixpoint linkLoop (fuel : nat) (id_ : LinearNumKey) (deleteSubsumed : bool)
    (contigPathMap : gmap N ContigPath) (resultPathMap : gmap N N)
    (heap : gmap N (list MergeNode))
    (refCanonical : N) (mergeInList : list MergeNode)
  : option (result (gmap N N * gmap N (list MergeNode))) :=
  match mergeInList with
  | [] => Some (Ok (resultPathMap, heap))
  | node :: _ =>
      match fuel with
      | 0 => None
      | S fuel =>
          match linkNode id_ deleteSubsumed contigPathMap resultPathMap heap
                  refCanonical mergeInList node with
          | Ok (resultPathMap, heap, mergeInList) =>
              linkLoop fuel id_ deleteSubsumed contigPathMap resultPathMap
                heap refCanonical (tail mergeInList)
          | Abort f => Some (Abort f)
          end
      end
  end.

(** What [refCanonical] points to at first: with [deleteSubsumed] the
    object of [resultPathMap[id]], else a new object, at the address
    [newPath], that holds a copy of [*contigPathMap[id]]; [operator[]]
    yields a null pointer for a key that is not there. *)
Definition initialCanonical (id_ : LinearNumKey) (deleteSubsumed : bool)
    (contigPathMap : gmap N ContigPath) (resultPathMap : gmap N N)
    (heap : gmap N (list MergeNode)) (newPath : N)
  : result (N * gmap N (list MergeNode)) :=
  if deleteSubsumed then
    match resultPathMap !! id_ with
    | Some ptr => Ok (ptr, heap)
    | None => Abort BadPointer
    end
  else
    match contigPathMap !! id_ with
    | Some path => Ok (newPath, <[newPath := path]> heap)
    | None => Abort BadPointer
    end.

(** [linkPaths].  [newPath] is the address that [new ContigPath] returns.
    The result is the result store and the heap as the call leaves them:
    without [deleteSubsumed] the new object is published under [id]. *)
Definition linkPaths (id_ : LinearNumKey)
    (contigPathMap : gmap N ContigPath) (resultPathMap : gmap N N)
    (heap : gmap N (list MergeNode)) (deleteSubsumed : bool)
    (newPath : N) (fuel : nat)
  : option (result (gmap N N * gmap N (list MergeNode))) :=
  match initialCanonical id_ deleteSubsumed contigPathMap resultPathMap
          heap newPath with
  | Abort f => Some (Abort f)
  | Ok (refCanonical, heap) =>
      match deref heap refCanonical with
      | Abort f => Some (Abort f)
      | Ok path =>
          let mergeInList := addPathNodesToList [] path in
          match linkLoop fuel id_ deleteSubsumed contigPathMap resultPathMap
                  heap refCanonical mergeInList with
          | None => None
          | Some (Abort f) => Some (Abort f)
          | Some (Ok (resultPathMap, heap)) =>
              Some (Ok (if deleteSubsumed then (resultPathMap, heap)
                        else (<[id_ := refCanonical]> resultPathMap, heap)))
          end
      end
  end.

(** ** The two linking loops of [main] *)

(** The keys of a store in the order in which its iterator visits them. *)
Definition sortedKeys {A} (m : gmap N A) : list N :=
  merge_sort N.le (elements (dom m)).

(** The first loop: [linkPaths(iter->first, originalPathMap,
    resultsPathMap, false)] for every key of [originalPathMap].
    [newPath heap] is the address that [new ContigPath] returns when the
    objects of [heap] are allocated. *)
Fixpoint firstPass (fuel : nat) (newPath : gmap N (list MergeNode) -> N)
    (originalPathMap : gmap N ContigPath) (keys : list N)
    (resultsPathMap : gmap N N) (heap : gmap N (list MergeNode))
  : option (result (gmap N N * gmap N (list MergeNode))) :=
  match keys with
  | [] => Some (Ok (resultsPathMap, heap))
  | key :: keys =>
      match linkPaths key originalPathMap resultsPathMap heap false
              (newPath heap) fuel with
      | Some (Ok (resultsPathMap, heap)) =>
          firstPass fuel newPath originalPathMap keys resultsPathMap heap
      | other => other
      end
  end.

(** The second loop: [linkPaths(iter->first, originalPathMap,
    resultsPathMap, true)] for every key of [resultsPathMap].  A call only
    erases entries other than the one the iterator is at, so the iterator
    goes through the keys that the store held at first, in their order,
    and does not come to those erased before their turn. *)
Fixpoint secondPass (fuel : nat) (newPath : gmap N (list MergeNode) -> N)
    (originalPathMap : gmap N ContigPath) (keys : list N)
    (resultsPathMap : gmap N N) (heap : gmap N (list MergeNode))
  : option (result (gmap N N * gmap N (list MergeNode))) :=
  match keys with
  | [] => Some (Ok (resultsPathMap, heap))
  | key :: keys =>
      match resultsPathMap !! key with
      | None =>
          secondPass fuel newPath originalPathMap keys resultsPathMap heap
      | Some _ =>
          match linkPaths key originalPathMap resultsPathMap heap true
                  (newPath heap) fuel with
          | Some (Ok (resultsPathMap, heap)) =>
              secondPass fuel newPath originalPathMap keys resultsPathMap
                heap
          | other => other
          end
      end
  end.

(** Linking as [main] does it, from the store that [readPathsFromFile] has
    filled to the result store handed to the emission. *)
Definition linkAll (fuel : nat) (newPath : gmap N (list MergeNode) -> N)
    (originalPathMap : gmap N ContigPath)
  : option (result (gmap N N * gmap N (list MergeNode))) :=
  match firstPass fuel newPath originalPathMap (sortedKeys originalPathMap)
          ∅ ∅ with
  | Some (Ok (resultsPathMap, heap)) =>
      secondPass fuel newPath originalPathMap (sortedKeys resultsPathMap)
        resultsPathMap heap
  | other => other
  end.

(** An allocator: the address it returns is that of no allocated object. *)
Definition nextFree (heap : gmap N (list MergeNode)) : N :=
  fresh (dom heap).

(** ** Auxiliary notions for the further properties *)

(** Index [i] of [path] holds the contig [anchor]. *)
Definition holdsAnchor (anchor : LinearNumKey) (path : ContigPath) (i : nat)
  : Prop :=
  exists n, nth_error path i = Some n /\ id n = anchor.

(** The contig [anchor] occurs in [path]. *)
Definition occursIn (anchor : LinearNumKey) (path : ContigPath) : Prop :=
  exists i, holdsAnchor anchor path i.

(** The alignment of two whole paths of last index [max], recorded with
    the flag [f]. *)
Definition fullAlignment (max : nat) (f : bool) (a : PathConsistencyStats)
  : Prop :=
  startP1 a = 0 /\ endP1 a = max /\ startP2 a = 0 /\ endP2 a = max
  /\ flipped a = f.

(** The records of root [k], in file order. *)
Definition recordsOf (k : LinearNumKey) (lines : list PathLine)
  : list PathLine :=
  List.filter (fun l => N.eqb (id (line_pivot l)) k) lines.

(** At most one forward record, then at most one reverse record. *)
Definition forwardThenReverse (ls : list PathLine) : Prop :=
  match ls with
  | [] => True
  | [_] => True
  | [f; r] => isRC (line_pivot f) = false /\ isRC (line_pivot r) = true
  | _ => False
  end.

(** The sequences that [mergeSequences] puts on the left and on the right,
    once [otherContig] has been oriented. *)
Definition leftOf `{Alphabet} (rootContig otherContig : Sequence)
    (dir : extDirection) (isReversed : bool) : list ascii :=
  match dir with
  | SENSE => rootContig
  | ANTISENSE =>
      if isReversed then reverseComplement otherContig else otherContig
  end.

Definition rightOf `{Alphabet} (rootContig otherContig : Sequence)
    (dir : extDirection) (isReversed : bool) : list ascii :=
  match dir with
  | SENSE =>
      if isReversed then reverseComplement otherContig else otherContig
  | ANTISENSE => rootContig
  end.

(** The contigs of [contigVec] whose index is not in [seen], in order. *)
Definition unusedContigs (contigVec : list Contig) (seen : gset N)
  : list Contig :=
  omap (fun '(i, c) => if decide (N.of_nat i ∈ seen) then None else Some c)
    (imap (fun i c => (i, c)) contigVec).

(** What the assertion of the loop over [contigVec] asks of one contig, the
    difference being computed on [unsigned]. *)
Definition lengthCheck (k : Z) (c : Contig) : Prop :=
  (0 < coverage c)%Z ->
  ((Z.of_nat (length (seq c)) - k + 1) mod UINT_MAX1 <> 0)%Z.

(** Two outcomes of [checkPathConsistency] that agree on everything a
    caller may read: the failure, or the returned boolean, the final
    [path2] and, when the boolean is true, the four reference parameters. *)
Definition sameVerdict (r r' : result (bool * list MergeNode * Range))
  : Prop :=
  match r, r' with
  | Ok (v, p, rg), Ok (v', p', rg') =>
      v = v' /\ p = p' /\ (v = true -> rg = rg')
  | Abort f, Abort f' => f = f'
  | _, _ => False
  end.

(** [a] is a contiguous part of [b]. *)
Definition infix {A} (a b : list A) : Prop :=
  exists l r, b = l ++ a ++ r.

(** Two scan states that differ at most in the reference parameters. *)
Definition sameScan (st st' : ScanState) : Prop :=
  sc_path2 st = sc_path2 st' /\ sc_flipped st = sc_flipped st'
  /\ sc_alignments st = sc_alignments st'.

(** A relation on states, lifted to the outcomes of a loop. *)
Definition liftR {S} (R : S -> S -> Prop) (r r' : result S) : Prop :=
  match r, r' with
  | Ok t, Ok t' => R t t'
  | Abort f, Abort f' => f = f'
  | _, _ => False
  end.

(** The node [n] is read off a path of the store, as it stands there or
    reversed. *)
Definition fromStore (contigPathMap : gmap N ContigPath) (n : MergeNode)
  : Prop :=
  exists k child,
    contigPathMap !! k = Some child
    /\ (In n child \/ In n (reverseComplementPath child)).

(** A node that triggers no merge: it is the root itself, it has no path
    of its own, or the check rejects its path. *)
Definition inert (id_ : LinearNumKey) (contigPathMap : gmap N ContigPath)
    (refCanonical : ContigPath) (n : MergeNode) : Prop :=
  id n = id_ \/ contigPathMap !! id n = None
  \/ exists child child' range,
       contigPathMap !! id n = Some child
       /\ checkPathConsistency id_ (id n) refCanonical child (0, 0, 0, 0)
          = Ok (false, child', range).

(** Every entry of the result store points to an allocated path that holds
    the key of the entry, and no two entries share an object. *)
Definition StoreOK (resultPathMap : gmap N N)
    (heap : gmap N (list MergeNode)) : Prop :=
  (forall k q, resultPathMap !! k = Some q ->
     exists p, heap !! q = Some p /\ exists n, In n p /\ id n = k)
  /\ (forall k1 k2 q, resultPathMap !! k1 = Some q ->
        resultPathMap !! k2 = Some q -> k1 = k2).

(** ** Sample inputs *)

(** Concrete records, paths, contigs and stores on which the properties
    below are exercised. *)

(** Sample records: [@ 7- -> 8+ 9+] and [@ 7+ -> 5+]. *)
Definition node (k : N) (rc : bool) : MergeNode := {| id := k; isRC := rc |}.

Definition record (pivot : MergeNode) (tail : ContigPath) : PathLine :=
  {| line_at := "@"; line_pivot := pivot; line_sep := "->";
     line_path := tail; line_eof := true |}.

Definition rec_7_minus : PathLine := record (node 7 true) [node 8 false; node 9 false].
Definition rec_7_plus : PathLine := record (node 7 false) [node 5 false].

(** The stores these records lead to. *)
Definition store_7_minus : gmap N (list MergeNode) :=
  {[ 7%N := [node 9 false; node 8 false; node 7 false] ]}.
Definition store_7_both : gmap N (list MergeNode) :=
  {[ 7%N := [node 9 false; node 8 false; node 7 false; node 5 false] ]}.

(** Sample paths.  [pathA_S3 = x y z y w] and [pathB_S3 = y] are the paths
    of scenario S3, with [x, y, z, w = 0, 1, 2, 3]; [pathA_dup] and
    [pathB_dup] align twice on a single node. *)
Definition pathA_S3 : list MergeNode :=
  [node 0 false; node 1 false; node 2 false; node 1 false; node 3 false].
Definition pathB_S3 : list MergeNode := [node 1 false].
Definition pathB_tail : list MergeNode := [node 1 false; node 3 false].
Definition pathA_dup : list MergeNode := [node 1 false; node 9 false; node 1 false].
Definition pathB_dup : list MergeNode := [node 1 false; node 8 false; node 1 false].
Definition pathA_rep : list MergeNode :=
  [node 1 false; node 5 false; node 1 false; node 5 false; node 1 false].
Definition pathB_rep : list MergeNode := [node 1 false; node 5 false; node 1 false].

Definition stats (s1 e1 s2 e2 : nat) (f d : bool) : PathConsistencyStats :=
  {| startP1 := s1; endP1 := e1; startP2 := s2; endP2 := e2;
     flipped := f; duplicateSize := d |}.

Definition scanState (p2 : list MergeNode) (f : bool) (r : nat * nat * nat * nat)
    (m : gmap nat PathConsistencyStats) : ScanState :=
  {| sc_path2 := p2; sc_flipped := f; sc_range := r; sc_alignments := m |}.

(** The states in which the scan of these pairs ends. *)
Definition scan_dup : ScanState :=
  scanState pathB_dup false (0, 1, 0, 1) {[ 0 := stats 2 2 0 0 false true ]}.
Definition scan_rep : ScanState :=
  scanState pathB_rep false (0, 2, 0, 2)
    (<[ 2 := stats 2 4 0 2 false true ]> {[ 0 := stats 4 4 0 0 false true ]}).

(** Sample contigs: two contigs that overlap on [CG], of coverages
    [UINT_MAX] and 1; a contig of two symbols; an empty one. *)
Definition contig (n s : string) (cov : Z) : Contig :=
  {| name := n; seq := list_ascii_of_string s; coverage := cov |}.

Definition sampleContigs : list Contig :=
  [contig "0" "ACG" 4294967295; contig "1" "CGT" 1; contig "2" "AC" 0;
   contig "3" "" 0; contig "4" "ACGT" 7; contig "5" "GTAC" 3;
   contig "6" "TGGT" 2].

(** A file whose two records give the roots 0 and 1 the same path
    [0+ 1+], the store read from it, the result store that the first pass
    builds from it, with two path objects of equal contents, and what the
    second pass leaves of that store. *)
Definition path01 : list MergeNode := [node 0 false; node 1 false].
Definition twin_lines : list PathLine :=
  [record (node 0 false) [node 1 false]; record (node 1 true) [node 0 false]].
Definition twin_original : gmap N (list MergeNode) :=
  <[1%N := path01]> {[ 0%N := path01 ]}.
Definition store_twins : gmap N N := <[1%N := 200%N]> {[ 0%N := 100%N ]}.
Definition heap_twins : gmap N (list MergeNode) :=
  <[200%N := path01]> {[ 100%N := path01 ]}.
Definition store_single : gmap N N := {[ 0%N := 100%N ]}.
Definition heap_single : gmap N (list MergeNode) := {[ 100%N := path01 ]}.
Definition linked_results : gmap N N := {[ 0%N := 0%N ]}.
Definition linked_heap : gmap N (list MergeNode) := {[ 0%N := path01 ]}.

(** Three contigs named 0, 1 and 2, of which the path [0+ 1+] uses the
    first two. *)
Definition idContigs : list Contig :=
  [contig "0" "ACGT" 7; contig "1" "GTAC" 3; contig "2" "TTTT" 2].
Definition namedContigs : list Contig :=
  [contig "a" "ACGT" 7; contig "b" "GTAC" 3; contig "c" "TTTT" 2].

Definition store_chain : gmap N (list MergeNode) :=
  <[2%N := [node 2 false; node 3 false]]>
    {[ 1%N := [node 1 false; node 2 false] ]}.
Definition no_results : gmap N N := ∅.
Definition no_heap : gmap N (list MergeNode) := ∅.
Definition chain_results : gmap N N := {[ 1%N := 100%N ]}.
Definition chain_start : gmap N (list MergeNode) :=
  {[ 100%N := [node 1 false; node 2 false] ]}.
Definition chain_heap : gmap N (list MergeNode) :=
  {[ 100%N := [node 1 false; node 2 false; node 3 false] ]}.

(** * Properties *)

(** ** Generic facts *)

Lemma bind_Ok {A B} (r : result A) (k : A -> result B) (b : B) :
  r ≫= k = Ok b -> exists a, r = Ok a /\ k a = Ok b.
Proof. destruct r as [a|f]; simpl; [eauto | discriminate]. Qed.

Lemma assert_Ok c b : assert c b = Ok tt <-> b = true.
Proof. destruct b; simpl; split; intros; congruence. Qed.

Lemma assert_inv c b u : assert c b = Ok u -> b = true.
Proof. destruct b; simpl; [reflexivity | discriminate]. Qed.

Lemma MergeNode_eqb_eq a b : MergeNode_eqb a b = true <-> a = b.
Proof.
  destruct a as [ia ra], b as [ib rb]; unfold MergeNode_eqb; simpl.
  rewrite andb_true_iff, N.eqb_eq, Bool.eqb_true_iff.
  split; [intros [-> ->]; reflexivity | intros [= -> ->]; auto].
Qed.

Ltac inv_bind_as H a Ha :=
  apply bind_Ok in H; destruct H as (a & Ha & H).

Ltac inv_bind H :=
  let a := fresh "u" in
  let Ha := fresh "Hu" in
  apply bind_Ok in H; destruct H as (a & Ha & H).

(** ** The parser *)

(** What one accepted line does to the store. *)
Lemma readPathLine_Ok m l m' :
  readPathLine m l = Ok m' ->
  let k := id (line_pivot l) in
  let p := default [rootNode k] (m !! k) in
  if isRC (line_pivot l)
  then front_is p (rootNode k) = true /\ m' = <[k := rev (line_path l) ++ p]> m
  else p = [rootNode k] /\ m' = <[k := rootNode k :: line_path l]> m.
Proof.
  unfold readPathLine. intros H.
  inv_bind H. inv_bind H. inv_bind H.
  destruct (isRC (line_pivot l)); simpl in *.
  - inv_bind H. apply assert_inv in Hu2. injection H as <-. auto.
  - inv_bind H. inv_bind H. apply assert_inv in Hu2, Hu3. injection H as <-.
    set (p := default _ _) in *.
    destruct p as [|x [|y p]]; simpl in *; try discriminate.
    apply MergeNode_eqb_eq in Hu3. subst x. auto.
Qed.

Lemma readPathLine_lookup m l m' k p :
  readPathLine m l = Ok m' -> m' !! k = Some p ->
  let p0 := default [rootNode k] (m !! k) in
  if N.eqb (id (line_pivot l)) k then
    if isRC (line_pivot l) then p = rev (line_path l) ++ p0
    else p = p0 ++ line_path l
  else m !! k = Some p.
Proof.
  intros H Hp. apply readPathLine_Ok in H. simpl in *.
  destruct (N.eqb_spec (id (line_pivot l)) k) as [Heq|Hne].
  - rewrite Heq in H.
    destruct (isRC (line_pivot l)); destruct H as [H ->];
      rewrite lookup_insert_eq in Hp; injection Hp as <-.
    + reflexivity.
    + rewrite H. reflexivity.
  - destruct (isRC (line_pivot l)); destruct H as [H ->];
      rewrite lookup_insert_ne in Hp by assumption; exact Hp.
Qed.

Lemma tailsOf_cons rc k l lines :
  tailsOf rc k (l :: lines) =
  (if N.eqb (id (line_pivot l)) k && Bool.eqb (isRC (line_pivot l)) rc
   then line_path l else []) ++ tailsOf rc k lines.
Proof.
  unfold tailsOf. simpl.
  destruct (N.eqb _ _ && Bool.eqb _ _); reflexivity.
Qed.

(** Shape of every stored path: the reverse records pile up, reversed, in
    front of what was stored at the start, the forward records behind it. *)
Lemma readPathLines_shape lines : forall m0 m k p,
  readPathLines m0 lines = Ok m -> m !! k = Some p ->
  p = rev (tailsOf true k lines) ++ default [rootNode k] (m0 !! k)
      ++ tailsOf false k lines.
Proof.
  induction lines as [|l lines IH]; intros m0 m k p H Hp.
  - simpl in H. injection H as ->. rewrite Hp. simpl.
    unfold tailsOf. simpl. now rewrite app_nil_r.
  - simpl in H. inv_bind H. rename u into m1.
    specialize (IH m1 m k p H Hp).
    rewrite !tailsOf_cons.
    destruct (m1 !! k) as [p1|] eqn:Hp1.
    + pose proof (readPathLine_lookup _ _ _ _ _ Hu Hp1) as Hl. simpl in Hl, IH.
      destruct (N.eqb (id (line_pivot l)) k); simpl.
      * destruct (isRC (line_pivot l)); simpl; subst p1 p.
        -- rewrite rev_app_distr. now rewrite <- !app_assoc.
        -- now rewrite <- !app_assoc.
      * rewrite Hl. exact IH.
    + (* the key is created later, so it is not the root of this line *)
      apply readPathLine_Ok in Hu. simpl in Hu.
      destruct (N.eqb_spec (id (line_pivot l)) k) as [Heq|Hne].
      * rewrite Heq in Hu.
        destruct (isRC (line_pivot l)); destruct Hu as [_ ->];
          rewrite lookup_insert_eq in Hp1; discriminate.
      * simpl.
        assert (Hm0 : m0 !! k = None).
        { destruct (isRC (line_pivot l)); destruct Hu as [_ ->];
            rewrite lookup_insert_ne in Hp1 by assumption; exact Hp1. }
        rewrite Hm0. exact IH.
Qed.

(** Stored paths never get shorter, and no entry disappears. *)
Lemma readPathLine_grows m l m' k p :
  readPathLine m l = Ok m' -> m !! k = Some p ->
  exists p', m' !! k = Some p' /\ length p <= length p'.
Proof.
  intros H Hp. apply readPathLine_Ok in H. simpl in H.
  destruct (N.eqb_spec (id (line_pivot l)) k) as [Heq|Hne].
  - rewrite Heq, Hp in H. simpl in H.
    destruct (isRC (line_pivot l)); destruct H as [H ->];
      rewrite lookup_insert_eq; eexists; split; try reflexivity.
    + rewrite length_app. lia.
    + subst p. simpl. lia.
  - exists p. split; [|lia].
    destruct (isRC (line_pivot l)); destruct H as [_ ->];
      rewrite lookup_insert_ne by assumption; exact Hp.
Qed.

Lemma readPathLines_grows lines : forall m m' k p,
  readPathLines m lines = Ok m' -> m !! k = Some p ->
  exists p', m' !! k = Some p' /\ length p <= length p'.
Proof.
  induction lines as [|l lines IH]; intros m m' k p H Hp; simpl in H.
  - injection H as <-. exists p. auto.
  - inv_bind H.
    destruct (readPathLine_grows _ _ _ _ _ Hu Hp) as (p1 & Hp1 & Hle).
    destruct (IH _ _ _ _ H Hp1) as (p2 & Hp2 & Hle2).
    exists p2. split; [assumption | lia].
Qed.

Lemma readPathLines_app l1 : forall l2 m m',
  readPathLines m (l1 ++ l2) = Ok m' ->
  exists m1, readPathLines m l1 = Ok m1 /\ readPathLines m1 l2 = Ok m'.
Proof.
  induction l1 as [|l l1 IH]; intros l2 m m' H; simpl in *.
  - eauto.
  - inv_bind H. destruct (IH _ _ _ H) as (m1 & H1 & H2).
    exists m1. rewrite Hu. simpl. auto.
Qed.

(** A record with a non-empty tail leaves at least two nodes under its
    root. *)
Lemma readPathLine_extends m l m' :
  readPathLine m l = Ok m' -> line_path l <> [] ->
  exists p, m' !! id (line_pivot l) = Some p /\ 2 <= length p.
Proof.
  intros H Hne. apply readPathLine_Ok in H. simpl in H.
  assert (Hlen : 1 <= length (line_path l))
    by (destruct (line_path l); [congruence | simpl; lia]).
  destruct (isRC (line_pivot l)); destruct H as [H ->];
    rewrite lookup_insert_eq; eexists; split; try reflexivity.
  - set (p := default _ _) in *. rewrite length_app, length_rev.
    destruct p; [discriminate | simpl; lia].
  - simpl. lia.
Qed.

Lemma readPathLine_forward_long m l p :
  isRC (line_pivot l) = false ->
  m !! id (line_pivot l) = Some p -> 2 <= length p ->
  exists c, readPathLine m l = Abort (AssertFailed c)
            /\ (line_wf l = true -> c = "p->size() == 1"%string).
Proof.
  intros Hdir Hp Hlen. unfold readPathLine, line_wf.
  rewrite Hdir, Hp. simpl.
  destruct (line_eof l); simpl; [|eexists; split; [reflexivity|discriminate]].
  destruct (Ascii.eqb _ _); simpl; [|eexists; split; [reflexivity|discriminate]].
  destruct (String.eqb _ _); simpl; [|eexists; split; [reflexivity|discriminate]].
  destruct p as [|x [|y p]]; simpl in *; try lia.
  eexists; split; reflexivity.
Qed.

(** C2, as stated, fails: after the single record [@ 7- -> 8+ 9+] the
    path stored under key 7 is [9+ 8+ 7+], whose element 0 is not the
    root. *)
Lemma root_fixpoint_counterexample :
  readPathsFromFile [rec_7_minus] ∅ = Ok store_7_minus
  /\ ~ (forall m k p, readPathsFromFile [rec_7_minus] ∅ = Ok m ->
          m !! k = Some p -> head p = Some (rootNode k)).
Proof.
  assert (E : readPathsFromFile [rec_7_minus] ∅ = Ok store_7_minus)
    by (vm_compute; reflexivity).
  split; [exact E|].
  intros H. specialize (H _ 7%N _ E (lookup_singleton_eq _ _)).
  discriminate H.
Qed.

(** C2 (amended): pivot invariant of the parser.  After
    [readPathsFromFile] has consumed the whole file, the path stored under
    any key [k] is the reversed tails of the reverse records of [k],
    followed by the root [(k, reverse=false)], followed by the tails of the
    forward records of [k].  Hence the root is element 0 as long as no
    reverse record with a non-empty tail was read for [k]; otherwise
    element 0 is the last node of those tails and the root comes right
    after the prepended, reversed tail. *)
Theorem readPathsFromFile_pivot lines m k p :
  readPathsFromFile lines ∅ = Ok m -> m !! k = Some p ->
  p = rev (tailsOf true k lines) ++ rootNode k :: tailsOf false k lines
  /\ nth_error p (length (tailsOf true k lines)) = Some (rootNode k)
  /\ (tailsOf true k lines = [] -> head p = Some (rootNode k))
  /\ (forall x, last (tailsOf true k lines) = Some x -> head p = Some x).
Proof.
  intros H Hp. unfold readPathsFromFile in H.
  pose proof (readPathLines_shape _ _ _ _ _ H Hp) as E.
  rewrite lookup_empty in E. simpl in E.
  split; [exact E|]. subst p. repeat split.
  - rewrite nth_error_app2 by (rewrite length_rev; lia).
    rewrite length_rev, Nat.sub_diag. reflexivity.
  - intros ->. reflexivity.
  - intros x Hx. destruct (tailsOf true k lines) as [|y t] using rev_ind.
    + discriminate.
    + rewrite last_snoc in Hx. injection Hx as ->.
      rewrite rev_app_distr. reflexivity.
Qed.

Lemma readPathsFromFile_pivot_witness :
  let p := [node 9 false; node 8 false; node 7 false; node 5 false] in
  nth_error p (length (tailsOf true 7%N [rec_7_plus; rec_7_minus]))
    = Some (rootNode 7)
  /\ head p = Some (node 9 false).
Proof.
  pose proof (readPathsFromFile_pivot [rec_7_plus; rec_7_minus]
    store_7_both 7%N [node 9 false; node 8 false; node 7 false; node 5 false]
    ltac:(vm_compute; reflexivity) ltac:(vm_compute; reflexivity))
    as (_ & Hroot & _ & Hhead).
  split; [exact Hroot | exact (Hhead (node 9 false) eq_refl)].
Defined.

(** C10: a forward record [@ r+ -> ...] is accepted only while the path
    stored for [r] is exactly [[(r, reverse=false)]] (or absent, in which
    case it has just been created as that singleton), and is then stored as
    the root followed by the tail.  Once an earlier record of the same root
    with a non-empty tail, forward or reverse, has been accepted, a forward
    record fails an assertion ([p->size() == 1] when the line itself is
    well formed) and nothing is appended. *)
Theorem forward_record_needs_singleton :
  (forall m l m',
      isRC (line_pivot l) = false -> readPathLine m l = Ok m' ->
      default [rootNode (id (line_pivot l))] (m !! id (line_pivot l))
        = [rootNode (id (line_pivot l))]
      /\ m' = <[id (line_pivot l) := rootNode (id (line_pivot l)) :: line_path l]> m)
  /\ (forall pre l1 mid l2 m,
      id (line_pivot l1) = id (line_pivot l2) ->
      line_path l1 <> [] ->
      isRC (line_pivot l2) = false ->
      readPathsFromFile (pre ++ l1 :: mid) ∅ = Ok m ->
      (exists c, readPathLine m l2 = Abort (AssertFailed c)
                 /\ (line_wf l2 = true -> c = "p->size() == 1"%string))
      /\ forall post, exists c,
           readPathsFromFile (pre ++ l1 :: mid ++ l2 :: post) ∅
             = Abort (AssertFailed c)).
Proof.
  split.
  - intros m l m' Hdir H. apply readPathLine_Ok in H. simpl in H.
    rewrite Hdir in H. exact H.
  - intros pre l1 mid l2 m Hid Hne Hdir H. unfold readPathsFromFile in *.
    pose proof H as H0.
    apply readPathLines_app in H. destruct H as (m1 & Hpre & H).
    simpl in H. inv_bind H. rename u into m2.
    destruct (readPathLine_extends _ _ _ Hu Hne) as (p & Hp & Hlen).
    destruct (readPathLines_grows _ _ _ _ _ H Hp) as (p' & Hp' & Hle).
    rewrite Hid in Hp'.
    destruct (readPathLine_forward_long m l2 p' Hdir Hp' ltac:(lia))
      as (c & Hc & Hwf).
    split; [exists c; auto|].
    intros post. exists c.
    replace (pre ++ l1 :: mid ++ l2 :: post)
      with ((pre ++ l1 :: mid) ++ l2 :: post)
      by (rewrite <- app_assoc; reflexivity).
    clear - H0 Hc. revert H0. generalize (pre ++ l1 :: mid).
    generalize (∅ : gmap N (list MergeNode)).
    intros m0 ls. revert m0. induction ls as [|x ls IH]; intros m0 H0; simpl in *.
    + injection H0 as ->. rewrite Hc. reflexivity.
    + inv_bind H0. rewrite Hu. simpl. apply IH. exact H0.
Qed.

Lemma forward_record_needs_singleton_witness :
  exists c, readPathsFromFile ([] ++ rec_7_minus :: [] ++ rec_7_plus :: []) ∅
    = Abort (AssertFailed c).
Proof.
  destruct forward_record_needs_singleton as [_ H].
  destruct (H [] rec_7_minus [] rec_7_plus
    store_7_minus
    eq_refl ltac:(discriminate) eq_refl ltac:(vm_compute; reflexivity))
    as [_ Hfile].
  exact (Hfile []).
Defined.

(** ** The pairwise check *)

Lemma at_index_Ok {A} (v : list A) i x :
  at_index v i = Ok x <-> nth_error v i = Some x.
Proof.
  unfold at_index. destruct (nth_error v i); split; intros H;
    try discriminate; [injection H as -> | injection H as ->]; reflexivity.
Qed.

Lemma at_index_lt {A} (v : list A) i :
  i < length v -> exists x, at_index v i = Ok x /\ nth_error v i = Some x.
Proof.
  intros H. unfold at_index.
  destruct (nth_error v i) as [x|] eqn:E; [eauto|].
  apply nth_error_None in E. lia.
Qed.

Lemma forEach_inv {A S} (body : S -> A -> result S)
    (I : S -> Prop) (P : A -> Prop) :
  (forall s x, I s -> P x -> exists s', body s x = Ok s' /\ I s') ->
  forall l s, I s -> Forall P l ->
  exists s', forEach body s l = Ok s' /\ I s'.
Proof.
  intros Hbody. induction l as [|x l IH]; intros s Hs Hl; simpl.
  - eauto.
  - inversion Hl; subst.
    destruct (Hbody s x Hs) as (s1 & -> & Hs1); [assumption|]. simpl.
    apply IH; assumption.
Qed.

Lemma length_reverseComplementPath p :
  length (reverseComplementPath p) = length p.
Proof. unfold reverseComplementPath. now rewrite length_rev, length_map. Qed.

Lemma flipNode_involutive n : flipNode (flipNode n) = n.
Proof. destruct n as [k b]. unfold flipNode. simpl. now rewrite negb_involutive. Qed.

Lemma reverseComplementPath_involutive p :
  reverseComplementPath (reverseComplementPath p) = p.
Proof.
  unfold reverseComplementPath. rewrite map_rev, rev_involutive, map_map.
  induction p as [|n p IH]; simpl; [reflexivity|].
  now rewrite flipNode_involutive, IH.
Qed.

Lemma length_orient f p : length (orient f p) = length p.
Proof. destruct f; simpl; [apply length_reverseComplementPath | reflexivity]. Qed.

Lemma reverseComplementPath_orient f p :
  reverseComplementPath (orient f p) = orient (negb f) p.
Proof. destruct f; simpl; [apply reverseComplementPath_involutive | reflexivity]. Qed.

(** [extractMinCoordSet] returns, and every index it returns is valid. *)
Lemma extractMinCoordSet_spec anchor path :
  exists coords,
    extractMinCoordSet anchor path [] = Ok (negb (Nat.eqb (length coords) 0), coords)
    /\ Forall (fun i => i < length path) coords.
Proof.
  unfold extractMinCoordSet.
  destruct (forEach_inv
    (fun coords idx =>
       n ← at_index path (length path - idx - 1);
       Ok (if N.eqb (id n) anchor
           then coords ++ [length path - idx - 1] else coords))
    (Forall (fun i => i < length path)) (fun idx => idx < length path))
    with (l := List.seq 0 (length path)) (s := @nil nat) as (coords & -> & Hc).
  - intros cs idx Hcs Hidx.
    destruct (at_index_lt path (length path - idx - 1)) as (n & -> & _); [lia|].
    simpl. eexists; split; [reflexivity|].
    destruct (N.eqb (id n) anchor); [|assumption].
    apply Forall_app; split; [assumption|]. constructor; [lia|constructor].
  - constructor.
  - apply List.Forall_forall. intros i Hi. apply in_seq in Hi. lia.
  - exists coords. split; [|assumption]. simpl. destruct coords; reflexivity.
Qed.

Lemma sameIdAt_at p1 p2 i j n1 n2 :
  nth_error p1 i = Some n1 -> nth_error p2 j = Some n2 ->
  N.eqb (id n1) (id n2) = true -> sameIdAt p1 p2 i j.
Proof. intros H1 H2 E. exists n1, n2. apply N.eqb_eq in E. auto. Qed.

(** The left extension returns; it moves both indices by the same amount,
    and when it reports a valid extension it stopped on a boundary with
    every id matched on the way. *)
Lemma lowLoop_spec p1 p2 : forall s1 s2,
  s1 < length p1 -> s2 < length p2 ->
  exists v s1' s2',
    lowLoop p1 p2 s1 s2 = Ok (v, s1', s2')
    /\ s1' <= s1 /\ s2' <= s2 /\ s1 - s1' = s2 - s2'
    /\ (v = true ->
        (s1' = 0 \/ s2' = 0)
        /\ forall d, d <= s1 - s1' -> sameIdAt p1 p2 (s1' + d) (s2' + d)).
Proof.
  induction s1 as [|s1 IH]; intros s2 H1 H2.
  - simpl.
    destruct (at_index_lt p1 0 H1) as (n1 & -> & Hn1).
    destruct (at_index_lt p2 s2 H2) as (n2 & -> & Hn2). simpl.
    destruct (N.eqb (id n1) (id n2)) eqn:E; simpl.
    + exists true, 0, s2. do 4 (split; [reflexivity || lia|]).
      intros _. split; [auto|].
      intros d Hd. assert (d = 0) as -> by lia.
      rewrite !Nat.add_0_r. eapply sameIdAt_at; eauto.
    + exists false, 0, s2. do 4 (split; [reflexivity || lia|]). discriminate.
  - cbn [lowLoop].
    destruct (at_index_lt p1 (S s1) H1) as (n1 & -> & Hn1).
    destruct (at_index_lt p2 s2 H2) as (n2 & -> & Hn2). simpl.
    destruct (N.eqb (id n1) (id n2)) eqn:E; simpl.
    + destruct s2 as [|s2].
      * exists true, (S s1), 0. do 4 (split; [reflexivity || lia|]).
        intros _. split; [auto|].
        intros d Hd. assert (d = 0) as -> by lia.
        rewrite !Nat.add_0_r. eapply sameIdAt_at; eauto.
      * destruct (IH s2) as (v & s1' & s2' & -> & Hle1 & Hle2 & Hd & Hv);
          [lia | lia |].
        exists v, s1', s2'. do 4 (split; [reflexivity || lia|]).
        intros ->. destruct (Hv eq_refl) as [Hb Hm]. split; [assumption|].
        intros d Hdle. destruct (Nat.eq_dec d (S s1 - s1')) as [->|Hne].
        -- replace (s1' + (S s1 - s1')) with (S s1) by lia.
           replace (s2' + (S s1 - s1')) with (S s2) by lia.
           eapply sameIdAt_at; eauto.
        -- apply Hm. lia.
    + exists false, (S s1), s2. do 4 (split; [reflexivity || lia|]).
      discriminate.
Qed.

(** The right extension returns as well, with the mirrored guarantees. *)
Lemma highLoop_spec p1 p2 max1 max2 : forall fuel e1 e2,
  max1 < length p1 -> max2 < length p2 ->
  e1 <= max1 -> e2 <= max2 -> max1 - e1 <= fuel ->
  exists v e1' e2',
    highLoop p1 p2 max1 max2 fuel e1 e2 = Ok (v, e1', e2')
    /\ e1 <= e1' <= max1 /\ e2 <= e2' <= max2 /\ e1' - e1 = e2' - e2
    /\ (v = true ->
        (e1' = max1 \/ e2' = max2)
        /\ forall d, d <= e1' - e1 -> sameIdAt p1 p2 (e1 + d) (e2 + d)).
Proof.
  assert (Hstop : forall e1 e2 n1 n2,
    nth_error p1 e1 = Some n1 -> nth_error p2 e2 = Some n2 ->
    N.eqb (id n1) (id n2) = true -> e1 <= max1 -> e2 <= max2 ->
    e1 = max1 \/ e2 = max2 ->
    exists v e1' e2',
      Ok (true, e1, e2) = Ok (v, e1', e2')
      /\ e1 <= e1' <= max1 /\ e2 <= e2' <= max2 /\ e1' - e1 = e2' - e2
      /\ (v = true ->
          (e1' = max1 \/ e2' = max2)
          /\ forall d, d <= e1' - e1 -> sameIdAt p1 p2 (e1 + d) (e2 + d))).
  { intros e1 e2 n1 n2 Hn1 Hn2 E H1 H2 Hb.
    exists true, e1, e2. do 4 (split; [reflexivity || lia|]).
    intros _. split; [assumption|].
    intros d Hd. assert (d = 0) as -> by lia.
    rewrite !Nat.add_0_r. eapply sameIdAt_at; eauto. }
  induction fuel as [|fuel IH]; intros e1 e2 Hm1 Hm2 H1 H2 Hfuel;
    cbn [highLoop];
    destruct (at_index_lt p1 e1 ltac:(lia)) as (n1 & -> & Hn1);
    destruct (at_index_lt p2 e2 ltac:(lia)) as (n2 & -> & Hn2); simpl;
    (destruct (N.eqb (id n1) (id n2)) eqn:E; simpl;
     [| exists false, e1, e2; do 4 (split; [reflexivity || lia|]);
        discriminate]);
    destruct (Nat.eqb_spec e1 max1) as [He1|He1];
    destruct (Nat.eqb_spec e2 max2) as [He2|He2]; simpl;
    try (eapply Hstop; eauto; fail).
  - lia.
  - destruct (IH (S e1) (S e2)) as (v & e1' & e2' & -> & Hb1 & Hb2 & Hd & Hv);
      try lia.
    exists v, e1', e2'. do 4 (split; [reflexivity || lia|]).
    intros ->. destruct (Hv eq_refl) as [Hb Hm]. split; [assumption|].
    intros d Hdle. destruct d as [|d].
    + rewrite !Nat.add_0_r. eapply sameIdAt_at; eauto.
    + replace (e1 + S d) with (S e1 + d) by lia.
      replace (e2 + S d) with (S e2 + d) by lia.
      apply Hm. lia.
Qed.

Lemma recordAlignment_Recorded path1 path2 count a m :
  map_Forall (Recorded path1 path2) m -> Recorded path1 path2 count a ->
  map_Forall (Recorded path1 path2) (recordAlignment count a m).
Proof.
  intros Hm Ha. unfold recordAlignment.
  destruct (m !! count) as [old|] eqn:E.
  - apply map_Forall_insert_2; [|assumption].
    apply Hm in E. exact E.
  - apply map_Forall_insert_2; assumption.
Qed.

(** One seed pair: the body of the double loop returns and keeps the
    invariant, whatever valid pair of indices it starts from. *)
Lemma seedPair_inv path1 path2 st c1 c2 :
  c1 < length path1 -> c2 < length path2 -> ScanInv path1 path2 st ->
  exists st',
    seedPair path1 (length path1 - 1) (length path2 - 1) st c1 c2 = Ok st'
    /\ ScanInv path1 path2 st'.
Proof.
  intros Hc1 Hc2 [Hp2 Hall]. unfold seedPair.
  set (max1 := length path1 - 1). set (max2 := length path2 - 1).
  set (s2 := if sc_flipped st then max2 - c2 else c2).
  assert (Hs2 : s2 < length path2) by (subst s2 max2; destruct (sc_flipped st); lia).
  destruct (at_index_lt path1 c1 Hc1) as (n1 & -> & Hn1).
  destruct (at_index_lt (sc_path2 st) s2) as (n2 & -> & Hn2).
  { rewrite Hp2, length_orient. exact Hs2. }
  simpl.
  set (flip := negb (Bool.eqb (isRC n1) (isRC n2))).
  set (f' := if flip then negb (sc_flipped st) else sc_flipped st).
  set (s2' := if flip then max2 - s2 else s2).
  assert (Hs2' : s2' < length path2) by (subst s2' max2; destruct flip; lia).
  assert (Hsel :
    (if flip
     then (reverseComplementPath (sc_path2 st), negb (sc_flipped st),
           max2 - s2, max2 - s2)
     else (sc_path2 st, sc_flipped st, s2, s2))
    = (orient f' path2, f', s2', s2')).
  { subst f' s2'. destruct flip; rewrite Hp2;
      [rewrite reverseComplementPath_orient|]; reflexivity. }
  rewrite Hsel. clear Hsel.
  destruct (lowLoop_spec path1 (orient f' path2) c1 s2')
    as (lv & a1 & a2 & -> & Hla1 & Hla2 & Hld & Hlv);
    [assumption | now rewrite length_orient |].
  simpl.
  destruct (highLoop_spec path1 (orient f' path2) max1 max2
              (length path1 - c1) c1 s2')
    as (hv & b1 & b2 & -> & Hhb1 & Hhb2 & Hhd & Hhv);
    try (subst max1 max2; rewrite ?length_orient; lia).
  simpl.
  destruct (lv && hv) eqn:Hv; simpl.
  - apply andb_true_iff in Hv. destruct Hv as [-> ->].
    destruct (Hlv eq_refl) as [Hlb Hlm]. destruct (Hhv eq_refl) as [Hhb Hhm].
    replace (Nat.eqb (b2 - a2) (b1 - a1)) with true
      by (symmetry; apply Nat.eqb_eq; lia).
    simpl. eexists. split; [reflexivity|].
    split; [reflexivity|]. simpl.
    apply recordAlignment_Recorded; [assumption|].
    unfold Recorded; simpl. fold max1 max2.
    repeat (split; [lia || assumption|]).
    intros c Hc. destruct (Nat.le_gt_cases c (c1 - a1)) as [Hle|Hgt].
    + apply Hlm. exact Hle.
    + replace (a1 + c) with (c1 + (c - (c1 - a1))) by lia.
      replace (a2 + c) with (s2' + (c - (c1 - a1))) by lia.
      apply Hhm. lia.
  - eexists. split; [reflexivity|]. split; [reflexivity|]. exact Hall.
Qed.

Lemma alignSeeds_inv path1 path2 coords1 coords2 st :
  Forall (fun i => i < length path1) coords1 ->
  Forall (fun i => i < length path2) coords2 ->
  ScanInv path1 path2 st ->
  exists st',
    alignSeeds path1 (length path1 - 1) (length path2 - 1) coords1 coords2 st
      = Ok st'
    /\ ScanInv path1 path2 st'.
Proof.
  intros H1 H2 Hst. unfold alignSeeds.
  apply forEach_inv with (P := fun i => i < length path1); try assumption.
  intros s c1 Hs Hc1.
  apply forEach_inv with (P := fun i => i < length path2); try assumption.
  intros s' c2 Hs' Hc2. apply seedPair_inv; assumption.
Qed.

(** The scan always returns, and its final state satisfies the invariant. *)
Lemma scanPaths_spec path2Root path1 path2 range :
  exists o,
    scanPaths path2Root path1 path2 range = Ok o
    /\ forall st, o = Some st -> ScanInv path1 path2 st.
Proof.
  unfold scanPaths.
  destruct (extractMinCoordSet_spec path2Root path1) as (coords1 & -> & H1).
  destruct (extractMinCoordSet_spec path2Root path2) as (coords2 & -> & H2).
  simpl.
  destruct (negb (negb (Nat.eqb (length coords1) 0))
            || negb (negb (Nat.eqb (length coords2) 0))).
  - exists None. split; [reflexivity | discriminate].
  - destruct (alignSeeds_inv path1 path2 coords1 coords2
                {| sc_path2 := path2; sc_flipped := false; sc_range := range;
                   sc_alignments := ∅ |} H1 H2) as (st & -> & Hst).
    + split; [reflexivity | apply map_Forall_empty].
    + simpl. exists (Some st). split; [reflexivity|].
      intros st' [= <-]. exact Hst.
Qed.

Lemma biggest_None (m : gmap nat PathConsistencyStats) :
  biggest m = None <-> m = ∅.
Proof.
  unfold biggest. split.
  - intros H. apply fmap_None in H.
    apply map_to_list_empty_iff.
    destruct (decide (map_to_list m = [])) as [E|E]; [exact E|].
    exfalso.
    assert (Hne : map fst (map_to_list m) <> [])
      by (destruct (map_to_list m); [congruence | discriminate]).
    apply max_list_elem_of in Hne.
    apply list_elem_of_fmap in Hne. destruct Hne as ([k' a'] & Hk & Hin).
    apply elem_of_map_to_list in Hin. simpl in Hk.
    rewrite Hk, Hin in H. discriminate.
  - intros ->. rewrite map_to_list_empty. reflexivity.
Qed.

Lemma biggest_Some (m : gmap nat PathConsistencyStats) count a :
  biggest m = Some (count, a) ->
  m !! count = Some a /\ forall k b, m !! k = Some b -> k <= count.
Proof.
  unfold biggest. intros H. apply fmap_Some in H.
  destruct H as (a' & Ha & [= Hc <-]).
  split; [rewrite Hc; exact Ha|].
  intros k b Hk. rewrite Hc. apply max_list_elem_of_le.
  apply list_elem_of_fmap. exists (k, b). split; [reflexivity|].
  apply elem_of_map_to_list. exact Hk.
Qed.

Lemma interiorCheck_true p1 p2 s1 s2 cs :
  (forall c, In c cs -> sameIdAt p1 p2 (s1 + c) (s2 + c)) ->
  interiorCheck p1 p2 s1 s2 cs = Ok true.
Proof.
  induction cs as [|c cs IH]; intros H; simpl; [reflexivity|].
  destruct (H c (or_introl eq_refl)) as (n1 & n2 & Hn1 & Hn2 & E).
  apply at_index_Ok in Hn1, Hn2. rewrite Hn1, Hn2. simpl.
  rewrite E, N.eqb_refl. simpl. apply IH. intros c' Hc'. apply H. now right.
Qed.

(** The resolve step under the invariant: no assertion fails, the only
    rejection is the duplicate rule, and the closing loop finds no
    mismatch. *)
Lemma resolve_spec path1 path2 st :
  ScanInv path1 path2 st ->
  let max1 := length path1 - 1 in
  let max2 := length path2 - 1 in
  match biggest (sc_alignments st) with
  | None =>
      resolve path1 max1 max2 st = Ok (false, sc_path2 st, sc_range st)
  | Some (count, b) =>
      Recorded path1 path2 count b
      /\ resolve path1 max1 max2 st =
         if duplicateSize b && negb (Nat.eqb count (Nat.min max1 max2))
         then Ok (false, sc_path2 st, sc_range st)
         else Ok (true, orient (flipped b) path2,
                  (startP1 b, endP1 b, startP2 b, endP2 b))
  end.
Proof.
  intros [Hp2 Hall] max1 max2. unfold resolve.
  destruct (biggest (sc_alignments st)) as [[count b]|] eqn:Hb; [|reflexivity].
  apply biggest_Some in Hb. destruct Hb as [Hb _].
  pose proof (Hall _ _ Hb) as Hrec. split; [exact Hrec|].
  destruct Hrec as (Hs1 & He1 & Hs2 & He2 & Hc1 & Hc2 & Hlow & Hhigh & Hids).
  replace (Nat.eqb (startP1 b) 0 || Nat.eqb (startP2 b) 0) with true
    by (symmetry; apply orb_true_iff; rewrite !Nat.eqb_eq; exact Hlow).
  replace (Nat.eqb (endP1 b) max1 || Nat.eqb (endP2 b) max2) with true
    by (symmetry; apply orb_true_iff; rewrite !Nat.eqb_eq; exact Hhigh).
  simpl.
  destruct (duplicateSize b && negb (Nat.eqb count (Nat.min max1 max2)));
    [reflexivity|].
  assert (Hor :
    (if negb (Bool.eqb (flipped b) (sc_flipped st))
     then reverseComplementPath (sc_path2 st) else sc_path2 st)
    = orient (flipped b) path2).
  { rewrite Hp2. destruct (flipped b), (sc_flipped st); simpl;
      try reflexivity. apply reverseComplementPath_involutive. }
  rewrite Hor, interiorCheck_true; [reflexivity|].
  intros c Hc. apply in_seq in Hc. apply Hids. lia.
Qed.

(** [checkPathConsistency] as a whole: past the entry assertion it returns,
    and what it returns is read off the scan. *)
Lemma checkPathConsistency_spec path1Root path2Root path1 path2 range :
  entryAssertion path1 path2 = true ->
  exists o,
    scanPaths path2Root path1 path2 range = Ok o
    /\ match o with
       | None =>
           checkPathConsistency path1Root path2Root path1 path2 range
             = Ok (false, path2, range)
       | Some st =>
           ScanInv path1 path2 st
           /\ checkPathConsistency path1Root path2Root path1 path2 range
              = resolve path1 (length path1 - 1) (length path2 - 1) st
       end.
Proof.
  intros Hentry. unfold checkPathConsistency. rewrite Hentry. simpl.
  destruct (scanPaths_spec path2Root path1 path2 range) as (o & Hscan & Hinv).
  exists o. split; [exact Hscan|]. rewrite Hscan. simpl.
  destruct o as [st|]; [|reflexivity].
  split; [apply Hinv|]; reflexivity.
Qed.

(** C3: ambiguous overlaps.  For every pair of paths, when the scan has
    recorded the winning length [count] more than once ([duplicateSize] set
    on the largest entry) and [count < min(|A|-1, |B|-1)], the check returns
    false.  [count] never exceeds that minimum, and a duplicate of length
    equal to it is not rejected: the pair is accepted (provided the call got
    past its entry assertion). *)
Theorem ambiguous_overlap_rejected path1Root path2Root path1 path2 range
    st count b :
  scanPaths path2Root path1 path2 range = Ok (Some st) ->
  biggest (sc_alignments st) = Some (count, b) ->
  duplicateSize b = true ->
  count <= Nat.min (length path1 - 1) (length path2 - 1)
  /\ (count < Nat.min (length path1 - 1) (length path2 - 1) ->
      checkPathConsistency path1Root path2Root path1 path2 range
        = Ok (false, sc_path2 st, sc_range st))
  /\ (count = Nat.min (length path1 - 1) (length path2 - 1) ->
      entryAssertion path1 path2 = true ->
      checkPathConsistency path1Root path2Root path1 path2 range
        = Ok (true, orient (flipped b) path2,
              (startP1 b, endP1 b, startP2 b, endP2 b))).
Proof.
  intros Hscan Hbig Hdup.
  assert (Hrun : entryAssertion path1 path2 = true ->
    checkPathConsistency path1Root path2Root path1 path2 range
    = if negb (Nat.eqb count (Nat.min (length path1 - 1) (length path2 - 1)))
      then Ok (false, sc_path2 st, sc_range st)
      else Ok (true, orient (flipped b) path2,
               (startP1 b, endP1 b, startP2 b, endP2 b))).
  { intros Hentry.
    destruct (checkPathConsistency_spec path1Root path2Root path1 path2 range
                Hentry) as (o & Hscan' & Hcheck).
    rewrite Hscan in Hscan'. injection Hscan' as <-.
    destruct Hcheck as [Hinv ->].
    pose proof (resolve_spec path1 path2 st Hinv) as Hres. simpl in Hres.
    rewrite Hbig in Hres. destruct Hres as [_ ->]. rewrite Hdup. reflexivity. }
  assert (Hle : count <= Nat.min (length path1 - 1) (length path2 - 1)).
  { destruct (scanPaths_spec path2Root path1 path2 range) as (o & Ho & Hinv).
    rewrite Hscan in Ho. injection Ho as <-.
    destruct (Hinv st eq_refl) as [_ Hall].
    apply biggest_Some in Hbig. destruct Hbig as [Hb _]. apply Hall in Hb.
    destruct Hb as (Hs1 & He1 & Hs2 & He2 & Hc1 & Hc2 & _). lia. }
  split; [exact Hle|]. split.
  - intros Hc. rewrite Hrun.
    + destruct (Nat.eqb_spec count (Nat.min (length path1 - 1) (length path2 - 1)));
        [lia | reflexivity].
    + unfold entryAssertion.
      destruct (length path1) as [|[|n1]], (length path2) as [|[|n2]];
        simpl in *; try lia; reflexivity.
  - intros Hc Hentry. rewrite (Hrun Hentry), <- Hc, Nat.eqb_refl. reflexivity.
Qed.

Lemma ambiguous_overlap_rejected_witness :
  checkPathConsistency 1 1 pathA_dup pathB_dup (0, 0, 0, 0)
    = Ok (false, pathB_dup, (0, 1, 0, 1))
  /\ checkPathConsistency 1 1 pathA_rep pathB_rep (0, 0, 0, 0)
    = Ok (true, pathB_rep, (2, 4, 0, 2)).
Proof.
  split.
  - refine (proj1 (proj2 (ambiguous_overlap_rejected 1 1 pathA_dup pathB_dup
      (0, 0, 0, 0) scan_dup 0 (stats 2 2 0 0 false true) _ _ _)) _);
      solve [vm_compute; reflexivity | vm_compute; lia].
  - refine (proj2 (proj2 (ambiguous_overlap_rejected 1 1 pathA_rep pathB_rep
      (0, 0, 0, 0) scan_rep 2 (stats 2 4 0 2 false true) _ _ _)) _ _);
      solve [vm_compute; reflexivity].
Defined.

(** C4: boundary touch.  Every alignment that the scan records, hence the
    winning one, starts at index 0 of one of the paths and ends at the last
    index of one of them; consequently the only assertion of
    [checkPathConsistency] that can fail is the one on entry, and past it
    the call returns. *)
Theorem boundary_touch path1Root path2Root path1 path2 range :
  (forall st count a,
      scanPaths path2Root path1 path2 range = Ok (Some st) ->
      sc_alignments st !! count = Some a ->
      (startP1 a = 0 \/ startP2 a = 0)
      /\ (endP1 a = length path1 - 1 \/ endP2 a = length path2 - 1))
  /\ (forall st count b,
      scanPaths path2Root path1 path2 range = Ok (Some st) ->
      biggest (sc_alignments st) = Some (count, b) ->
      (startP1 b = 0 \/ startP2 b = 0)
      /\ (endP1 b = length path1 - 1 \/ endP2 b = length path2 - 1))
  /\ (forall f,
      checkPathConsistency path1Root path2Root path1 path2 range = Abort f ->
      f = AssertFailed "path1.size() != 0 && path2.size() != 1")
  /\ (entryAssertion path1 path2 = true ->
      exists r,
        checkPathConsistency path1Root path2Root path1 path2 range = Ok r).
Proof.
  destruct (scanPaths_spec path2Root path1 path2 range) as (o & Hscan & Hinv).
  assert (Hall : forall st count a,
    scanPaths path2Root path1 path2 range = Ok (Some st) ->
    sc_alignments st !! count = Some a ->
    (startP1 a = 0 \/ startP2 a = 0)
    /\ (endP1 a = length path1 - 1 \/ endP2 a = length path2 - 1)).
  { intros st count a Hst Ha. rewrite Hscan in Hst. injection Hst as ->.
    destruct (Hinv st eq_refl) as [_ Hrec]. apply Hrec in Ha.
    destruct Ha as (_ & _ & _ & _ & _ & _ & Hlow & Hhigh & _). auto. }
  assert (Hret : entryAssertion path1 path2 = true ->
    exists r,
      checkPathConsistency path1Root path2Root path1 path2 range = Ok r).
  { intros Hentry.
    destruct (checkPathConsistency_spec path1Root path2Root path1 path2 range
                Hentry) as (o' & _ & Hcheck).
    destruct o' as [st|]; [|eauto]. destruct Hcheck as [Hst ->].
    pose proof (resolve_spec path1 path2 st Hst) as Hres. simpl in Hres.
    destruct (biggest (sc_alignments st)) as [[count b]|]; [|eauto].
    destruct Hres as [_ ->].
    destruct (duplicateSize b && _); eauto. }
  split; [exact Hall|]. split; [|split; [|exact Hret]].
  - intros st count b Hst Hb. apply biggest_Some in Hb.
    destruct Hb as [Hb _]. eapply Hall; eassumption.
  - intros f Hf. destruct (entryAssertion path1 path2) eqn:Hentry.
    + destruct (Hret eq_refl) as [r Hr]. congruence.
    + unfold checkPathConsistency in Hf.
      rewrite Hentry in Hf. simpl in Hf. congruence.
Qed.

Lemma boundary_touch_witness :
  ((startP1 (stats 2 4 0 2 false true) = 0
    \/ startP2 (stats 2 4 0 2 false true) = 0)
   /\ (endP1 (stats 2 4 0 2 false true) = length pathA_rep - 1
       \/ endP2 (stats 2 4 0 2 false true) = length pathB_rep - 1))
  /\ exists r, checkPathConsistency 1 1 pathA_rep pathB_rep (0, 0, 0, 0) = Ok r.
Proof.
  destruct (boundary_touch 1 1 pathA_rep pathB_rep (0, 0, 0, 0))
    as (Hall & _ & _ & Hret).
  split.
  - apply (Hall scan_rep 2); vm_compute; reflexivity.
  - apply Hret. vm_compute. reflexivity.
Defined.

(** The closing loop over the offsets [cs], all of them inside the two
    paths: it returns true when the ids agree at every offset, and false
    when they differ at some offset. *)
Lemma interiorCheck_spec p1 p2 s1 s2 cs :
  (forall c, In c cs -> s1 + c < length p1 /\ s2 + c < length p2) ->
  (interiorCheck p1 p2 s1 s2 cs = Ok true
   <-> forall c, In c cs -> sameIdAt p1 p2 (s1 + c) (s2 + c))
  /\ (interiorCheck p1 p2 s1 s2 cs = Ok false
      <-> exists c n1 n2,
            In c cs /\ nth_error p1 (s1 + c) = Some n1
            /\ nth_error p2 (s2 + c) = Some n2 /\ id n1 <> id n2).
Proof.
  induction cs as [|c cs IH]; intros Hin.
  - simpl. split; split; try discriminate; try contradiction; auto.
    intros (c & n1 & n2 & [] & _).
  - destruct (Hin c (or_introl eq_refl)) as [H1 H2].
    destruct (at_index_lt p1 _ H1) as (n1 & Ha1 & Hn1).
    destruct (at_index_lt p2 _ H2) as (n2 & Ha2 & Hn2).
    specialize (IH (fun c' Hc' => Hin c' (or_intror Hc'))).
    destruct IH as [IHt IHf].
    cbn [interiorCheck]. rewrite Ha1, Ha2. cbn [mbind result_bind].
    destruct (N.eqb_spec (id n1) (id n2)) as [E|E]; simpl.
    + split.
      * rewrite IHt. split.
        -- intros Hall c' [<-|Hc']; [exists n1, n2; auto | now apply Hall].
        -- intros Hall c' Hc'. apply Hall. now right.
      * rewrite IHf. split.
        -- intros (c' & m1 & m2 & Hc' & Hm). exists c', m1, m2.
           split; [now right | exact Hm].
        -- intros (c' & m1 & m2 & [<-|Hc'] & Hm1 & Hm2 & Hne).
           ++ congruence.
           ++ exists c', m1, m2. auto.
    + split.
      * split; [discriminate|]. intros Hall.
        destruct (Hall c (or_introl eq_refl)) as (m1 & m2 & Hm1 & Hm2 & E').
        congruence.
      * split; [|reflexivity]. intros _. exists c, n1, n2.
        split; [now left | auto].
Qed.

(** Past the duplicate rule, what the call returns is the verdict of the
    closing loop on the winning range. *)
Lemma resolve_verdict path1 path2 st count b :
  ScanInv path1 path2 st ->
  biggest (sc_alignments st) = Some (count, b) ->
  duplicateSize b
    && negb (Nat.eqb count (Nat.min (length path1 - 1) (length path2 - 1)))
  = false ->
  resolve path1 (length path1 - 1) (length path2 - 1) st
  = ok ← interiorCheck path1 (orient (flipped b) path2) (startP1 b)
           (startP2 b) (List.seq 0 count);
    Ok (ok, orient (flipped b) path2,
        (startP1 b, endP1 b, startP2 b, endP2 b)).
Proof.
  intros [Hp2 Hall] Hb Hdup. unfold resolve. rewrite Hb.
  apply biggest_Some in Hb. destruct Hb as [Hb _].
  pose proof (Hall _ _ Hb) as Hrec.
  destruct Hrec as (Hs1 & He1 & Hs2 & He2 & Hc1 & Hc2 & Hlow & Hhigh & Hids).
  replace (Nat.eqb (startP1 b) 0 || Nat.eqb (startP2 b) 0) with true
    by (symmetry; apply orb_true_iff; rewrite !Nat.eqb_eq; exact Hlow).
  replace (Nat.eqb (endP1 b) (length path1 - 1)
           || Nat.eqb (endP2 b) (length path2 - 1)) with true
    by (symmetry; apply orb_true_iff; rewrite !Nat.eqb_eq; exact Hhigh).
  simpl. rewrite Hdup.
  assert (Hor :
    (if negb (Bool.eqb (flipped b) (sc_flipped st))
     then reverseComplementPath (sc_path2 st) else sc_path2 st)
    = orient (flipped b) path2).
  { rewrite Hp2. destruct (flipped b), (sc_flipped st); simpl;
      try reflexivity. apply reverseComplementPath_involutive. }
  rewrite Hor. reflexivity.
Qed.

(** C6: interior re-check.  When [checkPathConsistency] accepts a pair with
    the ranges [[startP1, endP1]] and [[startP2, endP2]], the two ranges
    have the same length and [path1[startP1 + c].id = path2[startP2 + c].id]
    for every offset [c] from 0 to [endP1 - startP1] inclusive, [path2]
    being the path as the call leaves it; whenever some id of the range
    differs, the returned boolean is false.  The closing loop itself
    compares the offsets below [count = endP1 - startP1], the last offset
    having been compared by the right-extension loop: on offsets that lie
    inside both paths it returns true exactly when the ids agree at every
    one of them and false exactly when they differ at one; and once the
    duplicate rule has let the winning range through, what the call returns
    is the verdict of this loop on that range. *)
Theorem interior_recheck path1Root path2Root path1 path2 range :
  (forall path2' s1 e1 s2 e2,
      checkPathConsistency path1Root path2Root path1 path2 range
        = Ok (true, path2', (s1, e1, s2, e2)) ->
      s1 <= e1 /\ e1 - s1 = e2 - s2
      /\ forall c, c <= e1 - s1 -> sameIdAt path1 path2' (s1 + c) (s2 + c))
  /\ (forall ok path2' s1 e1 s2 e2,
      checkPathConsistency path1Root path2Root path1 path2 range
        = Ok (ok, path2', (s1, e1, s2, e2)) ->
      (exists c n1 n2, c <= e1 - s1
         /\ nth_error path1 (s1 + c) = Some n1
         /\ nth_error path2' (s2 + c) = Some n2
         /\ id n1 <> id n2) ->
      ok = false)
  /\ (forall p1 p2 s1 s2 count,
      s1 + count <= length p1 -> s2 + count <= length p2 ->
      (interiorCheck p1 p2 s1 s2 (List.seq 0 count) = Ok true
       <-> forall c, c < count -> sameIdAt p1 p2 (s1 + c) (s2 + c))
      /\ (interiorCheck p1 p2 s1 s2 (List.seq 0 count) = Ok false
          <-> exists c n1 n2,
                c < count /\ nth_error p1 (s1 + c) = Some n1
                /\ nth_error p2 (s2 + c) = Some n2 /\ id n1 <> id n2))
  /\ (forall st count b,
      entryAssertion path1 path2 = true ->
      scanPaths path2Root path1 path2 range = Ok (Some st) ->
      biggest (sc_alignments st) = Some (count, b) ->
      duplicateSize b
        && negb (Nat.eqb count
                   (Nat.min (length path1 - 1) (length path2 - 1)))
      = false ->
      checkPathConsistency path1Root path2Root path1 path2 range
      = ok ← interiorCheck path1 (orient (flipped b) path2) (startP1 b)
               (startP2 b) (List.seq 0 count);
        Ok (ok, orient (flipped b) path2,
            (startP1 b, endP1 b, startP2 b, endP2 b))).
Proof.
  assert (Hfirst :
    (forall path2' s1 e1 s2 e2,
        checkPathConsistency path1Root path2Root path1 path2 range
          = Ok (true, path2', (s1, e1, s2, e2)) ->
        s1 <= e1 /\ e1 - s1 = e2 - s2
        /\ forall c, c <= e1 - s1 -> sameIdAt path1 path2' (s1 + c) (s2 + c))
    /\ (forall ok path2' s1 e1 s2 e2,
        checkPathConsistency path1Root path2Root path1 path2 range
          = Ok (ok, path2', (s1, e1, s2, e2)) ->
        (exists c n1 n2, c <= e1 - s1
           /\ nth_error path1 (s1 + c) = Some n1
           /\ nth_error path2' (s2 + c) = Some n2
           /\ id n1 <> id n2) ->
        ok = false)).
  {
  assert (Hacc : forall path2' s1 e1 s2 e2,
    checkPathConsistency path1Root path2Root path1 path2 range
      = Ok (true, path2', (s1, e1, s2, e2)) ->
    s1 <= e1 /\ e1 - s1 = e2 - s2
    /\ forall c, c <= e1 - s1 -> sameIdAt path1 path2' (s1 + c) (s2 + c)).
  { intros path2' s1 e1 s2 e2 H.
    destruct (entryAssertion path1 path2) eqn:Hentry.
    2:{ unfold checkPathConsistency in H.
        rewrite Hentry in H. discriminate. }
    destruct (checkPathConsistency_spec path1Root path2Root path1 path2 range
                Hentry) as (o & _ & Hcheck).
    destruct o as [st|]; [|congruence]. destruct Hcheck as [Hst Hcheck].
    rewrite Hcheck in H.
    pose proof (resolve_spec path1 path2 st Hst) as Hres. simpl in Hres.
    destruct (biggest (sc_alignments st)) as [[count b]|]; [|congruence].
    destruct Hres as [Hrec Hres]. rewrite Hres in H.
    destruct (duplicateSize b && _); [discriminate|].
    injection H as <- <- <- <- <-.
    destruct Hrec as (Hs1 & He1 & Hs2 & He2 & Hc1 & Hc2 & _ & _ & Hids).
    split; [assumption|]. split; [lia|].
    intros c Hc. apply Hids. lia. }
  split; [exact Hacc|].
  intros ok path2' s1 e1 s2 e2 H (c & n1 & n2 & Hc & Hn1 & Hn2 & Hne).
  destruct ok; [|reflexivity]. exfalso.
  destruct (Hacc _ _ _ _ _ H) as (_ & _ & Hids).
  destruct (Hids c Hc) as (m1 & m2 & Hm1 & Hm2 & E). congruence. }
  destruct Hfirst as [H1 H2].
  split; [exact H1|]. split; [exact H2|]. split.
  - intros p1 p2 s1 s2 count Hb1 Hb2.
    destruct (interiorCheck_spec p1 p2 s1 s2 (List.seq 0 count)) as [Ht Hf].
    { intros c Hc. apply in_seq in Hc. lia. }
    split.
    + rewrite Ht. split; intros H c Hc; apply H.
      * apply in_seq. lia.
      * apply in_seq in Hc. lia.
    + rewrite Hf. split; intros (c & n1 & n2 & Hc & Hn).
      * exists c, n1, n2. apply in_seq in Hc. split; [lia | exact Hn].
      * exists c, n1, n2. split; [apply in_seq; lia | exact Hn].
  - intros st count b Hentry Hscan Hb Hdup.
    destruct (checkPathConsistency_spec path1Root path2Root path1 path2 range
                Hentry) as (o & Hscan' & Hcheck).
    rewrite Hscan in Hscan'. injection Hscan' as <-.
    destruct Hcheck as [Hst ->].
    apply resolve_verdict; assumption.
Qed.

Lemma interior_recheck_witness :
  (sameIdAt pathA_rep pathB_rep (2 + 0) (0 + 0)
   /\ sameIdAt pathA_rep pathB_rep (2 + 1) (0 + 1)
   /\ sameIdAt pathA_rep pathB_rep (2 + 2) (0 + 2))
  /\ interiorCheck pathA_rep pathB_rep 2 0 (List.seq 0 2) = Ok true
  /\ interiorCheck pathA_rep pathB_rep 1 0 (List.seq 0 2) = Ok false
  /\ checkPathConsistency 1 1 pathA_rep pathB_rep (0, 0, 0, 0)
     = ok ← interiorCheck pathA_rep pathB_rep 2 0 (List.seq 0 2);
       Ok (ok, pathB_rep, (2, 4, 0, 2)).
Proof.
  destruct (interior_recheck 1 1 pathA_rep pathB_rep (0, 0, 0, 0))
    as (H & _ & Hloop & Hverdict).
  destruct (H pathB_rep 2 4 0 2 ltac:(vm_compute; reflexivity))
    as (_ & _ & Hids).
  split; [repeat split; apply Hids; simpl; lia|].
  split.
  { destruct (Hloop pathA_rep pathB_rep 2 0 2) as [Ht _];
      [simpl; lia | simpl; lia|].
    apply Ht. intros c Hc. apply Hids. simpl. lia. }
  split.
  { destruct (Hloop pathA_rep pathB_rep 1 0 2) as [_ Hf];
      [simpl; lia | simpl; lia|].
    apply Hf. exists 0, (node 5 false), (node 1 false).
    split; [lia|]. split; [reflexivity|]. split; [reflexivity|].
    discriminate. }
  exact (Hverdict scan_rep 2 (stats 2 4 0 2 false true)
           ltac:(vm_compute; reflexivity) ltac:(vm_compute; reflexivity)
           ltac:(vm_compute; reflexivity) ltac:(vm_compute; reflexivity)).
Defined.

(** C8, as stated, fails: on the paths of scenario S3 the call does not
    return false, it stops on the entry assertion. *)
Lemma scenario_S3_counterexample :
  checkPathConsistency 0 1 pathA_S3 pathB_S3 (0, 0, 0, 0)
    = Abort (AssertFailed "path1.size() != 0 && path2.size() != 1")
  /\ ~ exists path2' range',
        checkPathConsistency 0 1 pathA_S3 pathB_S3 (0, 0, 0, 0)
          = Ok (false, path2', range').
Proof.
  split; [vm_compute; reflexivity|].
  intros (path2' & range' & H). vm_compute in H. discriminate H.
Qed.

(** C8 (amended): scenario S3.  For [A = x y z y w] and the single-element
    path [B = y] the entry assertion [path2.size() != 1] of
    [checkPathConsistency] fails and the call aborts.  The scan of the two
    paths records the two trivial alignments under the single length
    [0 = end - start], first at index 3 of [A], with [duplicateSize] set;
    [min(|A|-1, |B|-1)] is 0 as well, so the duplicate rule does not reject
    them and the resolve step accepts the pair. *)
Theorem scenario_S3 :
  forall range,
    checkPathConsistency 0 1 pathA_S3 pathB_S3 range
      = Abort (AssertFailed "path1.size() != 0 && path2.size() != 1")
    /\ exists st,
        scanPaths 1 pathA_S3 pathB_S3 range = Ok (Some st)
        /\ map_to_list (sc_alignments st) = [(0, stats 3 3 0 0 false true)]
        /\ Nat.min (length pathA_S3 - 1) (length pathB_S3 - 1) = 0
        /\ resolve pathA_S3 (length pathA_S3 - 1) (length pathB_S3 - 1) st
           = Ok (true, pathB_S3, (3, 3, 0, 0)).
Proof.
  intros range. split; [reflexivity|].
  eexists. split; [vm_compute; reflexivity|].
  repeat split; vm_compute; reflexivity.
Qed.

(** ** The splicer *)

Lemma takeZ_firstn s : forall n, (0 <= n)%Z -> takeZ n s = firstn (Z.to_nat n) s.
Proof.
  induction s as [|c s IH]; intros n Hn; simpl.
  - now rewrite firstn_nil.
  - destruct (Z.leb_spec n 0).
    + assert (n = 0%Z) as -> by lia. reflexivity.
    + replace (Z.to_nat n) with (S (Z.to_nat (n - 1))) by lia.
      simpl. rewrite IH by lia. reflexivity.
Qed.

Lemma dropZ_skipn s : forall n, (0 <= n)%Z -> dropZ n s = skipn (Z.to_nat n) s.
Proof.
  induction s as [|c s IH]; intros n Hn; simpl.
  - now rewrite skipn_nil.
  - destruct (Z.leb_spec n 0).
    + assert (n = 0%Z) as -> by lia. reflexivity.
    + replace (Z.to_nat n) with (S (Z.to_nat (n - 1))) by lia.
      simpl. rewrite IH by lia. reflexivity.
Qed.

Lemma Sequence_eqb_eq a : forall b, Sequence_eqb a b = true <-> a = b.
Proof.
  induction a as [|x a IH]; intros [|y b]; simpl; split; intros H;
    try discriminate; try reflexivity.
  - apply andb_true_iff in H. destruct H as [Hx Hab].
    apply Ascii.eqb_eq in Hx. apply IH in Hab. congruence.
  - injection H as -> ->. rewrite Ascii.eqb_refl. simpl. now apply IH.
Qed.

Lemma length_reverseComplement `{Alphabet} s :
  length (reverseComplement s) = length s.
Proof.
  unfold reverseComplement.
  destruct colourSpace; rewrite length_rev, ?length_map; reflexivity.
Qed.

(** One call of [mergeSequences] with the accumulator on the left, for a
    k-mer size [kmer >= 1]: it throws when the accumulator has fewer than
    [kmer - 1] symbols, reports the mismatch of the two windows, and
    otherwise appends what lies beyond the overlap. *)
Lemma mergeSequences_SENSE `{Alphabet} (acc other : list ascii) (r : bool)
    (kmer : Z) :
  (1 <= kmer < SIZE_MAX1)%Z ->
  let ov := Z.to_nat (kmer - 1) in
  let slave := if r then reverseComplement other else other in
  let leftEnd := skipn (length acc - ov) acc in
  let rightBegin := firstn ov slave in
  mergeSequences acc other SENSE r kmer =
    if length acc <? ov then Abort OutOfRange
    else if Sequence_eqb leftEnd rightBegin then Ok (acc ++ skipn ov slave)
    else Abort (OverlapViolation acc other SENSE r leftEnd rightBegin).
Proof.
  intros Hk ov slave leftEnd rightBegin. unfold mergeSequences.
  fold slave. cbn zeta.
  assert (Hov : sub_size_t kmer 1 = Z.of_nat ov).
  { unfold sub_size_t. destruct (Z.leb_spec 1 kmer); subst ov; lia. }
  rewrite Hov. unfold substr, substr_from, sub_size_t.
  destruct (Nat.ltb_spec (length acc) ov) as [Hlt|Hge].
  - destruct (Z.leb_spec (Z.of_nat ov) (Z.of_nat (length acc))); [lia|].
    destruct (Z.ltb_spec (Z.of_nat (length acc))
                (Z.of_nat (length acc) - Z.of_nat ov + SIZE_MAX1));
      [reflexivity|].
    unfold SIZE_MAX1 in *. lia.
  - destruct (Z.leb_spec (Z.of_nat ov) (Z.of_nat (length acc))); [|lia].
    destruct (Z.ltb_spec (Z.of_nat (length acc))
                (Z.of_nat (length acc) - Z.of_nat ov)); [lia|].
    simpl.
    rewrite !dropZ_skipn, !takeZ_firstn by lia.
    replace (Z.to_nat (Z.of_nat (length acc) - Z.of_nat ov))
      with (length acc - ov) by lia.
    rewrite !Nat2Z.id. change (Z.to_nat 0) with 0.
    rewrite (firstn_all2 (skipn (length acc - ov) acc))
      by (rewrite length_skipn; lia).
    destruct (Z.ltb_spec (Z.of_nat (length slave)) 0); [lia|]. simpl.
    change (skipn 0 slave) with slave. fold leftEnd rightBegin.
    destruct (Sequence_eqb leftEnd rightBegin) eqn:E; simpl; [|reflexivity].
    apply Sequence_eqb_eq in E.
    assert (Hlen : ov <= length slave).
    { assert (Hl : length leftEnd = length rightBegin) by now rewrite E.
      subst leftEnd rightBegin.
      rewrite length_skipn, length_firstn in Hl. lia. }
    destruct (Z.ltb_spec (Z.of_nat (length slave)) (Z.of_nat ov)); [lia|].
    reflexivity.
Qed.

Lemma windowMatches_dec ov acc s :
  windowMatches ov acc s <->
  (length acc <? ov) = false
  /\ Sequence_eqb (skipn (length acc - ov) acc) (firstn ov s) = true.
Proof.
  unfold windowMatches. rewrite Nat.ltb_ge, Sequence_eqb_eq. split.
  - intros (Ha & Hs & E). auto.
  - intros (Ha & E). split; [assumption|]. split; [|assumption].
    assert (Hl : length (skipn (length acc - ov) acc) = length (firstn ov s))
      by now rewrite E.
    rewrite length_skipn, length_firstn in Hl. lia.
Qed.

Lemma length_oriented `{Alphabet} n c : length (oriented n c) = length (seq c).
Proof.
  unfold oriented. destruct (isRC n); [apply length_reverseComplement | reflexivity].
Qed.

(** One turn of the loop of [mergePath]. *)
Lemma mergeNode_step `{Alphabet} sourceContigs kmer acc cov mn c :
  (1 <= kmer < SIZE_MAX1)%Z ->
  nth_error sourceContigs (N.to_nat (id mn)) = Some c -> nonEmpty c ->
  let ov := Z.to_nat (kmer - 1) in
  let leftEnd := skipn (length acc - ov) acc in
  let rightBegin := firstn ov (oriented mn c) in
  mergeNode sourceContigs kmer (acc, cov) mn =
    if length acc <? ov then Abort OutOfRange
    else if Sequence_eqb leftEnd rightBegin
         then Ok (acc ++ skipn ov (oriented mn c),
                  add_unsigned cov (coverage c))
         else Abort (OverlapViolation acc (seq c) SENSE (isRC mn)
                       leftEnd rightBegin).
Proof.
  intros Hk Hc Hne ov leftEnd rightBegin. unfold mergeNode.
  apply at_index_Ok in Hc. rewrite Hc. simpl.
  replace (negb (Nat.eqb (length (seq c)) 0)) with true.
  2:{ unfold nonEmpty in Hne. destruct (seq c); [congruence | reflexivity]. }
  simpl. rewrite Z.mod_small by lia.
  rewrite mergeSequences_SENSE by assumption. fold ov.
  unfold oriented in *. fold leftEnd rightBegin.
  destruct (length acc <? ov); [reflexivity|].
  destruct (Sequence_eqb leftEnd rightBegin); reflexivity.
Qed.

Lemma forEach_app {A S} (body : S -> A -> result S) l1 : forall l2 s,
  forEach body s (l1 ++ l2) = forEach body s l1 ≫= fun s' => forEach body s' l2.
Proof.
  induction l1 as [|x l1 IH]; intros l2 s; simpl; [reflexivity|].
  destruct (body s x) as [s'|f]; simpl; [apply IH | reflexivity].
Qed.

(** When every window matches, the loop splices all the sequences and adds
    up the coverages. *)
Lemma splice_tail_Ok `{Alphabet} sourceContigs kmer ns : forall cs acc cov,
  (1 <= kmer < SIZE_MAX1)%Z ->
  Forall2 (fun n c => nth_error sourceContigs (N.to_nat (id n)) = Some c) ns cs ->
  Forall nonEmpty cs ->
  JointOverlap (Z.to_nat (kmer - 1)) acc (orientedSeqs ns cs) ->
  forEach (mergeNode sourceContigs kmer) (acc, cov) ns
    = Ok (spliced (Z.to_nat (kmer - 1)) acc (orientedSeqs ns cs),
          fold_left add_unsigned (map coverage cs) cov).
Proof.
  induction ns as [|n ns IH]; intros cs acc cov Hk Hlk Hne Hjo.
  - inversion Hlk; subst. reflexivity.
  - inversion Hlk as [|? c ? cs' Hc Hrest]; subst.
    inversion Hne as [|? ? Hc1 Hne']; subst.
    simpl in Hjo. destruct Hjo as [Hw Hjo].
    apply windowMatches_dec in Hw. destruct Hw as [Hlt Heq].
    cbn [forEach]. rewrite (mergeNode_step _ _ _ _ _ c) by assumption.
    rewrite Hlt, Heq. simpl. apply IH; assumption.
Qed.

(** Conversely the loop only completes when every window matches. *)
Lemma splice_tail_inv `{Alphabet} sourceContigs kmer ns : forall cs acc cov r,
  (1 <= kmer < SIZE_MAX1)%Z ->
  Forall2 (fun n c => nth_error sourceContigs (N.to_nat (id n)) = Some c) ns cs ->
  Forall nonEmpty cs ->
  forEach (mergeNode sourceContigs kmer) (acc, cov) ns = Ok r ->
  JointOverlap (Z.to_nat (kmer - 1)) acc (orientedSeqs ns cs).
Proof.
  induction ns as [|n ns IH]; intros cs acc cov r Hk Hlk Hne Hrun.
  - inversion Hlk; subst. exact I.
  - inversion Hlk as [|? c ? cs' Hc Hrest]; subst.
    inversion Hne as [|? ? Hc1 Hne']; subst.
    cbn [forEach] in Hrun.
    rewrite (mergeNode_step _ _ _ _ _ c) in Hrun by assumption.
    destruct (length acc <? Z.to_nat (kmer - 1)) eqn:Hlt; [discriminate|].
    destruct (Sequence_eqb _ _) eqn:Heq; [|discriminate].
    simpl in Hrun. simpl. split.
    + apply windowMatches_dec. auto.
    + eapply IH; eassumption.
Qed.

Lemma JointOverlap_app ov ss1 : forall acc ss2,
  JointOverlap ov acc (ss1 ++ ss2) <->
  JointOverlap ov acc ss1 /\ JointOverlap ov (spliced ov acc ss1) ss2.
Proof.
  induction ss1 as [|s ss1 IH]; intros acc ss2; simpl.
  - tauto.
  - rewrite IH. tauto.
Qed.

(** The overlap law on the sequences. *)
Lemma length_spliced ov ss : forall acc,
  JointOverlap ov acc ss ->
  (Z.of_nat (length (spliced ov acc ss))
   = Z.of_nat (length acc)
     + fold_right (fun s a => Z.of_nat (length s) + a) 0 ss
     - Z.of_nat (length ss) * Z.of_nat ov)%Z.
Proof.
  induction ss as [|s ss IH]; intros acc Hjo; simpl.
  - lia.
  - destruct Hjo as [(Ha & Hs & _) Hjo].
    rewrite (IH _ Hjo). rewrite length_app, length_skipn. lia.
Qed.

Lemma fold_add_unsigned cs : forall cov,
  (0 <= cov < UINT_MAX1)%Z ->
  fold_left add_unsigned cs cov
  = ((cov + fold_right Z.add 0 cs) mod UINT_MAX1)%Z.
Proof.
  induction cs as [|c cs IH]; intros cov Hcov; simpl.
  - rewrite Z.add_0_r, Z.mod_small by assumption. reflexivity.
  - rewrite IH by (apply Z.mod_pos_bound; reflexivity).
    unfold add_unsigned. rewrite Zplus_mod_idemp_l.
    f_equal. lia.
Qed.

Lemma pathContigs_cons sourceContigs n0 ns c0 cs :
  pathContigs sourceContigs (n0 :: ns) = Some (c0 :: cs) ->
  nth_error sourceContigs (N.to_nat (id n0)) = Some c0
  /\ Forall2 (fun n c => nth_error sourceContigs (N.to_nat (id n)) = Some c)
       ns cs.
Proof.
  unfold pathContigs. intros H. apply mapM_Some in H.
  inversion H; subst. auto.
Qed.

(** [mergePath] up to its loop, for a path whose first contig is in the
    table and not empty. *)
Lemma mergePath_run `{Alphabet} cID sourceContigs n0 ns c0 count kmer :
  nth_error sourceContigs (N.to_nat (id n0)) = Some c0 -> nonEmpty c0 ->
  mergePath cID sourceContigs (n0 :: ns) count kmer =
    forEach (mergeNode sourceContigs kmer) (oriented n0 c0, coverage c0) ns
    ≫= fun '(merged, cov) =>
         Ok {| fa_id := count; fa_length := length merged;
               fa_coverage := cov; fa_path := n0 :: ns; fa_seq := merged |}.
Proof.
  intros Hc Hne. unfold mergePath. simpl.
  apply at_index_Ok in Hc. rewrite Hc. simpl.
  fold (oriented n0 c0).
  replace (negb (Nat.eqb (length (oriented n0 c0)) 0)) with true.
  2:{ rewrite length_oriented. unfold nonEmpty in Hne.
      destruct (seq c0); [congruence | reflexivity]. }
  reflexivity.
Qed.

Lemma totalLength_oriented `{Alphabet} ns : forall cs,
  length ns = length cs ->
  fold_right (fun s a => (Z.of_nat (length s) + a)%Z) 0%Z (orientedSeqs ns cs)
  = totalLength cs.
Proof.
  induction ns as [|n ns IH]; intros [|c cs] Hlen; simpl in *;
    try discriminate; [reflexivity|].
  rewrite length_oriented, IH by lia. reflexivity.
Qed.

Lemma totalCoverage_nonneg cs :
  Forall coverageInRange cs -> (0 <= totalCoverage cs)%Z.
Proof.
  induction 1 as [|c cs Hc _ IH]; simpl; [lia|].
  unfold coverageInRange in Hc. lia.
Qed.

(** C1, as stated, fails twice.  With [k = 3] the contigs 0 and 1 overlap
    on [CG] and splice into the five symbols [ACGT.] announced, but the
    coverage returned is 0, not the sum [4294967296] of the coverages.  With
    [k = 1] every window of length 0 matches, yet splicing contig 2 with the
    empty contig 3 stops on an assertion instead of returning. *)
Lemma splicer_overlap_law_counterexample :
  (JointOverlap 2 (list_ascii_of_string "ACG") [list_ascii_of_string "CGT"]
   /\ totalCoverage [contig "0" "ACG" 4294967295; contig "1" "CGT" 1]
      = 4294967296%Z
   /\ mergePath (H := nucleotide) 0 sampleContigs
        [node 0 false; node 1 false] 5 3
      = Ok {| fa_id := 5; fa_length := 4; fa_coverage := 0;
              fa_path := [node 0 false; node 1 false];
              fa_seq := list_ascii_of_string "ACGT" |})
  /\ (JointOverlap 0 (list_ascii_of_string "AC") [list_ascii_of_string ""]
      /\ mergePath (H := nucleotide) 2 sampleContigs
           [node 2 false; node 3 false] 5 1
         = Abort (AssertFailed "!contig.seq.empty()")).
Proof.
  repeat split; try (vm_compute; reflexivity); vm_compute; lia.
Qed.

(** C1 (amended): splicer overlap law.  For a k-mer size [1 <= k <= INT_MAX]
    and a path of [n >= 1] nodes naming contigs of the table whose sequences
    are not empty and whose orientation-applied sequences jointly satisfy
    the [(k-1)]-overlap, [mergePath] returns a record whose sequence has
    exactly [(sum of the n sequence lengths) - (n-1)*(k-1)] symbols, with
    this length in its comment, and whose coverage is the sum of the [n]
    coverages modulo [2^32], hence the sum itself when it is below
    [2^32]. *)
Theorem splicer_overlap_law `{Alphabet} cID sourceContigs n0 ns c0 cs count k :
  (1 <= k < INT_MAX1)%Z ->
  pathContigs sourceContigs (n0 :: ns) = Some (c0 :: cs) ->
  Forall nonEmpty (c0 :: cs) ->
  Forall coverageInRange (c0 :: cs) ->
  JointOverlap (Z.to_nat (k - 1)) (oriented n0 c0) (orientedSeqs ns cs) ->
  exists r,
    mergePath cID sourceContigs (n0 :: ns) count k = Ok r
    /\ fa_seq r = spliced (Z.to_nat (k - 1)) (oriented n0 c0) (orientedSeqs ns cs)
    /\ (Z.of_nat (length (fa_seq r))
        = totalLength (c0 :: cs) - (Z.of_nat (length (n0 :: ns)) - 1) * (k - 1))%Z
    /\ fa_length r = length (fa_seq r)
    /\ fa_coverage r = (totalCoverage (c0 :: cs) mod UINT_MAX1)%Z
    /\ ((totalCoverage (c0 :: cs) < UINT_MAX1)%Z ->
        fa_coverage r = totalCoverage (c0 :: cs)).
Proof.
  intros Hk Hpc Hne Hcov Hjo.
  assert (Hk' : (1 <= k < SIZE_MAX1)%Z) by (unfold INT_MAX1, SIZE_MAX1 in *; lia).
  apply pathContigs_cons in Hpc. destruct Hpc as [Hc0 Hcs].
  inversion Hne as [|? ? Hne0 Hnes]; subst.
  inversion Hcov as [|? ? Hcov0 Hcovs]; subst.
  rewrite (mergePath_run _ _ _ _ c0) by assumption.
  rewrite (splice_tail_Ok _ _ _ cs) by assumption. simpl.
  eexists. split; [reflexivity|]. simpl.
  assert (Hsum : fold_left add_unsigned (map coverage cs) (coverage c0)
                 = (totalCoverage (c0 :: cs) mod UINT_MAX1)%Z).
  { rewrite fold_add_unsigned by exact Hcov0. f_equal. simpl. f_equal.
    clear. induction cs as [|c cs IH]; simpl; [reflexivity | now rewrite IH]. }
  split; [reflexivity|]. split; [|split; [reflexivity|split]].
  - rewrite length_spliced by assumption.
    rewrite totalLength_oriented by (eapply Forall2_length; eassumption).
    rewrite length_oriented.
    assert (Hlen : length ns = length (orientedSeqs ns cs)).
    { unfold orientedSeqs. rewrite length_zip_with.
      apply Forall2_length in Hcs. lia. }
    rewrite <- Hlen. rewrite Z2Nat.id by lia.
    replace (Z.of_nat (length (n0 :: ns)) - 1)%Z with (Z.of_nat (length ns))
      by (simpl length; lia).
    simpl totalLength. lia.
  - exact Hsum.
  - intros Hlt. rewrite Hsum. apply Z.mod_small.
    split; [|exact Hlt].
    apply (totalCoverage_nonneg (c0 :: cs)). exact Hcov.
Qed.

Lemma splicer_overlap_law_witness :
  exists r,
    mergePath (H := nucleotide) 4 sampleContigs
      [node 4 false; node 5 false; node 6 true] 7 3 = Ok r
    /\ fa_seq r = list_ascii_of_string "ACGTACCA"
    /\ Z.of_nat (length (fa_seq r)) = (4 + 4 + 4 - 2 * 2)%Z
    /\ fa_coverage r = 12%Z.
Proof.
  destruct (splicer_overlap_law (H := nucleotide) 4 sampleContigs
    (node 4 false) [node 5 false; node 6 true]
    (contig "4" "ACGT" 7) [contig "5" "GTAC" 3; contig "6" "TGGT" 2] 7 3)
    as (r & Hr & Hseq & Hlen & _ & _ & Hcov).
  - vm_compute. split; [discriminate | reflexivity].
  - vm_compute. reflexivity.
  - repeat constructor; discriminate.
  - repeat constructor; vm_compute; try discriminate; reflexivity.
  - simpl. unfold windowMatches. simpl. repeat split; solve [lia | reflexivity].
  - exists r. split; [exact Hr|]. split; [exact Hseq|]. split; [exact Hlen|].
    apply Hcov. vm_compute. reflexivity.
Defined.

(** C7, as stated, fails twice.  With [k = 4] the accumulator [AC] has
    fewer than [k - 1] symbols, so its window cannot equal the first three
    symbols of [ACGT]; the process stops, but on the exception thrown by
    [substr], before any diagnostic is printed.  With [k = 1] every window
    matches and splicing still fails, on the assertion that contig 3 is not
    empty. *)
Lemma overlap_violation_counterexample :
  (list_ascii_of_string "AC" <> firstn 3 (list_ascii_of_string "ACGT")
   /\ mergePath (H := nucleotide) 2 sampleContigs
        [node 2 false; node 4 false] 7 4
      = Abort OutOfRange)
  /\ (JointOverlap 0 (list_ascii_of_string "AC") [list_ascii_of_string ""]
      /\ mergePath (H := nucleotide) 2 sampleContigs
           [node 2 false; node 3 false] 7 1
         = Abort (AssertFailed "!contig.seq.empty()")).
Proof.
  repeat split; try (vm_compute; reflexivity); try discriminate;
    vm_compute; lia.
Qed.

(** C7 (amended): overlap violations.  For a k-mer size
    [1 <= k <= INT_MAX] and a path naming contigs of the table whose
    sequences are not empty, [mergePath] completes exactly when every
    adjacent [(k-1)]-window matches.  At the first pair whose windows
    differ, the accumulator having at least [k - 1] symbols, the process
    stops with the diagnostic of [mergeSequences], which carries the
    accumulator and the incoming contig sequence together with the two
    windows. *)
Theorem overlap_violation_fatal `{Alphabet} cID sourceContigs n0 ns c0 cs
    count k :
  (1 <= k < INT_MAX1)%Z ->
  pathContigs sourceContigs (n0 :: ns) = Some (c0 :: cs) ->
  Forall nonEmpty (c0 :: cs) ->
  let ov := Z.to_nat (k - 1) in
  let root := oriented n0 c0 in
  ((exists r, mergePath cID sourceContigs (n0 :: ns) count k = Ok r)
   <-> JointOverlap ov root (orientedSeqs ns cs))
  /\ (forall pre n post cpre c cpost,
        ns = pre ++ n :: post -> cs = cpre ++ c :: cpost ->
        length pre = length cpre ->
        JointOverlap ov root (orientedSeqs pre cpre) ->
        let acc := spliced ov root (orientedSeqs pre cpre) in
        let leftEnd := skipn (length acc - ov) acc in
        let rightBegin := firstn ov (oriented n c) in
        ov <= length acc -> leftEnd <> rightBegin ->
        mergePath cID sourceContigs (n0 :: ns) count k
          = Abort (OverlapViolation acc (seq c) SENSE (isRC n)
                     leftEnd rightBegin)).
Proof.
  intros Hk Hpc Hne ov root.
  assert (Hk' : (1 <= k < SIZE_MAX1)%Z) by (unfold INT_MAX1, SIZE_MAX1 in *; lia).
  apply pathContigs_cons in Hpc. destruct Hpc as [Hc0 Hcs].
  inversion Hne as [|? ? Hne0 Hnes]; subst.
  rewrite (mergePath_run _ _ _ _ c0) by assumption. fold root.
  split; [split|].
  - intros [r Hr].
    destruct (forEach _ _ ns) as [[merged cov]|f] eqn:Hrun; [|discriminate].
    eapply splice_tail_inv; eassumption.
  - intros Hjo. rewrite (splice_tail_Ok _ _ _ cs) by assumption.
    simpl. eauto.
  - intros pre n post cpre c cpost -> -> Hlen Hjo acc leftEnd rightBegin
      Hacc Hdiff.
    apply Forall2_app_inv in Hcs; [|exact Hlen].
    destruct Hcs as [Hpre Hpost].
    inversion Hpost as [|? ? ? ? Hc _]; subst.
    apply Forall_app in Hnes. destruct Hnes as [Hnpre Hnpost].
    inversion Hnpost as [|? ? Hnc _]; subst.
    rewrite forEach_app.
    rewrite (splice_tail_Ok _ _ _ cpre) by assumption.
    cbn [mbind result_bind forEach]. fold ov acc.
    rewrite (mergeNode_step _ _ _ _ _ c) by assumption.
    fold ov leftEnd rightBegin.
    destruct (Nat.ltb_spec (length acc) ov); [lia|].
    destruct (Sequence_eqb leftEnd rightBegin) eqn:E.
    + apply Sequence_eqb_eq in E. contradiction.
    + reflexivity.
Qed.

Lemma overlap_violation_fatal_witness :
  mergePath (H := nucleotide) 4 sampleContigs
    [node 4 false; node 5 false; node 1 false] 7 3
  = Abort (OverlapViolation (list_ascii_of_string "ACGTAC")
             (list_ascii_of_string "CGT") SENSE false
             (list_ascii_of_string "AC") (list_ascii_of_string "CG")).
Proof.
  refine (proj2 (overlap_violation_fatal (H := nucleotide) 4 sampleContigs
    (node 4 false) [node 5 false; node 1 false]
    (contig "4" "ACGT" 7) [contig "5" "GTAC" 3; contig "1" "CGT" 1] 7 3
    _ _ _)
    [node 5 false] (node 1 false) [] [contig "5" "GTAC" 3]
    (contig "1" "CGT" 1) [] eq_refl eq_refl eq_refl _ _ _).
  - vm_compute. split; [discriminate | reflexivity].
  - vm_compute. reflexivity.
  - repeat constructor; discriminate.
  - simpl. unfold windowMatches. simpl. repeat split; solve [lia | reflexivity].
  - vm_compute. lia.
  - vm_compute. discriminate.
Defined.

(** ** Post-processing *)

(** Two paths never precede each other. *)
Lemma ContigPath_lt_asym `{NodeOrder} :
  AsymmetricOrder ->
  forall a b, ContigPath_lt a b = true -> ContigPath_lt b a = false.
Proof.
  intros Hasym. induction a as [|x a IH]; intros [|y b] Hlt; simpl in *;
    try congruence.
  destruct (node_lt x y) eqn:Hxy.
  - rewrite (Hasym _ _ Hxy). reflexivity.
  - destruct (node_lt y x) eqn:Hyx; [discriminate|]. apply IH. exact Hlt.
Qed.

Lemma insertPath_perm `{NodeOrder} p l : insertPath p l ≡ₚ p :: l.
Proof.
  induction l as [|q l IH]; simpl; [reflexivity|].
  destruct (ContigPath_lt q p); [|reflexivity].
  rewrite IH. apply perm_swap.
Qed.

Lemma sortPaths_perm `{NodeOrder} l : sortPaths l ≡ₚ l.
Proof.
  induction l as [|p l IH]; simpl; [reflexivity|].
  rewrite insertPath_perm. now rewrite IH.
Qed.

Lemma insertPath_sorted `{NodeOrder} p l :
  AsymmetricOrder ->
  Sorted (fun a b => ContigPath_lt b a = false) l ->
  Sorted (fun a b => ContigPath_lt b a = false) (insertPath p l).
Proof.
  intros Hasym. induction 1 as [|q l Hl IH Hhd]; simpl.
  - repeat constructor.
  - destruct (ContigPath_lt q p) eqn:Hqp.
    + constructor; [exact IH|].
      destruct l as [|q' l]; simpl.
      * constructor. apply ContigPath_lt_asym; assumption.
      * inversion Hhd; subst.
        destruct (ContigPath_lt q' p); constructor;
          [assumption | apply ContigPath_lt_asym; assumption].
    + constructor; [constructor; assumption|]. constructor. exact Hqp.
Qed.

Lemma sortPaths_sorted `{NodeOrder} l :
  AsymmetricOrder ->
  Sorted (fun a b => ContigPath_lt b a = false) (sortPaths l).
Proof.
  intros Hasym. induction l as [|p l IH]; simpl; [constructor|].
  apply insertPath_sorted; assumption.
Qed.

Lemma derefAll_acc heap ptrs : forall acc out,
  forEach (fun paths ptr => p ← deref heap ptr; Ok (paths ++ [p])) acc ptrs
    = Ok out ->
  exists paths,
    out = acc ++ paths
    /\ Forall2 (fun ptr p => heap !! ptr = Some p) ptrs paths.
Proof.
  induction ptrs as [|ptr ptrs IH]; intros acc out H; simpl in H.
  - injection H as <-. exists []. split; [now rewrite app_nil_r | constructor].
  - destruct (deref heap ptr) as [p|f] eqn:Hp; simpl in H; [|discriminate H].
    unfold deref in Hp. destruct (heap !! ptr) as [p'|] eqn:Hp';
      [injection Hp as -> | discriminate Hp].
    apply IH in H. destruct H as (paths & -> & Hall).
    exists (p :: paths). split; [now rewrite <- app_assoc|].
    constructor; assumption.
Qed.

Lemma elem_of_uniquePtr (m : gmap N N) ptr :
  ptr ∈ elements (uniquePtr m) <-> exists k, m !! k = Some ptr.
Proof.
  unfold uniquePtr. rewrite elem_of_elements, elem_of_list_to_set.
  rewrite list_elem_of_fmap. split.
  - intros ([k v] & -> & Hin). apply elem_of_map_to_list in Hin. eauto.
  - intros [k Hk]. exists (k, ptr). split; [reflexivity|].
    now apply elem_of_map_to_list.
Qed.

Lemma NoDup_contents (heap : gmap N (list MergeNode)) ptrs :
  forall paths,
  Forall2 (fun ptr p => heap !! ptr = Some p) ptrs paths ->
  NoDup ptrs ->
  (forall p q v, p ∈ ptrs -> q ∈ ptrs ->
     heap !! p = Some v -> heap !! q = Some v -> p = q) ->
  NoDup paths.
Proof.
  induction ptrs as [|ptr ptrs IH]; intros paths Hall Hnd Hinj;
    inversion Hall as [|? p ? paths' Hp Hrest]; subst; [constructor|].
  inversion Hnd as [|? ? Hnotin Hnd']; subst.
  constructor.
  - intros Hin. apply list_elem_of_lookup in Hin. destruct Hin as [i Hi].
    destruct (Forall2_lookup_r _ _ _ _ _ Hrest Hi) as (q & Hq & Hqp).
    assert (ptr = q).
    { apply (Hinj ptr q p); [left | right | assumption | assumption].
      apply list_elem_of_lookup. eauto. }
    subst q. apply Hnotin. apply list_elem_of_lookup. eauto.
  - apply IH; try assumption.
    intros a b v Ha Hb. apply Hinj; right; assumption.
Qed.

Lemma byIdThenSense_asym : AsymmetricOrder (H := byIdThenSense).
Proof.
  unfold AsymmetricOrder. intros [ia ra] [ib rb] H. simpl in *.
  apply orb_true_iff in H. apply orb_false_iff.
  destruct H as [H|H].
  - apply N.ltb_lt in H. split.
    + apply N.ltb_ge. lia.
    + destruct (N.eqb_spec ib ia); [lia | reflexivity].
  - apply andb_true_iff in H. destruct H as [H Hrb].
    apply andb_true_iff in H. destruct H as [H Hra].
    apply N.eqb_eq in H. subst. split.
    + apply N.ltb_irrefl.
    + simpl. rewrite andb_false_r. reflexivity.
Qed.

(** What the post-processing does on any result store: [uniquePaths]
    holds the contents of each distinct path object of the store exactly
    once, sorted lexicographically over the element sequences; it holds no
    two equal paths whenever distinct path objects of the store have
    distinct contents. *)
Lemma uniquePaths_by_identity `{NodeOrder} (resultsPathMap : gmap N N)
    (heap : gmap N (list MergeNode)) out :
  AsymmetricOrder ->
  uniquePaths resultsPathMap heap = Ok out ->
  Sorted (fun a b => ContigPath_lt b a = false) out
  /\ exists ptrs paths,
       NoDup ptrs
       /\ (forall ptr, ptr ∈ ptrs <-> exists k, resultsPathMap !! k = Some ptr)
       /\ Forall2 (fun ptr p => heap !! ptr = Some p) ptrs paths
       /\ out ≡ₚ paths
       /\ ((forall p q v,
              (exists k, resultsPathMap !! k = Some p) ->
              (exists k, resultsPathMap !! k = Some q) ->
              heap !! p = Some v -> heap !! q = Some v -> p = q) ->
           NoDup out).
Proof.
  intros Hasym Hrun. unfold uniquePaths in Hrun.
  inv_bind Hrun. injection Hrun as <-. rename u into paths.
  unfold derefAll in Hu. apply derefAll_acc in Hu.
  destruct Hu as (paths' & -> & Hall). simpl.
  split; [apply sortPaths_sorted; exact Hasym|].
  exists (elements (uniquePtr resultsPathMap)), paths'.
  split; [apply NoDup_elements|].
  split; [apply elem_of_uniquePtr|].
  split; [exact Hall|].
  split; [apply sortPaths_perm|].
  intros Hinj. rewrite sortPaths_perm.
  eapply NoDup_contents; [exact Hall | apply NoDup_elements |].
  intros p q v Hp Hq. apply Hinj; apply elem_of_uniquePtr; assumption.
Qed.

(** ** FASTA ids *)

Lemma mergedIds_app a b : mergedIds (a ++ b) = mergedIds a ++ mergedIds b.
Proof. unfold mergedIds. apply omap_app. Qed.

Lemma writeUnused_ids contigVec seen k out :
  writeUnused contigVec seen k = Ok out -> mergedIds out = [].
Proof.
  unfold writeUnused.
  generalize (imap (fun i c => (i, c)) contigVec). intros l.
  assert (Hgen : forall acc,
    mergedIds acc = [] ->
    forEach (fun out '(i, contig) =>
        let out := if decide (N.of_nat i ∈ seen) then out
                   else out ++ [Unmerged contig] in
        (if (0 <? coverage contig)%Z
         then assert "(int)contig.seq.length() - opt::k + 1 > 0"
                (0 <? (Z.of_nat (length (seq contig)) - k + 1) mod UINT_MAX1)%Z
         else Ok tt) ;;
        Ok out) acc l = Ok out ->
    mergedIds out = []).
  { induction l as [|[i c] l IH]; intros acc Hacc H; simpl in H.
    - injection H as <-. exact Hacc.
    - inv_bind H. inv_bind Hu. injection Hu as <-.
      eapply IH; [|exact H].
      destruct (decide (N.of_nat i ∈ seen)); [exact Hacc|].
      rewrite mergedIds_app, Hacc. reflexivity. }
  apply Hgen. reflexivity.
Qed.

Lemma mergePath_fa_id `{Alphabet} cID sourceContigs path count kmer r :
  mergePath cID sourceContigs path count kmer = Ok r -> fa_id r = count.
Proof.
  unfold mergePath. intros Hrun.
  inv_bind_as Hrun ok Hok. inv_bind_as Hrun firstNode Hfirst.
  inv_bind_as Hrun firstContig Hcontig. inv_bind_as Hrun ok' Hok'.
  inv_bind_as Hrun st Hloop. destruct st as [merged cov].
  injection Hrun as <-. reflexivity.
Qed.

Lemma wrap_int_small v :
  (- INT_MAX1 <= v < INT_MAX1)%Z -> wrap_int v = v.
Proof.
  intros Hv. unfold wrap_int.
  assert (HU : UINT_MAX1 = (2 * INT_MAX1)%Z) by reflexivity.
  rewrite Z.mod_small by lia. lia.
Qed.

Lemma wrap_int_add_l a b : wrap_int (wrap_int a + b) = wrap_int (a + b).
Proof.
  unfold wrap_int.
  replace ((a + INT_MAX1) mod UINT_MAX1 - INT_MAX1 + b + INT_MAX1)%Z
    with ((a + INT_MAX1) mod UINT_MAX1 + b)%Z by lia.
  rewrite Zplus_mod_idemp_l. f_equal. f_equal. lia.
Qed.

Lemma wrap_int_idem v : wrap_int (wrap_int v) = wrap_int v.
Proof.
  transitivity (wrap_int (wrap_int v + 0)); [f_equal; lia|].
  rewrite wrap_int_add_l. f_equal. lia.
Qed.

Lemma writeMerged_ids `{Alphabet} contigVec k paths : forall out first out' last,
  wrap_int first = first ->
  writeMerged contigVec k paths out first = Ok (out', last) ->
  mergedIds out'
  = mergedIds out
    ++ map (fun i => wrap_int (first + Z.of_nat i)) (List.seq 0 (length paths)).
Proof.
  unfold writeMerged.
  induction paths as [|p paths IH]; intros out first out' last Hfirst Hrun;
    simpl in Hrun.
  - injection Hrun as <- <-. simpl. now rewrite app_nil_r.
  - inv_bind_as Hrun st1 Hstep. destruct st1 as [out1 id1].
    inv_bind_as Hstep front Hfront.
    inv_bind_as Hstep r Hr. injection Hstep as <- <-.
    rewrite (IH _ _ _ _ (wrap_int_idem _) Hrun).
    rewrite mergedIds_app. simpl.
    rewrite (mergePath_fa_id _ _ _ _ _ _ Hr), <- app_assoc. simpl.
    rewrite Z.add_0_r, Hfirst. do 2 f_equal.
    rewrite <- seq_shift, map_map. apply map_ext. intros i.
    rewrite wrap_int_add_l. f_equal. lia.
Qed.

Lemma extractInt_range s v :
  extractInt s = Some v -> (- INT_MAX1 <= v < INT_MAX1)%Z.
Proof.
  unfold extractInt. destruct (skipSpaces _) as [|c cs]; [discriminate|].
  destruct (match c :: cs with
            | "-"%char :: s' => (true, s')
            | "+"%char :: s' => (false, s')
            | _ => (false, c :: cs)
            end) as [neg digits].
  assert (HI : INT_MAX1 = 2147483648%Z) by reflexivity.
  destruct (readDigits digits None) as [n|]; intros [= <-]; [|lia].
  destruct (Z.ltb_spec (if neg then (- n)%Z else n) (- INT_MAX1)); [lia|].
  destruct (Z.leb_spec INT_MAX1 (if neg then (- n)%Z else n)); lia.
Qed.

(** What the code does for the ids of the merged records: they count up,
    in [int] arithmetic, from the number read off the name of the last
    contig, that number included. *)
Lemma merged_ids_from_last_name `{Alphabet} contigVec paths k out :
  fastaOutput contigVec paths k = Ok out ->
  exists lastContig first,
    nth_error contigVec (length contigVec - 1) = Some lastContig
    /\ extractInt (name lastContig) = Some first
    /\ mergedIds out
       = map (fun i => wrap_int (first + Z.of_nat i))
           (List.seq 0 (length paths)).
Proof.
  unfold fastaOutput. intros Hrun.
  inv_bind_as Hrun unused Hunused. inv_bind_as Hrun lastContig Hlast.
  destruct (extractInt (name lastContig)) as [first|] eqn:Hfirst;
    [|discriminate].
  inv_bind_as Hrun st Hmerged. destruct st as [merged last].
  injection Hrun as <-.
  exists lastContig, first. split; [now apply at_index_Ok|].
  split; [exact Hfirst|].
  rewrite (writeMerged_ids _ _ _ _ _ _ _
             (wrap_int_small _ (extractInt_range _ _ Hfirst)) Hmerged).
  rewrite (writeUnused_ids _ _ _ _ Hunused). reflexivity.
Qed.

(** C9 on a failing input: with the contigs 0, 1, 2 and the single path
    [0+ 1+], the highest id in use is 2, and the merged record is written
    with the id 2, not 3; the unused contig 2 is written under the same
    id. *)
Theorem fasta_id_seed_failing_input :
  extractInt (name (contig "2" "TTTT" 2)) = Some 2%Z
  /\ fastaOutput (H := nucleotide) idContigs [path01] 3
     = Ok [Unmerged (contig "2" "TTTT" 2);
           Merged {| fa_id := 2; fa_length := 6; fa_coverage := 10;
                     fa_path := path01;
                     fa_seq := list_ascii_of_string "ACGTAC" |}]
  /\ (mergedIds <$> (match fastaOutput (H := nucleotide) idContigs
                             [path01; [node 1 false]] 3 with
                     | Ok out => Some out
                     | Abort _ => None
                     end)) = Some [2%Z; 3%Z].
Proof. repeat split; vm_compute; reflexivity. Qed.

(** * Further properties *)

(** ** [extractMinCoordSet] *)

Lemma extract_loop anchor path l : forall coords,
  Forall (fun idx => idx < length path) l ->
  exists found,
    forEach (fun coords idx =>
        n ← at_index path (length path - idx - 1);
        Ok (if N.eqb (id n) anchor
            then coords ++ [length path - idx - 1] else coords))
      coords l = Ok (coords ++ found)
    /\ (forall i, In i found <->
          In (length path - i - 1) l /\ i < length path
          /\ holdsAnchor anchor path i)
    /\ (StronglySorted lt l -> StronglySorted gt found).
Proof.
  induction l as [|idx l IH]; intros coords Hl.
  - exists []. simpl. rewrite app_nil_r. split; [reflexivity|].
    split; [tauto | constructor].
  - inversion Hl as [|? ? Hidx Hl']; subst. cbn [forEach].
    destruct (at_index_lt path (length path - idx - 1)) as (n & -> & Hn);
      [lia|].
    cbn [mbind result_bind].
    destruct (N.eqb_spec (id n) anchor) as [Heq|Hne].
    + destruct (IH (coords ++ [length path - idx - 1]) Hl')
        as (found & -> & Hin & Hsorted).
      exists ((length path - idx - 1) :: found).
      rewrite <- app_assoc. split; [reflexivity|]. split.
      * intros i. simpl. rewrite Hin. split.
        -- intros [<-|(H1 & H2 & H3)].
           ++ split; [left; lia|]. split; [lia|]. exists n. auto.
           ++ auto.
        -- intros ([Hi|Hi] & H2 & H3); [left; lia | right; auto].
      * intros Hs. inversion Hs as [|? ? Hs' Hall]; subst.
        constructor; [auto|].
        apply List.Forall_forall. intros i Hi. apply Hin in Hi.
        destruct Hi as (Hi & Hlt & _).
        rewrite List.Forall_forall in Hall. specialize (Hall _ Hi). lia.
    + destruct (IH coords Hl') as (found & -> & Hin & Hsorted).
      exists found. split; [reflexivity|]. split.
      * intros i. rewrite Hin. simpl. split.
        -- intros (H1 & H2 & H3). auto.
        -- intros ([Hi|Hi] & H2 & H3); [|auto].
           exfalso. destruct H3 as (n' & Hn' & Hid).
           replace (length path - idx - 1) with i in Hn by lia. congruence.
      * intros Hs. inversion Hs; subst. auto.
Qed.

Lemma StronglySorted_seq a len : StronglySorted lt (List.seq a len).
Proof.
  revert a. induction len as [|len IH]; intros a; simpl; constructor.
  - apply IH.
  - apply List.Forall_forall. intros i Hi. apply in_seq in Hi. lia.
Qed.

Lemma extractMinCoordSet_found anchor path coords :
  exists found,
    extractMinCoordSet anchor path coords
      = Ok (negb (Nat.eqb (length (coords ++ found)) 0), coords ++ found)
    /\ (forall i, In i found <-> holdsAnchor anchor path i)
    /\ StronglySorted gt found
    /\ (found = [] <-> ~ occursIn anchor path).
Proof.
  unfold extractMinCoordSet.
  destruct (extract_loop anchor path (List.seq 0 (length path)) coords)
    as (found & -> & Hin & Hsorted).
  { apply List.Forall_forall. intros i Hi. apply in_seq in Hi. lia. }
  assert (Hin' : forall i, In i found <-> holdsAnchor anchor path i).
  { intros i. rewrite Hin. split; [tauto|]. intros Hi.
    assert (Hlt : i < length path).
    { destruct Hi as (n & Hn & _). apply nth_error_Some. congruence. }
    split; [apply in_seq; lia | auto]. }
  exists found. cbn [mbind result_bind].
  split; [destruct (coords ++ found); reflexivity|].
  split; [exact Hin'|]. split; [apply Hsorted, StronglySorted_seq|].
  split.
  - intros -> [i Hi]. apply Hin' in Hi. exact Hi.
  - intros Hnone. destruct found as [|i found]; [reflexivity|].
    exfalso. apply Hnone. exists i. apply Hin'. now left.
Qed.

(** X1: [extractMinCoordSet] returns exactly the indices of [path] that hold
    the anchor, appended to [coords] in strictly decreasing order, and its
    boolean is false only when nothing was in [coords] and the anchor does
    not occur. *)
Theorem extractMinCoordSet_indices anchor path coords :
  exists found,
    extractMinCoordSet anchor path coords
      = Ok (negb (Nat.eqb (length (coords ++ found)) 0), coords ++ found)
    /\ (forall i, In i found <-> holdsAnchor anchor path i)
    /\ StronglySorted gt found
    /\ (found = [] <-> ~ occursIn anchor path).
Proof. apply extractMinCoordSet_found. Qed.

(** ** [checkPathConsistency], further *)

Lemma scanPaths_missing path2Root path1 path2 range :
  ~ occursIn path2Root path1 \/ ~ occursIn path2Root path2 ->
  scanPaths path2Root path1 path2 range = Ok None.
Proof.
  intros Hmiss. unfold scanPaths.
  destruct (extractMinCoordSet_found path2Root path1 [])
    as (f1 & -> & _ & _ & Hf1).
  destruct (extractMinCoordSet_found path2Root path2 [])
    as (f2 & -> & _ & _ & Hf2).
  cbn [mbind result_bind app].
  destruct Hmiss as [H|H].
  - apply Hf1 in H. subst f1. reflexivity.
  - apply Hf2 in H. subst f2. simpl. now rewrite orb_true_r.
Qed.

(** X2: when the root of the second path occurs in only one of the two
    paths, or in none, [checkPathConsistency] returns false and leaves
    [path2] and the four reference parameters as they were. *)
Theorem missing_anchor_rejected path1Root path2Root path1 path2 range :
  entryAssertion path1 path2 = true ->
  ~ occursIn path2Root path1 \/ ~ occursIn path2Root path2 ->
  checkPathConsistency path1Root path2Root path1 path2 range
    = Ok (false, path2, range).
Proof.
  intros Hentry Hmiss. unfold checkPathConsistency.
  rewrite Hentry, (scanPaths_missing _ _ _ _ Hmiss). reflexivity.
Qed.

Lemma missing_anchor_rejected_witness :
  checkPathConsistency 0 7 pathA_S3 pathB_tail (5, 6, 7, 8)
    = Ok (false, pathB_tail, (5, 6, 7, 8)).
Proof.
  apply missing_anchor_rejected; [reflexivity|].
  left. intros (i & n & Hn & Hid).
  do 5 (destruct i as [|i]; [injection Hn as <-; discriminate Hid|]).
  destruct i; discriminate Hn.
Defined.

(** What any returned call has done to [path2], and where an accepted
    range lies. *)
Lemma checkPathConsistency_result path1Root path2Root path1 path2 range
    ok path2' s1 e1 s2 e2 :
  checkPathConsistency path1Root path2Root path1 path2 range
    = Ok (ok, path2', (s1, e1, s2, e2)) ->
  (path2' = path2 \/ path2' = reverseComplementPath path2)
  /\ (ok = true ->
      s1 <= e1 < length path1 /\ s2 <= e2 < length path2'
      /\ e1 - s1 = e2 - s2
      /\ (s1 = 0 \/ s2 = 0)
      /\ (e1 = length path1 - 1 \/ e2 = length path2' - 1)).
Proof.
  intros H.
  destruct (entryAssertion path1 path2) eqn:Hentry.
  2:{ unfold checkPathConsistency in H. rewrite Hentry in H. discriminate. }
  destruct (checkPathConsistency_spec path1Root path2Root path1 path2 range
              Hentry) as (o & _ & Hcheck).
  destruct o as [st|].
  2:{ rewrite Hcheck in H. injection H as <- <- _.
      split; [now left | discriminate]. }
  destruct Hcheck as [Hst Hcheck]. rewrite Hcheck in H.
  pose proof (resolve_spec path1 path2 st Hst) as Hres. simpl in Hres.
  assert (Hor : forall f, orient f path2 = path2
                          \/ orient f path2 = reverseComplementPath path2)
    by (intros []; simpl; auto).
  destruct Hst as [Hp2 _].
  destruct (biggest (sc_alignments st)) as [[count b]|].
  2:{ rewrite Hres in H. injection H as <- <- _.
      split; [rewrite Hp2; apply Hor | discriminate]. }
  destruct Hres as [Hrec Hres]. rewrite Hres in H.
  destruct (duplicateSize b && _).
  { injection H as <- <- _.
    split; [rewrite Hp2; apply Hor | discriminate]. }
  injection H as <- <- <- <- <- <-.
  split; [apply Hor|]. intros _. rewrite length_orient.
  destruct Hrec as (Hs1 & He1 & Hs2 & He2 & Hc1 & Hc2 & Hlow & Hhigh & Hids).
  destruct (Hids 0 ltac:(lia)) as (n1 & n2 & Hn1 & Hn2 & _).
  assert (length path1 <> 0)
    by (intros E; apply length_zero_iff_nil in E; subst path1;
        destruct (startP1 b + 0); discriminate).
  assert (length path2 <> 0).
  { intros E. apply length_zero_iff_nil in E.
    assert (Hlen : length (orient (flipped b) path2) = 0)
      by (rewrite length_orient, E; reflexivity).
    apply length_zero_iff_nil in Hlen. rewrite Hlen in Hn2.
    destruct (startP2 b + 0); discriminate. }
  repeat split; try lia; assumption.
Qed.

(** X3: [checkPathConsistency] only ever changes [path2] by reversing it
    (order reversed, orientations toggled); and the ranges of an accepted
    pair lie inside the two paths, have the same length and touch index 0
    and a last index, so that the slices [child[0..s2)] and
    [child[e2+1..)] taken by the caller are well defined. *)
Theorem accepted_range_in_bounds path1Root path2Root path1 path2 range
    ok path2' s1 e1 s2 e2 :
  checkPathConsistency path1Root path2Root path1 path2 range
    = Ok (ok, path2', (s1, e1, s2, e2)) ->
  (path2' = path2 \/ path2' = reverseComplementPath path2)
  /\ (ok = true ->
      s1 <= e1 < length path1 /\ s2 <= e2 < length path2'
      /\ e1 - s1 = e2 - s2
      /\ (s1 = 0 \/ s2 = 0)
      /\ (e1 = length path1 - 1 \/ e2 = length path2' - 1)).
Proof. apply checkPathConsistency_result. Qed.

Lemma accepted_range_in_bounds_witness :
  2 <= 4 < length pathA_rep /\ 0 <= 2 < length pathB_rep.
Proof.
  destruct (accepted_range_in_bounds 1 1 pathA_rep pathB_rep (0, 0, 0, 0)
    true pathB_rep 2 4 0 2 ltac:(vm_compute; reflexivity)) as [_ H].
  destruct (H eq_refl) as (H1 & H2 & _). split; assumption.
Defined.

Lemma lowLoop_same p : forall s,
  s < length p -> lowLoop p p s s = Ok (true, 0, 0).
Proof.
  induction s as [|s IH]; intros Hs; cbn [lowLoop];
    destruct (at_index_lt p _ Hs) as (n & -> & _);
    cbn [mbind result_bind]; rewrite N.eqb_refl; simpl; [reflexivity|].
  apply IH. lia.
Qed.

Lemma highLoop_same p : forall fuel e,
  e < length p -> length p - 1 - e <= fuel ->
  highLoop p p (length p - 1) (length p - 1) fuel e e
    = Ok (true, length p - 1, length p - 1).
Proof.
  induction fuel as [|fuel IH]; intros e He Hfuel; cbn [highLoop];
    destruct (at_index_lt p _ He) as (n & -> & _);
    cbn [mbind result_bind]; rewrite N.eqb_refl; simpl;
    destruct (Nat.eqb_spec e (length p - 1)) as [->|Hne]; simpl;
    try reflexivity; try lia.
  apply IH; lia.
Qed.

(** A seed pair either leaves [pathAlignments] alone or records one
    alignment. *)
Lemma seedPair_alignments path1 max1 max2 st c1 c2 st' :
  seedPair path1 max1 max2 st c1 c2 = Ok st' ->
  sc_alignments st' = sc_alignments st
  \/ exists count a,
       sc_alignments st' = recordAlignment count a (sc_alignments st).
Proof.
  unfold seedPair. intros H.
  inv_bind_as H n1 Hn1. inv_bind_as H n2 Hn2.
  destruct (if negb (Bool.eqb (isRC n1) (isRC n2)) then _ else _)
    as [[[p2 f] s2] e2].
  inv_bind_as H low Hlow. destruct low as [[lv a1] a2].
  inv_bind_as H high Hhigh. destruct high as [[hv b1] b2].
  inv_bind_as H aligns Haligns. injection H as <-. simpl.
  destruct (lv && hv).
  - inv_bind_as Haligns ok Hok. injection Haligns as <-. right. eauto.
  - injection Haligns as <-. now left.
Qed.

Lemma recordAlignment_keeps_full max f count x m :
  (exists a, m !! max = Some a /\ fullAlignment max f a) ->
  exists a, recordAlignment count x m !! max = Some a /\ fullAlignment max f a.
Proof.
  intros (a & Ha & Hfull). unfold recordAlignment.
  destruct (m !! count) as [old|] eqn:Hold.
  - destruct (Nat.eq_dec count max) as [->|Hne].
    + rewrite lookup_insert_eq. eexists. split; [reflexivity|].
      rewrite Ha in Hold. injection Hold as <-. exact Hfull.
    + rewrite lookup_insert_ne by assumption. eauto.
  - destruct (Nat.eq_dec count max) as [->|Hne]; [congruence|].
    rewrite lookup_insert_ne by assumption. eauto.
Qed.

(** The seed pair [(c, c)] of a path against itself records the whole
    path. *)
Lemma seedPair_same p st c :
  c < length p -> sc_path2 st = p -> sc_flipped st = false ->
  exists st',
    seedPair p (length p - 1) (length p - 1) st c c = Ok st'
    /\ sc_path2 st' = p /\ sc_flipped st' = false
    /\ sc_alignments st'
       = recordAlignment (length p - 1)
           {| startP1 := 0; endP1 := length p - 1; startP2 := 0;
              endP2 := length p - 1; flipped := false;
              duplicateSize := false |} (sc_alignments st).
Proof.
  intros Hc Hp Hf. unfold seedPair. rewrite Hf, Hp.
  destruct (at_index_lt p c Hc) as (n & -> & _).
  cbn [mbind result_bind]. rewrite eqb_reflx. cbn [negb].
  rewrite lowLoop_same by assumption. cbn [mbind result_bind].
  rewrite highLoop_same by lia. cbn [mbind result_bind andb].
  rewrite !Nat.sub_0_r, Nat.eqb_refl. cbn [assert mbind result_bind].
  eexists. split; [reflexivity|]. simpl. auto.
Qed.

Lemma nth_error_reverseComplementPath p i :
  i < length p ->
  nth_error (reverseComplementPath p) i
  = option_map flipNode (nth_error p (length p - 1 - i)).
Proof.
  intros Hi. unfold reverseComplementPath.
  rewrite nth_error_rev, length_map.
  destruct (Nat.ltb_spec i (length p)); [|lia].
  replace (length p - S i) with (length p - 1 - i) by lia.
  apply nth_error_map.
Qed.

(** The seed pair that puts an index of a path against the mirrored index
    of its reverse complement flips [path2] back and records the whole
    path. *)
Lemma seedPair_mirror p st c :
  c < length p -> sc_path2 st = reverseComplementPath p ->
  sc_flipped st = false ->
  exists st',
    seedPair p (length p - 1) (length p - 1) st c (length p - 1 - c) = Ok st'
    /\ sc_path2 st' = p /\ sc_flipped st' = true
    /\ sc_alignments st'
       = recordAlignment (length p - 1)
           {| startP1 := 0; endP1 := length p - 1; startP2 := 0;
              endP2 := length p - 1; flipped := true;
              duplicateSize := false |} (sc_alignments st).
Proof.
  intros Hc Hp Hf. unfold seedPair. rewrite Hf, Hp.
  destruct (at_index_lt p c Hc) as (n & -> & Hn).
  cbn [mbind result_bind].
  assert (Hn2 : at_index (reverseComplementPath p) (length p - 1 - c)
                = Ok (flipNode n)).
  { apply at_index_Ok. rewrite nth_error_reverseComplementPath by lia.
    replace (length p - 1 - (length p - 1 - c)) with c by lia.
    rewrite Hn. reflexivity. }
  rewrite Hn2. cbn [mbind result_bind].
  replace (Bool.eqb (isRC n) (isRC (flipNode n))) with false
    by (destruct n as [k []]; reflexivity).
  cbn [negb]. rewrite reverseComplementPath_involutive.
  replace (length p - 1 - (length p - 1 - c)) with c by lia.
  rewrite lowLoop_same by assumption. cbn [mbind result_bind].
  rewrite highLoop_same by lia. cbn [mbind result_bind andb].
  rewrite !Nat.sub_0_r, Nat.eqb_refl. cbn [assert mbind result_bind].
  eexists. split; [reflexivity|]. simpl. auto.
Qed.

Lemma seedPair_keeps_full path1 path2 st c1 c2 max f :
  c1 < length path1 -> c2 < length path2 ->
  ScanInv path1 path2 st
  /\ (exists a, sc_alignments st !! max = Some a /\ fullAlignment max f a) ->
  exists st',
    seedPair path1 (length path1 - 1) (length path2 - 1) st c1 c2 = Ok st'
    /\ ScanInv path1 path2 st'
    /\ (exists a, sc_alignments st' !! max = Some a /\ fullAlignment max f a).
Proof.
  intros H1 H2 [Hinv Hfull].
  destruct (seedPair_inv path1 path2 st c1 c2 H1 H2 Hinv) as (st' & Hrun & Hinv').
  exists st'. split; [exact Hrun|]. split; [exact Hinv'|].
  destruct (seedPair_alignments _ _ _ _ _ _ _ Hrun) as [->|(count & a & ->)].
  - exact Hfull.
  - apply recordAlignment_keeps_full. exact Hfull.
Qed.

Lemma alignSeeds_keeps_full path1 path2 coords1 coords2 st max f :
  Forall (fun i => i < length path1) coords1 ->
  Forall (fun i => i < length path2) coords2 ->
  ScanInv path1 path2 st
  /\ (exists a, sc_alignments st !! max = Some a /\ fullAlignment max f a) ->
  exists st',
    alignSeeds path1 (length path1 - 1) (length path2 - 1) coords1 coords2 st
      = Ok st'
    /\ ScanInv path1 path2 st'
    /\ (exists a, sc_alignments st' !! max = Some a /\ fullAlignment max f a).
Proof.
  intros H1 H2 Hst. unfold alignSeeds.
  apply forEach_inv with (P := fun i => i < length path1); try assumption.
  intros s c1 Hs Hc1.
  apply forEach_inv with (P := fun i => i < length path2); try assumption.
  intros s' c2 Hs' Hc2. apply seedPair_keeps_full; assumption.
Qed.

(** Once the whole of two paths of equal length is recorded, the resolve
    step accepts it. *)
Lemma resolve_full path1 path2 st f :
  length path1 = length path2 ->
  ScanInv path1 path2 st
  /\ (exists a, sc_alignments st !! (length path1 - 1) = Some a
                /\ fullAlignment (length path1 - 1) f a) ->
  resolve path1 (length path1 - 1) (length path2 - 1) st
    = Ok (true, orient f path2,
          (0, length path1 - 1, 0, length path1 - 1)).
Proof.
  intros Hlen [Hinv (a & Ha & Hfull)].
  pose proof (resolve_spec path1 path2 st Hinv) as Hres. simpl in Hres.
  destruct (biggest (sc_alignments st)) as [[count b]|] eqn:Hbig.
  2:{ apply biggest_None in Hbig. rewrite Hbig, lookup_empty in Ha.
      discriminate. }
  destruct Hres as [Hrec ->].
  apply biggest_Some in Hbig. destruct Hbig as [Hb Hmax].
  specialize (Hmax _ _ Ha).
  destruct Hrec as (Hs1 & He1 & _ & _ & Hc1 & _).
  assert (Hcount : count = length path1 - 1) by lia.
  clear Hc1 Hmax. subst count.
  rewrite Hb in Ha. injection Ha as ->.
  destruct Hfull as (-> & -> & -> & -> & ->).
  rewrite <- Hlen, Nat.min_id, Nat.eqb_refl, andb_false_r. reflexivity.
Qed.

Lemma scanPaths_coords path2Root path1 path2 range :
  occursIn path2Root path1 -> occursIn path2Root path2 ->
  exists c1 cs1 c2 cs2,
    Forall (fun i => i < length path1) (c1 :: cs1)
    /\ Forall (fun i => i < length path2) (c2 :: cs2)
    /\ (forall i, In i (c1 :: cs1) <-> holdsAnchor path2Root path1 i)
    /\ (forall i, In i (c2 :: cs2) <-> holdsAnchor path2Root path2 i)
    /\ StronglySorted gt (c1 :: cs1) /\ StronglySorted gt (c2 :: cs2)
    /\ scanPaths path2Root path1 path2 range
       = st ← alignSeeds path1 (length path1 - 1) (length path2 - 1)
                (c1 :: cs1) (c2 :: cs2)
                {| sc_path2 := path2; sc_flipped := false; sc_range := range;
                   sc_alignments := ∅ |};
         Ok (Some st).
Proof.
  intros Ho1 Ho2. unfold scanPaths.
  destruct (extractMinCoordSet_found path2Root path1 [])
    as (f1 & E1 & Hin1 & Hs1 & Hf1).
  destruct (extractMinCoordSet_found path2Root path2 [])
    as (f2 & E2 & Hin2 & Hs2 & Hf2).
  rewrite E1. cbn [mbind result_bind]. rewrite E2. cbn [mbind result_bind app].
  destruct f1 as [|c1 cs1]; [exfalso; now apply Hf1|].
  destruct f2 as [|c2 cs2]; [exfalso; now apply Hf2|].
  exists c1, cs1, c2, cs2.
  assert (Hb : forall p r l, (forall i, In i l <-> holdsAnchor r p i) ->
                 Forall (fun i => i < length p) l).
  { intros p r l Hin. apply List.Forall_forall. intros i Hi.
    apply Hin in Hi. destruct Hi as (n & Hn & _).
    apply nth_error_Some. congruence. }
  repeat split; eauto; try apply Hin1; try apply Hin2.
Qed.

Lemma forEach_cons {A S} (body : S -> A -> result S) s x l :
  forEach body s (x :: l) = body s x ≫= fun s' => forEach body s' l.
Proof. reflexivity. Qed.

(** A path is consistent with itself. *)
Lemma checkPathConsistency_self path1Root path2Root p range :
  2 <= length p -> occursIn path2Root p ->
  checkPathConsistency path1Root path2Root p p range
    = Ok (true, p, (0, length p - 1, 0, length p - 1)).
Proof.
  intros Hlen Hocc. unfold checkPathConsistency.
  replace (entryAssertion p p) with true.
  2:{ unfold entryAssertion. destruct (length p) as [|[|n]];
        [lia | lia | reflexivity]. }
  cbn [assert mbind result_bind].
  destruct (scanPaths_coords path2Root p p range Hocc Hocc)
    as (c1 & cs1 & c2 & cs2 & Hb1 & Hb2 & Hin1 & Hin2 & Hs1 & Hs2 & ->).
  assert (c2 = c1).
  { assert (Hc1 : In c1 (c2 :: cs2)) by (apply Hin2, Hin1; now left).
    assert (Hc2 : In c2 (c1 :: cs1)) by (apply Hin1, Hin2; now left).
    inversion Hs1 as [|? ? _ Hall1]; subst.
    inversion Hs2 as [|? ? _ Hall2]; subst.
    rewrite List.Forall_forall in Hall1, Hall2.
    destruct Hc1 as [|Hc1]; [assumption|].
    destruct Hc2 as [|Hc2]; [congruence|].
    specialize (Hall1 _ Hc2). specialize (Hall2 _ Hc1). lia. }
  subst c2.
  inversion Hb1 as [|? ? Hc1 Hcs1]; subst.
  inversion Hb2 as [|? ? _ Hcs2]; subst.
  set (st0 := {| sc_path2 := p; sc_flipped := false; sc_range := range;
                 sc_alignments := ∅ |}).
  unfold alignSeeds. rewrite !forEach_cons.
  destruct (seedPair_same p st0 c1 Hc1 eq_refl eq_refl)
    as (st1 & Hrun & Hp1 & Hf1 & Hal1).
  rewrite Hrun. cbn [mbind result_bind].
  assert (Hst1 : ScanInv p p st1
    /\ (exists a, sc_alignments st1 !! (length p - 1) = Some a
                  /\ fullAlignment (length p - 1) false a)).
  { split.
    - destruct (seedPair_inv p p st0 c1 c1 Hc1 Hc1) as (st' & Hrun' & Hinv).
      + split; [reflexivity | apply map_Forall_empty].
      + rewrite Hrun in Hrun'. injection Hrun' as <-. exact Hinv.
    - rewrite Hal1. unfold recordAlignment, st0. cbn [sc_alignments].
      rewrite lookup_empty, lookup_insert_eq.
      eexists. split; [reflexivity|]. repeat split. }
  destruct (forEach_inv
    (fun st c2 => seedPair p (length p - 1) (length p - 1) st c1 c2)
    (fun st => ScanInv p p st
       /\ (exists a, sc_alignments st !! (length p - 1) = Some a
                     /\ fullAlignment (length p - 1) false a))
    (fun i => i < length p)) with (l := cs2) (s := st1)
    as (st2 & -> & Hst2); try assumption.
  { intros s c2 Hs Hc2. apply seedPair_keeps_full; assumption. }
  cbn [mbind result_bind].
  destruct (alignSeeds_keeps_full p p cs1 (c1 :: cs2) st2 (length p - 1) false
              Hcs1 Hb2 Hst2) as (st3 & Hrun3 & Hst3).
  unfold alignSeeds in Hrun3. rewrite Hrun3. cbn [mbind result_bind].
  rewrite (resolve_full p p st3 false eq_refl Hst3). reflexivity.
Qed.

(** X4: a path of at least two nodes in which the root occurs is accepted
    against itself over its whole length, unchanged: this is what lets the
    second phase of linking recognise a stored path that repeats the
    reference path. *)
Theorem self_consistent path1Root path2Root p range :
  2 <= length p -> occursIn path2Root p ->
  checkPathConsistency path1Root path2Root p p range
    = Ok (true, p, (0, length p - 1, 0, length p - 1)).
Proof. apply checkPathConsistency_self. Qed.

Lemma self_consistent_witness :
  checkPathConsistency 0 1 pathA_S3 pathA_S3 (0, 0, 0, 0)
    = Ok (true, pathA_S3, (0, 4, 0, 4)).
Proof.
  apply (self_consistent 0 1 pathA_S3 (0, 0, 0, 0)).
  - simpl. lia.
  - exists 1, (node 1 false). split; reflexivity.
Defined.

Lemma holdsAnchor_reverseComplementPath r p i :
  holdsAnchor r (reverseComplementPath p) i
  <-> i < length p /\ holdsAnchor r p (length p - 1 - i).
Proof.
  unfold holdsAnchor. split.
  - intros (n & Hn & Hid).
    assert (Hi : i < length p).
    { rewrite <- length_reverseComplementPath. apply nth_error_Some.
      congruence. }
    split; [exact Hi|].
    rewrite nth_error_reverseComplementPath in Hn by exact Hi.
    destruct (nth_error p (length p - 1 - i)) as [n'|]; [|discriminate].
    injection Hn as <-. exists n'. split; [reflexivity | exact Hid].
  - intros (Hi & n & Hn & Hid). exists (flipNode n).
    rewrite nth_error_reverseComplementPath by exact Hi.
    rewrite Hn. split; [reflexivity | exact Hid].
Qed.

Lemma sorted_all_equal c c1 cs :
  StronglySorted gt (c1 :: cs) ->
  (forall i, In i (c1 :: cs) -> i = c) -> c1 = c /\ cs = [].
Proof.
  intros Hs Hall. split; [apply Hall; now left|].
  destruct cs as [|c2 cs]; [reflexivity|]. exfalso.
  inversion Hs as [|? ? _ Hgt]; subst.
  inversion Hgt as [|? ? Hc _]; subst.
  assert (c1 = c) by (apply Hall; now left).
  assert (c2 = c) by (apply Hall; right; now left). lia.
Qed.

Lemma checkPathConsistency_mirror path1Root path2Root p range c :
  2 <= length p ->
  holdsAnchor path2Root p c ->
  (forall i, holdsAnchor path2Root p i -> i = c) ->
  checkPathConsistency path1Root path2Root p (reverseComplementPath p) range
    = Ok (true, p, (0, length p - 1, 0, length p - 1)).
Proof.
  intros Hlen Hc Huniq.
  assert (Hclt : c < length p).
  { destruct Hc as (n & Hn & _). apply nth_error_Some. congruence. }
  unfold checkPathConsistency.
  replace (entryAssertion p (reverseComplementPath p)) with true.
  2:{ unfold entryAssertion. rewrite length_reverseComplementPath.
      destruct (length p) as [|[|n]]; [lia | lia | reflexivity]. }
  cbn [assert mbind result_bind].
  destruct (scanPaths_coords path2Root p (reverseComplementPath p) range)
    as (c1 & cs1 & c2 & cs2 & Hb1 & Hb2 & Hin1 & Hin2 & Hs1 & Hs2 & ->).
  { exists c. exact Hc. }
  { exists (length p - 1 - c). apply holdsAnchor_reverseComplementPath.
    split; [lia|]. replace (length p - 1 - (length p - 1 - c)) with c by lia.
    exact Hc. }
  destruct (sorted_all_equal c c1 cs1 Hs1) as [-> ->].
  { intros i Hi. apply Huniq, Hin1, Hi. }
  destruct (sorted_all_equal (length p - 1 - c) c2 cs2 Hs2) as [-> ->].
  { intros i Hi. apply Hin2, holdsAnchor_reverseComplementPath in Hi.
    destruct Hi as [Hi Hh]. apply Huniq in Hh. lia. }
  rewrite !length_reverseComplementPath.
  set (st0 := {| sc_path2 := reverseComplementPath p; sc_flipped := false;
                 sc_range := range; sc_alignments := ∅ |}).
  unfold alignSeeds. rewrite !forEach_cons.
  destruct (seedPair_mirror p st0 c Hclt eq_refl eq_refl)
    as (st1 & Hrun & Hp1 & Hf1 & Hal1).
  rewrite Hrun. cbn [forEach mbind result_bind].
  assert (Hst1 : ScanInv p (reverseComplementPath p) st1
    /\ (exists a, sc_alignments st1 !! (length p - 1) = Some a
                  /\ fullAlignment (length p - 1) true a)).
  { split.
    - destruct (seedPair_inv p (reverseComplementPath p) st0 c
                  (length p - 1 - c)) as (st' & Hrun' & Hinv).
      + exact Hclt.
      + rewrite length_reverseComplementPath. lia.
      + split; [reflexivity | apply map_Forall_empty].
      + rewrite length_reverseComplementPath, Hrun in Hrun'.
        injection Hrun' as <-. exact Hinv.
    - rewrite Hal1. unfold recordAlignment, st0. cbn [sc_alignments].
      rewrite lookup_empty, lookup_insert_eq.
      eexists. split; [reflexivity|]. repeat split. }
  pose proof (resolve_full p (reverseComplementPath p) st1 true
                ltac:(now rewrite length_reverseComplementPath) Hst1) as Hres.
  rewrite length_reverseComplementPath in Hres. rewrite Hres.
  simpl. rewrite reverseComplementPath_involutive. reflexivity.
Qed.

(** X5: orientation is reconciled.  A path of at least two nodes in which
    the root occurs once is accepted against its own reverse complement
    over its whole length, and the call hands the second path back
    reversed, that is in the orientation of the first. *)
Theorem reverse_complement_reconciled path1Root path2Root p range c :
  2 <= length p ->
  holdsAnchor path2Root p c ->
  (forall i, holdsAnchor path2Root p i -> i = c) ->
  checkPathConsistency path1Root path2Root p (reverseComplementPath p) range
    = Ok (true, p, (0, length p - 1, 0, length p - 1)).
Proof. apply checkPathConsistency_mirror. Qed.

Lemma reverse_complement_reconciled_witness :
  checkPathConsistency 0 3 pathA_S3 (reverseComplementPath pathA_S3)
    (0, 0, 0, 0)
  = Ok (true, pathA_S3, (0, 4, 0, 4)).
Proof.
  apply (reverse_complement_reconciled 0 3 pathA_S3 (0, 0, 0, 0) 4).
  - simpl. lia.
  - exists (node 3 false). split; reflexivity.
  - intros i (n & Hn & Hid).
    do 4 (destruct i as [|i]; [injection Hn as <-; discriminate Hid|]).
    destruct i as [|i]; [reflexivity|]. destruct i; discriminate Hn.
Defined.

(** ** [readPathsFromFile], further *)

Lemma readPathLines_keys lines : forall m0 m k,
  readPathLines m0 lines = Ok m ->
  (is_Some (m !! k)
   <-> is_Some (m0 !! k) \/ exists l, In l lines /\ id (line_pivot l) = k).
Proof.
  induction lines as [|l lines IH]; intros m0 m k H; simpl in H.
  - injection H as <-. split; [auto | intros [?|(l & [] & _)]; assumption].
  - inv_bind_as H m1 Hl. rewrite (IH _ _ _ H).
    apply readPathLine_Ok in Hl. simpl in Hl.
    assert (Hm1 : is_Some (m1 !! k)
                  <-> is_Some (m0 !! k) \/ id (line_pivot l) = k).
    { destruct (N.eq_dec (id (line_pivot l)) k) as [Heq|Hne].
      - destruct (isRC (line_pivot l)); destruct Hl as [_ ->];
          rewrite Heq, lookup_insert_eq; split; eauto.
      - destruct (isRC (line_pivot l)); destruct Hl as [_ ->];
          rewrite lookup_insert_ne by assumption; split; auto;
          intros [?|?]; [assumption | contradiction | assumption | contradiction]. }
    rewrite Hm1. simpl. split.
    + intros [[?|?]|(l' & Hin & Hid)]; eauto.
    + intros [?|(l' & [<-|Hin] & Hid)]; eauto.
Qed.

(** X6: the keys of the path store are exactly the roots that the file
    names: every record creates or extends the entry of its own root, and
    no other key appears. *)
Theorem store_keys_are_roots lines m k :
  readPathsFromFile lines ∅ = Ok m ->
  (is_Some (m !! k) <-> exists l, In l lines /\ id (line_pivot l) = k).
Proof.
  intros H. unfold readPathsFromFile in H.
  rewrite (readPathLines_keys _ _ _ k H), lookup_empty. split.
  - intros [[x Hx]|?]; [discriminate | assumption].
  - auto.
Qed.

Lemma store_keys_are_roots_witness :
  is_Some (store_7_both !! 7%N)
  <-> exists l, In l [rec_7_plus; rec_7_minus] /\ id (line_pivot l) = 7%N.
Proof.
  apply (store_keys_are_roots [rec_7_plus; rec_7_minus] store_7_both 7%N).
  vm_compute. reflexivity.
Defined.

Lemma readPathLine_accepts m l :
  line_wf l = true ->
  let k := id (line_pivot l) in
  let p := default [rootNode k] (m !! k) in
  (if isRC (line_pivot l) then front_is p (rootNode k) = true
   else p = [rootNode k]) ->
  readPathLine m l
  = Ok (<[k := if isRC (line_pivot l) then rev (line_path l) ++ p
              else p ++ line_path l]> m).
Proof.
  intros Hwf k p Hp. unfold line_wf in Hwf.
  apply andb_true_iff in Hwf. destruct Hwf as [Hwf Hsep].
  apply andb_true_iff in Hwf. destruct Hwf as [Heof Hat].
  unfold readPathLine. rewrite Heof, Hat, Hsep. cbn [assert mbind result_bind].
  fold k. fold p. destruct (isRC (line_pivot l)); cbn [negb].
  - rewrite Hp. reflexivity.
  - rewrite Hp. simpl. unfold MergeNode_eqb. simpl.
    rewrite N.eqb_refl. reflexivity.
Qed.

Lemma recordsOf_cons k l lines :
  recordsOf k (l :: lines)
  = if N.eqb (id (line_pivot l)) k then l :: recordsOf k lines
    else recordsOf k lines.
Proof. reflexivity. Qed.

(** The state of the store against the records still to come. *)
Lemma readPathLines_accepts lines : forall m0,
  Forall (fun l => line_wf l = true) lines ->
  (forall k,
     match m0 !! k with
     | None => forwardThenReverse (recordsOf k lines)
     | Some p =>
         recordsOf k lines = []
         \/ exists r, recordsOf k lines = [r]
                      /\ isRC (line_pivot r) = true
                      /\ front_is p (rootNode k) = true
     end) ->
  exists m, readPathLines m0 lines = Ok m.
Proof.
  induction lines as [|l lines IH]; intros m0 Hwf Hinv; simpl.
  - eauto.
  - inversion Hwf as [|? ? Hl Hwf']; subst.
    pose proof (Hinv (id (line_pivot l))) as Hk.
    rewrite recordsOf_cons, N.eqb_refl in Hk.
    assert (Hacc :
      let p := default [rootNode (id (line_pivot l))]
                 (m0 !! id (line_pivot l)) in
      if isRC (line_pivot l)
      then front_is p (rootNode (id (line_pivot l))) = true
      else p = [rootNode (id (line_pivot l))]).
    { destruct (m0 !! id (line_pivot l)) as [p|]; simpl.
      - destruct Hk as [Hk|(r & Hk & Hr & Hfront)]; [discriminate|].
        injection Hk as <- _. rewrite Hr. exact Hfront.
      - destruct (isRC (line_pivot l)); [|reflexivity].
        unfold MergeNode_eqb. simpl. now rewrite N.eqb_refl. }
    rewrite (readPathLine_accepts m0 l Hl Hacc). cbn [mbind result_bind].
    apply IH; [exact Hwf'|].
    intros k. destruct (N.eq_dec (id (line_pivot l)) k) as [Heq|Hne].
    + subst k. rewrite lookup_insert_eq.
      destruct (m0 !! id (line_pivot l)) as [p|] eqn:Hp; simpl in *.
      * destruct Hk as [Hk|(r & Hk & Hr & Hfront)]; [discriminate|].
        injection Hk as _ Hrest. now left.
      * destruct (recordsOf (id (line_pivot l)) lines) as [|r [|r' rest]];
          simpl in Hk; [now left | | contradiction].
        destruct Hk as [Hf Hr]. rewrite Hf. right. exists r.
        split; [reflexivity|]. split; [exact Hr|].
        simpl. unfold MergeNode_eqb. simpl. now rewrite N.eqb_refl.
    + rewrite lookup_insert_ne by assumption.
      specialize (Hinv k). rewrite recordsOf_cons in Hinv.
      destruct (N.eqb_spec (id (line_pivot l)) k); [contradiction|].
      exact Hinv.
Qed.

(** X7: a file of well-formed lines in which every root has at most one
    forward record, followed by at most one reverse record, is read without
    any assertion failing; the path stored for a root is then the reversed
    tail of its reverse record, the root, and the tail of its forward
    record. *)
Theorem ordered_file_accepted lines :
  Forall (fun l => line_wf l = true) lines ->
  (forall k, forwardThenReverse (recordsOf k lines)) ->
  exists m,
    readPathsFromFile lines ∅ = Ok m
    /\ forall k p, m !! k = Some p ->
         p = rev (tailsOf true k lines) ++ rootNode k :: tailsOf false k lines.
Proof.
  intros Hwf Hord. unfold readPathsFromFile.
  destruct (readPathLines_accepts lines ∅ Hwf) as [m Hm].
  { intros k. rewrite lookup_empty. apply Hord. }
  exists m. split; [exact Hm|].
  intros k p Hp. pose proof (readPathLines_shape _ _ _ _ _ Hm Hp) as E.
  rewrite lookup_empty in E. exact E.
Qed.

Lemma ordered_file_accepted_witness :
  exists m, readPathsFromFile [rec_7_plus; rec_7_minus] ∅ = Ok m.
Proof.
  destruct (ordered_file_accepted [rec_7_plus; rec_7_minus]) as (m & Hm & _).
  - constructor; [reflexivity|]. constructor; [reflexivity | constructor].
  - intros k. unfold recordsOf. cbn -[N.eqb].
    destruct (N.eqb 7 k); simpl; [split; reflexivity | exact I].
  - exists m. exact Hm.
Defined.

(** ** The splicer, further *)

(** The common part of the two directions of [mergeSequences]. *)
Lemma splice_core (left right : list ascii) (ov : nat)
    (mk : list ascii -> list ascii -> failure) :
  (Z.of_nat ov < SIZE_MAX1)%Z ->
  (leftEnd ← substr left
               (sub_size_t (Z.of_nat (length left)) (Z.of_nat ov))
               (Z.of_nat ov);
   rightBegin ← substr right 0 (Z.of_nat ov);
   (if negb (Sequence_eqb leftEnd rightBegin)
    then Abort (mk leftEnd rightBegin) else Ok tt) ;;
   rest ← substr_from right (Z.of_nat ov);
   Ok (left ++ rest))
  = if length left <? ov then Abort OutOfRange
    else if Sequence_eqb (skipn (length left - ov) left) (firstn ov right)
         then Ok (left ++ skipn ov right)
         else Abort (mk (skipn (length left - ov) left) (firstn ov right)).
Proof.
  intros Hov. unfold substr, substr_from, sub_size_t.
  destruct (Nat.ltb_spec (length left) ov) as [Hlt|Hge].
  - destruct (Z.leb_spec (Z.of_nat ov) (Z.of_nat (length left))); [lia|].
    destruct (Z.ltb_spec (Z.of_nat (length left))
                (Z.of_nat (length left) - Z.of_nat ov + SIZE_MAX1));
      [reflexivity|].
    unfold SIZE_MAX1 in *. lia.
  - destruct (Z.leb_spec (Z.of_nat ov) (Z.of_nat (length left))); [|lia].
    destruct (Z.ltb_spec (Z.of_nat (length left))
                (Z.of_nat (length left) - Z.of_nat ov)); [lia|].
    cbn [mbind result_bind].
    rewrite !dropZ_skipn, !takeZ_firstn by lia.
    replace (Z.to_nat (Z.of_nat (length left) - Z.of_nat ov))
      with (length left - ov) by lia.
    rewrite !Nat2Z.id. change (Z.to_nat 0) with 0.
    rewrite (firstn_all2 (skipn (length left - ov) left))
      by (rewrite length_skipn; lia).
    destruct (Z.ltb_spec (Z.of_nat (length right)) 0); [lia|].
    cbn [mbind result_bind]. change (skipn 0 right) with right.
    destruct (Sequence_eqb (skipn (length left - ov) left) (firstn ov right))
      eqn:E; cbn [negb mbind result_bind]; [|reflexivity].
    apply Sequence_eqb_eq in E.
    assert (Hlen : ov <= length right).
    { assert (Hl : length (skipn (length left - ov) left)
                   = length (firstn ov right)) by now rewrite E.
      rewrite length_skipn, length_firstn in Hl. lia. }
    destruct (Z.ltb_spec (Z.of_nat (length right)) (Z.of_nat ov)); [lia|].
    reflexivity.
Qed.

Lemma mergeSequences_dir `{Alphabet} (rootContig otherContig : list ascii)
    (dir : extDirection) (isReversed : bool) (kmer : Z) :
  (1 <= kmer < SIZE_MAX1)%Z ->
  let ov := Z.to_nat (kmer - 1) in
  let left := leftOf rootContig otherContig dir isReversed in
  let right := rightOf rootContig otherContig dir isReversed in
  mergeSequences rootContig otherContig dir isReversed kmer =
    if length left <? ov then Abort OutOfRange
    else if Sequence_eqb (skipn (length left - ov) left) (firstn ov right)
         then Ok (left ++ skipn ov right)
         else Abort (OverlapViolation rootContig otherContig dir isReversed
                       (skipn (length left - ov) left) (firstn ov right)).
Proof.
  intros Hk ov left right. unfold mergeSequences.
  assert (Hov : sub_size_t kmer 1 = Z.of_nat ov).
  { unfold sub_size_t. destruct (Z.leb_spec 1 kmer); subst ov; lia. }
  rewrite Hov. subst left right. unfold leftOf, rightOf.
  destruct dir; cbn zeta beta iota;
    apply (splice_core _ _ ov
             (OverlapViolation rootContig otherContig _ isReversed));
    subst ov; lia.
Qed.

Lemma length_left_right `{Alphabet} rootContig otherContig dir isReversed :
  length (leftOf rootContig otherContig dir isReversed)
  + length (rightOf rootContig otherContig dir isReversed)
  = length rootContig + length otherContig.
Proof.
  unfold leftOf, rightOf.
  destruct dir, isReversed; rewrite ?length_reverseComplement; lia.
Qed.

(** X8: [mergeSequences], in either direction and for a k-mer size
    [kmer >= 1], returns exactly when the last [kmer - 1] symbols of the left
    sequence are the first [kmer - 1] symbols of the right one.  The new
    contig then starts with the whole left sequence and ends with the whole
    right sequence, and has [kmer - 1] symbols fewer than the two
    together. *)
Theorem mergeSequences_splices `{Alphabet} (rootContig otherContig : list ascii)
    (dir : extDirection) (isReversed : bool) (kmer : Z) :
  (1 <= kmer < SIZE_MAX1)%Z ->
  let ov := Z.to_nat (kmer - 1) in
  let left := leftOf rootContig otherContig dir isReversed in
  let right := rightOf rootContig otherContig dir isReversed in
  ((exists merged,
      mergeSequences rootContig otherContig dir isReversed kmer = Ok merged)
   <-> windowMatches ov left right)
  /\ forall merged,
       mergeSequences rootContig otherContig dir isReversed kmer = Ok merged ->
       merged = left ++ skipn ov right
       /\ merged = firstn (length left - ov) left ++ right
       /\ (Z.of_nat (length merged)
           = Z.of_nat (length rootContig) + Z.of_nat (length otherContig)
             - (kmer - 1))%Z.
Proof.
  intros Hk ov left right.
  rewrite (mergeSequences_dir _ _ _ _ _ Hk). fold ov left right.
  split.
  - rewrite windowMatches_dec.
    destruct (length left <? ov); [split; [intros [? ?]|intros [? _]]; discriminate|].
    destruct (Sequence_eqb _ _).
    + split; eauto.
    + split; [intros [? ?]|intros [_ ?]]; discriminate.
  - intros merged Hrun.
    destruct (Nat.ltb_spec (length left) ov) as [|Hge]; [discriminate|].
    destruct (Sequence_eqb _ _) eqn:E; [|discriminate].
    injection Hrun as <-. apply Sequence_eqb_eq in E.
    assert (Hlen : ov <= length right).
    { assert (Hl : length (skipn (length left - ov) left)
                   = length (firstn ov right)) by now rewrite E.
      rewrite length_skipn, length_firstn in Hl. lia. }
    split; [reflexivity|]. split.
    + rewrite <- (firstn_skipn ov right) at 2. rewrite <- E.
      rewrite app_assoc, firstn_skipn. reflexivity.
    + rewrite length_app, length_skipn.
      pose proof (length_left_right rootContig otherContig dir isReversed)
        as Hsum. fold left right in Hsum. lia.
Qed.

Lemma mergeSequences_splices_witness :
  mergeSequences (H := nucleotide) (list_ascii_of_string "GTAC")
    (list_ascii_of_string "ACGT") ANTISENSE false 3
  = Ok (list_ascii_of_string "ACGTAC").
Proof.
  destruct (mergeSequences_splices (H := nucleotide)
    (list_ascii_of_string "GTAC") (list_ascii_of_string "ACGT")
    ANTISENSE false 3 ltac:(unfold SIZE_MAX1; lia)) as [[_ Hrun] Hres].
  destruct Hrun as [merged Hm].
  - unfold windowMatches. simpl. repeat split; solve [lia | reflexivity].
  - rewrite Hm. destruct (Hres merged Hm) as (-> & _). reflexivity.
Defined.

(** What a completed loop of [mergePath] tells of the nodes it visited. *)
Lemma splice_tail_complete `{Alphabet} sourceContigs kmer ns :
  forall acc cov acc' cov',
  (1 <= kmer < SIZE_MAX1)%Z ->
  forEach (mergeNode sourceContigs kmer) (acc, cov) ns = Ok (acc', cov') ->
  exists cs,
    Forall2 (fun n c => nth_error sourceContigs (N.to_nat (id n)) = Some c)
      ns cs
    /\ Forall nonEmpty cs
    /\ JointOverlap (Z.to_nat (kmer - 1)) acc (orientedSeqs ns cs)
    /\ acc' = spliced (Z.to_nat (kmer - 1)) acc (orientedSeqs ns cs).
Proof.
  induction ns as [|n ns IH]; intros acc cov acc' cov' Hk Hrun.
  - injection Hrun as <- <-. exists []. repeat split; constructor.
  - rewrite forEach_cons in Hrun. inv_bind_as Hrun st Hstep.
    destruct st as [acc1 cov1].
    assert (Hc : exists c,
      nth_error sourceContigs (N.to_nat (id n)) = Some c /\ nonEmpty c).
    { unfold mergeNode in Hstep. inv_bind_as Hstep c Hc.
      inv_bind_as Hstep ok Hok. apply at_index_Ok in Hc.
      apply assert_inv in Hok. exists c. split; [exact Hc|].
      unfold nonEmpty. destruct (seq c); [discriminate | discriminate]. }
    destruct Hc as (c & Hc & Hne).
    rewrite (mergeNode_step _ _ _ _ _ c Hk Hc Hne) in Hstep.
    destruct (length acc <? Z.to_nat (kmer - 1)) eqn:Hlt; [discriminate|].
    destruct (Sequence_eqb _ _) eqn:Heq; [|discriminate].
    injection Hstep as <- <-.
    destruct (IH _ _ _ _ Hk Hrun) as (cs & Hcs & Hnes & Hjo & ->).
    exists (c :: cs). split; [constructor; assumption|].
    split; [constructor; assumption|]. split; [|reflexivity].
    simpl. split; [apply windowMatches_dec; auto | exact Hjo].
Qed.

Lemma spliced_prefix ov ss : forall acc,
  exists suf, spliced ov acc ss = acc ++ suf.
Proof.
  induction ss as [|s ss IH]; intros acc; simpl.
  - exists []. now rewrite app_nil_r.
  - destruct (IH (acc ++ skipn ov s)) as [suf Hsuf].
    exists (skipn ov s ++ suf). unfold spliced in *. simpl.
    rewrite Hsuf, <- app_assoc. reflexivity.
Qed.

Lemma spliced_suffix ov ss : forall acc,
  JointOverlap ov acc ss ->
  forall s, last (acc :: ss) = Some s ->
  exists pre, spliced ov acc ss = pre ++ s.
Proof.
  induction ss as [|s0 ss IH]; intros acc Hjo s Hlast.
  - injection Hlast as <-. exists []. reflexivity.
  - destruct Hjo as [(Ha & Hs0 & Hw) Hjo].
    destruct ss as [|s1 ss].
    + simpl in Hlast. injection Hlast as <-.
      exists (firstn (length acc - ov) acc). unfold spliced. simpl.
      rewrite <- (firstn_skipn ov s0) at 2. rewrite <- Hw.
      rewrite app_assoc, firstn_skipn. reflexivity.
    + apply (IH (acc ++ skipn ov s0) Hjo s). exact Hlast.
Qed.

(** X9: what a record written by [mergePath] guarantees, for a k-mer size
    [1 <= k <= INT_MAX].  The path is not empty, every contig it names is in
    the table and has a non-empty sequence, and every window matched; the
    record carries the id and the path it was given and the length of its
    sequence, which starts with the oriented sequence of the first contig
    and ends with that of the last one.  [mergePath] therefore never writes
    a record for an empty path, an unknown contig id or an empty contig. *)
Theorem mergePath_record `{Alphabet} cID sourceContigs path count k r :
  (1 <= k < INT_MAX1)%Z ->
  mergePath cID sourceContigs path count k = Ok r ->
  exists n0 ns c0 cs,
    path = n0 :: ns
    /\ pathContigs sourceContigs path = Some (c0 :: cs)
    /\ Forall nonEmpty (c0 :: cs)
    /\ JointOverlap (Z.to_nat (k - 1)) (oriented n0 c0) (orientedSeqs ns cs)
    /\ fa_id r = count /\ fa_path r = path
    /\ fa_length r = length (fa_seq r)
    /\ (exists suf, fa_seq r = oriented n0 c0 ++ suf)
    /\ (forall s, last (oriented n0 c0 :: orientedSeqs ns cs) = Some s ->
          exists pre, fa_seq r = pre ++ s).
Proof.
  intros Hk Hrun.
  assert (Hk' : (1 <= k < SIZE_MAX1)%Z) by (unfold INT_MAX1, SIZE_MAX1 in *; lia).
  unfold mergePath in Hrun.
  inv_bind_as Hrun ok Hok. inv_bind_as Hrun n0 Hn0.
  inv_bind_as Hrun c0 Hc0. inv_bind_as Hrun ok' Hok'.
  inv_bind_as Hrun st Hloop. destruct st as [merged cov].
  injection Hrun as <-.
  destruct path as [|n0' ns]; [discriminate|].
  injection Hn0 as ->. simpl in Hloop.
  apply at_index_Ok in Hc0. apply assert_inv in Hok'.
  fold (oriented n0 c0) in Hok', Hloop.
  assert (Hne0 : nonEmpty c0).
  { unfold nonEmpty. rewrite length_oriented in Hok'.
    destruct (seq c0); discriminate. }
  destruct (splice_tail_complete _ _ _ _ _ _ _ Hk' Hloop)
    as (cs & Hcs & Hnes & Hjo & ->).
  exists n0, ns, c0, cs.
  split; [reflexivity|].
  split; [unfold pathContigs; apply mapM_Some_2; constructor; assumption|].
  split; [constructor; assumption|].
  split; [exact Hjo|]. do 3 (split; [reflexivity|]). cbn [fa_seq].
  split; [apply spliced_prefix | apply spliced_suffix; exact Hjo].
Qed.

Lemma mergePath_record_witness :
  exists suf, list_ascii_of_string "ACGTACCA"
              = oriented (H := nucleotide) (node 4 false)
                  (contig "4" "ACGT" 7) ++ suf.
Proof.
  destruct (mergePath_record (H := nucleotide) 4 sampleContigs
    [node 4 false; node 5 false; node 6 true] 7 3
    {| fa_id := 7; fa_length := 8; fa_coverage := 12;
       fa_path := [node 4 false; node 5 false; node 6 true];
       fa_seq := list_ascii_of_string "ACGTACCA" |})
    as (n0 & ns & c0 & cs & Hpath & Hcs & _ & _ & _ & _ & _ & Hpre & _).
  - unfold INT_MAX1. lia.
  - vm_compute. reflexivity.
  - injection Hpath as <- <-. vm_compute in Hcs. injection Hcs as <- <-.
    exact Hpre.
Defined.

(** ** FASTA mode, further *)

Lemma lengthCheck_guard k c :
  lengthCheck k c ->
  (if (0 <? coverage c)%Z
   then assert "(int)contig.seq.length() - opt::k + 1 > 0"
          (0 <? (Z.of_nat (length (seq c)) - k + 1) mod UINT_MAX1)%Z
   else Ok tt) = Ok tt.
Proof.
  intros Hc.
  assert (Hpos : (0 <= (Z.of_nat (length (seq c)) - k + 1) mod UINT_MAX1)%Z)
    by (apply Z.mod_pos_bound; reflexivity).
  destruct (Z.ltb_spec 0 (coverage c)) as [Hcov|]; [|reflexivity].
  specialize (Hc Hcov).
  destruct (Z.ltb_spec 0
    ((Z.of_nat (length (seq c)) - k + 1) mod UINT_MAX1));
    [reflexivity | lia].
Qed.

Lemma writeUnused_loop (seen : gset N) k l : forall acc,
  let body := fun out '(i, contig) =>
      let out := if decide (N.of_nat i ∈ seen) then out
                 else out ++ [Unmerged contig] in
      (if (0 <? coverage contig)%Z
       then assert "(int)contig.seq.length() - opt::k + 1 > 0"
              (0 <? (Z.of_nat (length (seq contig)) - k + 1) mod UINT_MAX1)%Z
       else Ok tt) ;;
      Ok out in
  (Forall (fun ic => lengthCheck k (snd ic)) l ->
   forEach body acc l
   = Ok (acc ++ map Unmerged
           (omap (fun '(i, c) =>
              if decide (N.of_nat i ∈ seen) then None else Some c) l)))
  /\ (forall out, forEach body acc l = Ok out ->
        Forall (fun ic => lengthCheck k (snd ic)) l).
Proof.
  induction l as [|[i c] l IH]; intros acc body; subst body.
  - split; [intros _; simpl; now rewrite app_nil_r | constructor].
  - split.
    + intros Hall. inversion Hall as [|? ? Hc Hl]; subst.
      rewrite forEach_cons. cbn beta iota zeta.
      rewrite (lengthCheck_guard k c Hc).
      cbn [mbind result_bind].
      destruct (IH (if decide (N.of_nat i ∈ seen) then acc
                    else acc ++ [Unmerged c])) as [Heq _].
      cbn beta iota zeta in Heq. rewrite (Heq Hl).
      simpl. destruct (decide (N.of_nat i ∈ seen)); [reflexivity|].
      simpl. now rewrite <- app_assoc.
    + intros out Hrun. rewrite forEach_cons in Hrun.
      inv_bind_as Hrun out1 Hstep.
      cbn beta iota zeta in Hstep. inv_bind_as Hstep ok Hok.
      constructor.
      * unfold lengthCheck. simpl. intros Hcov.
        assert (Hpos : (0 <= (Z.of_nat (length (seq c)) - k + 1)
                             mod UINT_MAX1)%Z)
          by (apply Z.mod_pos_bound; reflexivity).
        destruct (Z.ltb_spec 0 (coverage c)); [|lia].
        apply assert_inv in Hok. apply Z.ltb_lt in Hok. lia.
      * destruct (IH out1) as [_ Hinv]. eapply Hinv. exact Hrun.
Qed.

Lemma map_snd_imap {A} (g : nat -> nat) (l : list A) :
  map snd (imap (fun i c => (g i, c)) l) = l.
Proof.
  revert g. induction l as [|x l IH]; intros g; simpl; [reflexivity|].
  f_equal. apply (IH (fun i => g (S i))).
Qed.

Lemma writeUnused_spec contigVec seen k :
  (Forall (lengthCheck k) contigVec ->
   writeUnused contigVec seen k
   = Ok (map Unmerged (unusedContigs contigVec seen)))
  /\ (forall out, writeUnused contigVec seen k = Ok out ->
        Forall (lengthCheck k) contigVec).
Proof.
  unfold writeUnused, unusedContigs.
  destruct (writeUnused_loop seen k (imap (fun i c => (i, c)) contigVec) [])
    as [Hok Hinv].
  assert (Hall : Forall (fun ic : nat * Contig => lengthCheck k (snd ic))
                   (imap (fun i c => (i, c)) contigVec)
                 <-> Forall (lengthCheck k) contigVec).
  { rewrite <- (map_snd_imap (fun i => i) contigVec) at 2.
    rewrite List.Forall_map. reflexivity. }
  split.
  - intros H. apply Hall in H. exact (Hok H).
  - intros out H. apply Hall. exact (Hinv out H).
Qed.

(** X10: the loop of [main] over the input contigs writes, in input order,
    exactly the contigs whose index occurs in no merged path, and nothing
    else; it completes exactly when its assertion holds of every contig. *)
Theorem unused_contigs_written contigVec seen k :
  ((exists out, writeUnused contigVec seen k = Ok out)
   <-> Forall (lengthCheck k) contigVec)
  /\ forall out, writeUnused contigVec seen k = Ok out ->
       out = map Unmerged (unusedContigs contigVec seen).
Proof.
  destruct (writeUnused_spec contigVec seen k) as [Hok Hinv].
  split; [split|].
  - intros [out H]. eapply Hinv. exact H.
  - intros H. eauto.
  - intros out H. specialize (Hok (Hinv out H)). congruence.
Qed.

(** X11: the assertion [(int)contig.seq.length() - opt::k + 1 > 0] is
    evaluated on [unsigned], where the difference wraps around: for a positive
    k-mer size and a length below [2^32] it fails only for a contig of positive
    coverage whose length is exactly [k - 1], and a shorter contig passes
    it. *)
Theorem length_assertion_wraps k c :
  (1 <= k < UINT_MAX1)%Z ->
  (Z.of_nat (length (seq c)) < UINT_MAX1)%Z ->
  (lengthCheck k c
   <-> (coverage c <= 0)%Z \/ (Z.of_nat (length (seq c)) + 1 <> k)%Z).
Proof.
  intros Hk Hlen. unfold lengthCheck.
  assert (HU : UINT_MAX1 = 4294967296%Z) by reflexivity.
  assert (Hlen0 : (0 <= Z.of_nat (length (seq c)))%Z) by lia.
  set (len := Z.of_nat (length (seq c))) in *. clearbody len.
  assert (Hmod : ((len - k + 1) mod UINT_MAX1 = 0 <-> len + 1 = k)%Z).
  { split.
    - intros H0.
      destruct (Z.le_gt_cases k (len + 1)).
      + rewrite Z.mod_small in H0 by lia. lia.
      + replace (len - k + 1)%Z
          with ((len - k + 1 + UINT_MAX1) + (-1) * UINT_MAX1)%Z in H0 by lia.
        rewrite Z.mod_add in H0 by lia.
        rewrite Z.mod_small in H0 by lia. lia.
    - intros <-. replace (len - (len + 1) + 1)%Z with 0%Z by lia.
      reflexivity. }
  rewrite Hmod. split.
  - intros H. destruct (Z.le_gt_cases (coverage c) 0); [now left|].
    right. apply H. lia.
  - intros [H|H] Hcov; [lia | exact H].
Qed.

Lemma length_assertion_wraps_witness :
  lengthCheck 4 (contig "s" "A" 9)
  /\ ~ lengthCheck 4 (contig "t" "ACG" 9).
Proof.
  split.
  - apply (length_assertion_wraps 4 (contig "s" "A" 9)).
    + unfold UINT_MAX1. lia.
    + unfold UINT_MAX1. simpl. lia.
    + right. simpl. lia.
  - intros H.
    apply (length_assertion_wraps 4 (contig "t" "ACG" 9)) in H.
    + destruct H as [H|H]; simpl in H; lia.
    + unfold UINT_MAX1. lia.
    + unfold UINT_MAX1. simpl. lia.
Defined.

Lemma In_unusedContigs_gen (seen : gset N) (l : list Contig) :
  forall (g : nat -> nat) (c : Contig),
  In c (omap (fun '(i, c) =>
                if decide (N.of_nat i ∈ seen) then None else Some c)
          (imap (fun i c => (g i, c)) l))
  <-> exists i, nth_error l i = Some c /\ N.of_nat (g i) ∉ seen.
Proof.
  induction l as [|x l IH]; intros g c.
  - simpl. split; [tauto|]. intros [[|i] [Hi _]]; discriminate.
  - simpl. specialize (IH (fun i => g (S i)) c).
    change (imap ((fun i c => (g i, c)) ∘ S) l)
      with (imap (fun i c => (g (S i), c)) l).
    destruct (decide (N.of_nat (g 0) ∈ seen)) as [Hin|Hout].
    + rewrite IH. split.
      * intros [i Hi]. exists (S i). exact Hi.
      * intros [[|i] [Hi Hs]].
        -- simpl in Hi. injection Hi as <-. contradiction.
        -- exists i. split; assumption.
    + simpl. rewrite IH. split.
      * intros [<-|[i Hi]].
        -- exists 0. split; [reflexivity | exact Hout].
        -- exists (S i). exact Hi.
      * intros [[|i] [Hi Hs]].
        -- left. simpl in Hi. congruence.
        -- right. exists i. split; assumption.
Qed.

Lemma In_unusedContigs contigVec seen c :
  In c (unusedContigs contigVec seen)
  <-> exists i, nth_error contigVec i = Some c /\ N.of_nat i ∉ seen.
Proof. apply (In_unusedContigs_gen seen contigVec (fun i => i)). Qed.

Lemma elem_of_getContigIDs paths i :
  i ∈ getContigIDs paths
  <-> exists path n, In path paths /\ In n path /\ id n = i.
Proof.
  unfold getContigIDs. rewrite elem_of_list_to_set, list_elem_of_In.
  rewrite in_map_iff. split.
  - intros [n [Hid Hn]]. apply in_concat in Hn as [path [Hpath Hn]].
    exists path, n. auto.
  - intros [path [n [Hpath [Hn Hid]]]]. exists n. split; [exact Hid|].
    apply in_concat. exists path. auto.
Qed.

Lemma mergePath_fa_path `{Alphabet} cID sourceContigs path count kmer r :
  mergePath cID sourceContigs path count kmer = Ok r -> fa_path r = path.
Proof.
  unfold mergePath. intros Hrun.
  inv_bind_as Hrun ok Hok. inv_bind_as Hrun firstNode Hfirst.
  inv_bind_as Hrun firstContig Hcontig. inv_bind_as Hrun ok' Hok'.
  inv_bind_as Hrun st Hloop. destruct st as [merged cov].
  injection Hrun as <-. reflexivity.
Qed.

Lemma writeMerged_shape `{Alphabet} contigVec k paths :
  forall out first out' last,
  wrap_int first = first ->
  writeMerged contigVec k paths out first = Ok (out', last) ->
  exists merged,
    out' = out ++ map Merged merged
    /\ Forall2 (fun path r =>
         fa_path r = path
         /\ exists front, head path = Some front
            /\ mergePath (id front) contigVec path (fa_id r)
                 (int_of_unsigned k) = Ok r) paths merged
    /\ map fa_id merged
       = map (fun i => wrap_int (first + Z.of_nat i))
           (List.seq 0 (length paths)).
Proof.
  unfold writeMerged.
  induction paths as [|p paths IH]; intros out first out' last Hfirst Hrun;
    simpl in Hrun.
  - injection Hrun as <- <-. exists []. simpl.
    rewrite app_nil_r. repeat split. constructor.
  - inv_bind_as Hrun st1 Hstep. destruct st1 as [out1 id1].
    inv_bind_as Hstep front Hfront.
    inv_bind_as Hstep r Hr. injection Hstep as <- <-.
    destruct (IH _ _ _ _ (wrap_int_idem _) Hrun) as [merged [-> [Hall Hids]]].
    exists (r :: merged). split; [|split].
    + simpl. now rewrite <- app_assoc.
    + constructor; [|exact Hall].
      split; [exact (mergePath_fa_path _ _ _ _ _ _ Hr)|].
      exists front. split.
      * apply at_index_Ok in Hfront. destruct p; [discriminate|].
        simpl in *. exact Hfront.
      * rewrite (mergePath_fa_id _ _ _ _ _ _ Hr). exact Hr.
    + simpl. rewrite (mergePath_fa_id _ _ _ _ _ _ Hr), Hids, Z.add_0_r, Hfirst.
      f_equal. rewrite <- seq_shift, map_map. apply map_ext. intros i.
      rewrite wrap_int_add_l. f_equal. lia.
Qed.

Lemma fastaOutput_shape `{Alphabet} contigVec paths k out :
  fastaOutput contigVec paths k = Ok out ->
  exists unused merged lastContig first,
    out = map Unmerged unused ++ map Merged merged
    /\ unused = unusedContigs contigVec (getContigIDs paths)
    /\ (forall c, In c unused
          <-> exists i, nth_error contigVec i = Some c
                /\ forall path n, In path paths -> In n path ->
                     id n <> N.of_nat i)
    /\ Forall2 (fun path r =>
         fa_path r = path
         /\ exists front, head path = Some front
            /\ mergePath (id front) contigVec path (fa_id r)
                 (int_of_unsigned k) = Ok r) paths merged
    /\ nth_error contigVec (length contigVec - 1) = Some lastContig
    /\ extractInt (name lastContig) = Some first
    /\ map fa_id merged
       = map (fun i => wrap_int (first + Z.of_nat i))
           (List.seq 0 (length paths)).
Proof.
  unfold fastaOutput. intros Hrun.
  inv_bind_as Hrun unused Hunused. inv_bind_as Hrun lastContig Hlast.
  destruct (extractInt (name lastContig)) as [first|] eqn:Hfirst;
    [|discriminate].
  inv_bind_as Hrun st Hmerged. destruct st as [out' last].
  injection Hrun as <-.
  destruct (writeMerged_shape _ _ _ _ _ _ _
              (wrap_int_small _ (extractInt_range _ _ Hfirst)) Hmerged)
    as [merged [-> [Hall Hids]]].
  destruct (writeUnused_spec contigVec (getContigIDs paths) k) as [Hok Hinv].
  specialize (Hok (Hinv _ Hunused)).
  assert (Hu : unused
               = map Unmerged (unusedContigs contigVec (getContigIDs paths)))
    by congruence.
  exists (unusedContigs contigVec (getContigIDs paths)), merged, lastContig,
    first.
  split; [now rewrite Hu|]. split; [reflexivity|].
  split; [|split; [assumption|split; [now apply at_index_Ok|split; assumption]]].
  intros c. rewrite In_unusedContigs. split.
  - intros [i [Hi Hnot]]. exists i. split; [exact Hi|].
    intros path n Hpath Hn Hid. apply Hnot.
    apply elem_of_getContigIDs. exists path, n. auto.
  - intros [i [Hi Hnot]]. exists i. split; [exact Hi|].
    intros Hin. apply elem_of_getContigIDs in Hin
      as [path [n [Hpath [Hn Hid]]]].
    exact (Hnot path n Hpath Hn Hid).
Qed.

(** X12: what FASTA mode writes when it completes: first the input contigs
    that no path names, unchanged and in input order, then one merged
    record per path, in the order of the paths, each the result of
    [mergePath] on that path under its own id.  The ids count up, in [int]
    arithmetic, from the number that [s >> id] has stored for the name of
    the last contig: the number the name starts with, 0 for a name that
    does not start with one, the nearest bound of [int] for a number that
    does not fit. *)
Theorem fasta_output_layout `{Alphabet} contigVec paths k out :
  fastaOutput contigVec paths k = Ok out ->
  exists unused merged lastContig first,
    out = map Unmerged unused ++ map Merged merged
    /\ unused = unusedContigs contigVec (getContigIDs paths)
    /\ (forall c, In c unused
          <-> exists i, nth_error contigVec i = Some c
                /\ forall path n, In path paths -> In n path ->
                     id n <> N.of_nat i)
    /\ Forall2 (fun path r =>
         fa_path r = path
         /\ exists front, head path = Some front
            /\ mergePath (id front) contigVec path (fa_id r)
                 (int_of_unsigned k) = Ok r) paths merged
    /\ nth_error contigVec (length contigVec - 1) = Some lastContig
    /\ extractInt (name lastContig) = Some first
    /\ map fa_id merged
       = map (fun i => wrap_int (first + Z.of_nat i))
           (List.seq 0 (length paths)).
Proof. apply fastaOutput_shape. Qed.

Lemma fasta_output_layout_witness :
  let out := [Unmerged (contig "c" "TTTT" 2);
              Merged {| fa_id := 0; fa_length := 6; fa_coverage := 10;
                        fa_path := path01;
                        fa_seq := list_ascii_of_string "ACGTAC" |}] in
  fastaOutput (H := nucleotide) namedContigs [path01] 3 = Ok out
  /\ exists unused merged lastContig first,
       out = map Unmerged unused ++ map Merged merged
       /\ unused = unusedContigs namedContigs (getContigIDs [path01])
       /\ (forall c, In c unused
             <-> exists i, nth_error namedContigs i = Some c
                   /\ forall path n, In path [path01] -> In n path ->
                        id n <> N.of_nat i)
       /\ Forall2 (fun path r =>
            fa_path r = path
            /\ exists front, head path = Some front
               /\ mergePath (H := nucleotide) (id front) namedContigs path
                    (fa_id r) (int_of_unsigned 3) = Ok r) [path01] merged
       /\ nth_error namedContigs (length namedContigs - 1) = Some lastContig
       /\ extractInt (name lastContig) = Some first
       /\ map fa_id merged
          = map (fun i => wrap_int (first + Z.of_nat i))
              (List.seq 0 (length [path01])).
Proof.
  intros out. split; [vm_compute; reflexivity|].
  apply (fasta_output_layout (H := nucleotide) namedContigs [path01] 3 out).
  vm_compute. reflexivity.
Defined.

(** ** The reference parameters of [checkPathConsistency] *)

Lemma liftR_refl {S} (R : S -> S -> Prop) r :
  (forall s, R s s) -> liftR R r r.
Proof. intros Hrefl. destruct r; simpl; auto. Qed.

Lemma seedPair_ignores_range path1 max1 max2 st st' c1 c2 :
  sameScan st st' ->
  seedPair path1 max1 max2 st c1 c2 = seedPair path1 max1 max2 st' c1 c2.
Proof.
  intros (Hp & Hf & Ha). unfold seedPair. rewrite Hp, Hf, Ha. reflexivity.
Qed.

Lemma forEach_liftR {A S} (R : S -> S -> Prop) (body : S -> A -> result S) :
  (forall s s' x, R s s' -> liftR R (body s x) (body s' x)) ->
  forall l s s', R s s' -> liftR R (forEach body s l) (forEach body s' l).
Proof.
  intros Hbody. induction l as [|x l IH]; intros s s' Hs; simpl.
  - exact Hs.
  - specialize (Hbody s s' x Hs).
    destruct (body s x) as [t|f], (body s' x) as [t'|f']; simpl in *;
      try contradiction; [apply IH; exact Hbody | exact Hbody].
Qed.

Lemma sameScan_refl st : sameScan st st.
Proof. repeat split. Qed.

Lemma alignSeeds_ignores_range path1 max1 max2 coords1 coords2 st st' :
  sameScan st st' ->
  liftR sameScan (alignSeeds path1 max1 max2 coords1 coords2 st)
    (alignSeeds path1 max1 max2 coords1 coords2 st').
Proof.
  intros Hs. unfold alignSeeds.
  apply forEach_liftR; [|exact Hs].
  intros s s' c1 Hss. apply forEach_liftR; [|exact Hss].
  intros t t' c2 Htt. rewrite (seedPair_ignores_range _ _ _ t t' _ _ Htt).
  apply liftR_refl, sameScan_refl.
Qed.

Lemma sameVerdict_refl r : sameVerdict r r.
Proof. destruct r as [[[v p] rg]|f]; simpl; auto. Qed.

Lemma sameVerdict_bind {A} (r : result A) k k' :
  (forall a, r = Ok a -> sameVerdict (k a) (k' a)) ->
  sameVerdict (r ≫= k) (r ≫= k').
Proof. intros Hk. destruct r as [a|f]; simpl; [now apply Hk | reflexivity]. Qed.

Lemma resolve_ignores_range path1 max1 max2 st st' :
  sameScan st st' ->
  sameVerdict (resolve path1 max1 max2 st) (resolve path1 max1 max2 st').
Proof.
  intros (Hp & Hf & Ha). unfold resolve. rewrite <- Ha, <- Hp, <- Hf.
  destruct (biggest (sc_alignments st)) as [[count b]|].
  2:{ simpl. repeat split. discriminate. }
  apply sameVerdict_bind. intros _ _.
  apply sameVerdict_bind. intros _ _.
  destruct (duplicateSize b && negb (Nat.eqb count (Nat.min max1 max2))).
  { simpl. repeat split. discriminate. }
  apply sameVerdict_refl.
Qed.

Lemma checkPathConsistency_ignores path1Root path2Root path1 path2
    range range' :
  sameVerdict (checkPathConsistency path1Root path2Root path1 path2 range)
    (checkPathConsistency path1Root path2Root path1 path2 range').
Proof.
  unfold checkPathConsistency.
  apply sameVerdict_bind. intros _ _.
  unfold scanPaths.
  destruct (extractMinCoordSet path2Root path1 []) as [[valid1 coords1]|f];
    [|reflexivity].
  destruct (extractMinCoordSet path2Root path2 []) as [[valid2 coords2]|f];
    [|reflexivity].
  cbn [mbind result_bind].
  destruct (negb valid1 || negb valid2).
  { simpl. repeat split. discriminate. }
  pose proof (alignSeeds_ignores_range path1 (length path1 - 1)
    (length path2 - 1) coords1 coords2
    {| sc_path2 := path2; sc_flipped := false; sc_range := range;
       sc_alignments := ∅ |}
    {| sc_path2 := path2; sc_flipped := false; sc_range := range';
       sc_alignments := ∅ |} ltac:(repeat split)) as Hscan.
  destruct (alignSeeds _ _ _ _ _ _) as [st|f],
           (alignSeeds _ _ _ _ _ _) as [st'|f']; simpl in Hscan;
    try contradiction; cbn [mbind result_bind]; [|exact Hscan].
  apply resolve_ignores_range. exact Hscan.
Qed.

(** X13: [checkPathConsistency] never reads what its four reference
    parameters hold on entry, which [linkPaths] passes uninitialised: two
    calls that differ in these values only fail alike, or return the same
    boolean and leave the same [path2], and whenever the boolean is true
    the four parameters have been assigned the same range. *)
Theorem reference_parameters_never_read path1Root path2Root path1 path2
    range range' :
  sameVerdict (checkPathConsistency path1Root path2Root path1 path2 range)
    (checkPathConsistency path1Root path2Root path1 path2 range').
Proof. apply checkPathConsistency_ignores. Qed.



(** ** Linking *)

Lemma accepted_ids_agree path1Root path2Root path1 path2 range
    path2' s1 e1 s2 e2 :
  checkPathConsistency path1Root path2Root path1 path2 range
    = Ok (true, path2', (s1, e1, s2, e2)) ->
  forall c, c <= e1 - s1 -> sameIdAt path1 path2' (s1 + c) (s2 + c).
Proof.
  intros H.
  destruct (entryAssertion path1 path2) eqn:Hentry.
  2:{ unfold checkPathConsistency in H. rewrite Hentry in H. discriminate. }
  destruct (checkPathConsistency_spec path1Root path2Root path1 path2 range
              Hentry) as (o & _ & Hcheck).
  destruct o as [st|]; [|congruence]. destruct Hcheck as [Hst Hcheck].
  rewrite Hcheck in H.
  pose proof (resolve_spec path1 path2 st Hst) as Hres. simpl in Hres.
  destruct (biggest (sc_alignments st)) as [[count b]|]; [|congruence].
  destruct Hres as [Hrec Hres]. rewrite Hres in H.
  destruct (duplicateSize b && _); [discriminate|].
  injection H as <- <- <- <- <-.
  destruct Hrec as (Hs1 & He1 & Hs2 & He2 & Hc1 & Hc2 & _ & _ & Hids).
  intros c Hc. apply Hids. lia.
Qed.

Lemma addPathNodesToList_app l path : addPathNodesToList l path = l ++ path.
Proof.
  unfold addPathNodesToList. revert l.
  induction path as [|n path IH]; intros l; simpl.
  - now rewrite app_nil_r.
  - rewrite IH, <- app_assoc. reflexivity.
Qed.

Lemma slice_Ok v first last :
  first <= last <= length v ->
  slice v first last = Ok (firstn (last - first) (skipn first v)).
Proof.
  intros [H1 H2]. unfold slice.
  apply Nat.leb_le in H1, H2. now rewrite H1, H2.
Qed.

Lemma skipn_cons_nth {A} (p : list A) : forall s x,
  nth_error p s = Some x -> skipn s p = x :: skipn (S s) p.
Proof.
  induction p as [|y p IH]; intros [|s] x H; simpl in *; try discriminate.
  - now injection H as ->.
  - now apply IH.
Qed.

Lemma ids_segment p1 p2 : forall n s1 s2,
  (forall c, c < n -> sameIdAt p1 p2 (s1 + c) (s2 + c)) ->
  map id (firstn n (skipn s1 p1)) = map id (firstn n (skipn s2 p2)).
Proof.
  induction n as [|n IH]; intros s1 s2 H; [reflexivity|].
  destruct (H 0 ltac:(lia)) as (x1 & x2 & H1 & H2 & E).
  rewrite !Nat.add_0_r in *.
  rewrite (skipn_cons_nth _ _ _ H1), (skipn_cons_nth _ _ _ H2). simpl.
  f_equal; [exact E|]. apply IH. intros c Hc.
  replace (S s1 + c) with (s1 + S c) by lia.
  replace (S s2 + c) with (s2 + S c) by lia. apply H. lia.
Qed.

Lemma split3 {A} (l : list A) a b :
  a <= b ->
  l = firstn a l ++ firstn (b - a) (skipn a l) ++ skipn b l.
Proof.
  intros Hab.
  rewrite <- (firstn_skipn a l) at 1. f_equal.
  rewrite <- (firstn_skipn (b - a) (skipn a l)) at 1. f_equal.
  rewrite skipn_skipn. f_equal. lia.
Qed.

(** What one turn of the loop does without [deleteSubsumed]. *)
Lemma infix_glue {X} (A M1 B P M2 Q : list X) :
  M1 = M2 -> (A = [] \/ P = []) -> (B = [] \/ Q = []) ->
  P ++ (A ++ M1 ++ B) ++ Q = A ++ (P ++ M2 ++ Q) ++ B.
Proof.
  intros -> [-> | ->] [-> | ->]; simpl; rewrite ?app_nil_r, <- ?app_assoc;
    reflexivity.
Qed.

(** After a merge the ids of the child, in the orientation that the check
    has left it in, are a contiguous part of the ids of the new path. *)
Lemma merge_contains_child path1Root path2Root ref child range
    child' s1 e1 s2 e2 :
  checkPathConsistency path1Root path2Root ref child range
    = Ok (true, child', (s1, e1, s2, e2)) ->
  map id (firstn s2 child' ++ ref ++ skipn (e2 + 1) child')
  = map id (firstn s1 ref) ++ map id child' ++ map id (skipn (e1 + 1) ref).
Proof.
  intros Hcheck.
  destruct (checkPathConsistency_result _ _ _ _ _ _ _ _ _ _ _ Hcheck)
    as [_ Hrange].
  destruct (Hrange eq_refl) as (Hr1 & Hr2 & Hlen & Hlow & Hhigh).
  pose proof (accepted_ids_agree _ _ _ _ _ _ _ _ _ _ Hcheck) as Hids.
  assert (Href : map id ref
    = map id (firstn s1 ref)
      ++ map id (firstn (e1 + 1 - s1) (skipn s1 ref))
      ++ map id (skipn (e1 + 1) ref)).
  { rewrite <- !map_app. f_equal. apply split3. lia. }
  assert (Hchild : map id child'
    = map id (firstn s2 child')
      ++ map id (firstn (e1 + 1 - s1) (skipn s2 child'))
      ++ map id (skipn (e2 + 1) child')).
  { rewrite <- !map_app. f_equal.
    replace (e1 + 1 - s1) with (e2 + 1 - s2) by lia. apply split3. lia. }
  rewrite !map_app, Href, Hchild. apply infix_glue.
  - apply ids_segment. intros c Hc. apply Hids. lia.
  - destruct Hlow as [-> | ->]; [left | right]; reflexivity.
  - destruct Hhigh as [-> | ->]; [left | right];
      rewrite skipn_all2 by lia; reflexivity.
Qed.

Lemma In_firstn {A} (x : A) n l : In x (firstn n l) -> In x l.
Proof.
  intros H. rewrite <- (firstn_skipn n l). apply in_or_app. now left.
Qed.

Lemma In_skipn {A} (x : A) n l : In x (skipn n l) -> In x l.
Proof.
  intros H. rewrite <- (firstn_skipn n l). apply in_or_app. now right.
Qed.

(** What one turn of the loop does without [deleteSubsumed]. *)
Lemma linkNode_build id_ contigPathMap resultPathMap heap refCanonical
    mergeInList node rpm' heap' list' :
  linkNode id_ false contigPathMap resultPathMap heap refCanonical
    mergeInList node = Ok (rpm', heap', list') ->
  rpm' = resultPathMap
  /\ ((heap' = heap /\ list' = mergeInList)
      \/ exists ref child child' s1 e1 s2 e2,
           id node <> id_
           /\ heap !! refCanonical = Some ref
           /\ contigPathMap !! id node = Some child
           /\ checkPathConsistency id_ (id node) ref child (0, 0, 0, 0)
              = Ok (true, child', (s1, e1, s2, e2))
           /\ heap' = <[refCanonical
                        := firstn s2 child' ++ ref ++ skipn (e2 + 1) child']>
                        heap
           /\ list' = mergeInList ++ firstn s2 child'
                        ++ skipn (e2 + 1) child').
Proof.
  unfold linkNode. intros H.
  destruct (N.eqb_spec (id node) id_) as [|Hne].
  { injection H as <- <- <-. auto. }
  unfold findPath in H. cbn [mbind result_bind] in H.
  destruct (contigPathMap !! id node) as [child|] eqn:Hchild.
  2:{ injection H as <- <- <-. auto. }
  inv_bind_as H ref Href. unfold deref in Href.
  destruct (heap !! refCanonical) as [ref0|] eqn:Hheap; [|discriminate].
  injection Href as ->.
  inv_bind_as H r Hcheck.
  destruct r as [[validMerge child'] [[[s1 e1] s2] e2]].
  destruct validMerge; simpl in H.
  2:{ injection H as <- <- <-. auto. }
  destruct (checkPathConsistency_result _ _ _ _ _ _ _ _ _ _ _ Hcheck)
    as [_ Hrange].
  destruct (Hrange eq_refl) as (Hr1 & Hr2 & _).
  rewrite (slice_Ok child' 0 s2) in H by lia.
  rewrite (slice_Ok child' (e2 + 1) (length child')) in H by lia.
  cbn [mbind result_bind] in H. rewrite !addPathNodesToList_app in H.
  rewrite Nat.sub_0_r in H. simpl skipn in H.
  rewrite (firstn_all2 (n := length child' - (e2 + 1))
             (skipn (e2 + 1) child')) in H
    by (rewrite length_skipn; lia).
  injection H as <- <- <-. split; [reflexivity|]. right.
  exists ref, child, child', s1, e1, s2, e2.
  rewrite <- app_assoc. auto 10.
Qed.

Lemma linkLoop_build id_ contigPathMap resultPathMap heap r : forall fuel
    ref mergeInList rpm' heap',
  linkLoop fuel id_ false contigPathMap resultPathMap (<[r := ref]> heap) r
    mergeInList = Some (Ok (rpm', heap')) ->
  rpm' = resultPathMap
  /\ exists pre post,
       heap' = <[r := pre ++ ref ++ post]> heap
       /\ Forall (fromStore contigPathMap) (pre ++ post).
Proof.
  induction fuel as [|fuel IH]; intros ref list rpm' heap' H.
  - destruct list; [|discriminate]. injection H as <- <-.
    split; [reflexivity|].
    exists [], []. simpl. rewrite app_nil_r. split; [reflexivity|constructor].
  - destruct list as [|node rest].
    { injection H as <- <-. split; [reflexivity|].
      exists [], []. simpl. rewrite app_nil_r.
      split; [reflexivity|constructor]. }
    cbn [linkLoop] in H.
    destruct (linkNode id_ false contigPathMap resultPathMap
                (<[r := ref]> heap) r (node :: rest) node)
      as [[[rpm1 heap1] list1]|f] eqn:Hnode; [|discriminate].
    apply linkNode_build in Hnode
      as [-> [[-> ->] | (ref0 & child & child' & s1 & e1 & s2 & e2 & Hne
                         & Href & Hchild & Hcheck & -> & ->)]].
    + apply (IH _ _ _ _ H).
    + rewrite lookup_insert_eq in Href. injection Href as <-.
      rewrite insert_insert_eq in H.
      destruct (IH _ _ _ _ H) as [-> (pre & post & -> & Hall)].
      split; [reflexivity|].
      exists (pre ++ firstn s2 child'), (skipn (e2 + 1) child' ++ post).
      split; [now rewrite <- !app_assoc|].
      destruct (checkPathConsistency_result _ _ _ _ _ _ _ _ _ _ _ Hcheck)
        as [Hor _].
      assert (Hfrom : forall n, In n child' -> fromStore contigPathMap n).
      { intros n Hn. exists (id node), child. split; [exact Hchild|].
        destruct Hor as [-> | ->]; auto. }
      apply List.Forall_forall. intros n Hn.
      rewrite List.Forall_forall in Hall.
      rewrite <- app_assoc in Hn.
      apply in_app_or in Hn as [Hn|Hn]; [apply Hall, in_or_app; now left|].
      apply in_app_or in Hn as [Hn|Hn]; [apply Hfrom; eapply In_firstn, Hn|].
      apply in_app_or in Hn as [Hn|Hn]; [apply Hfrom; eapply In_skipn, Hn|].
      apply Hall, in_or_app; now right.
Qed.

Lemma linkNode_inert id_ contigPathMap resultPathMap heap r ref list n :
  heap !! r = Some ref ->
  inert id_ contigPathMap ref n ->
  linkNode id_ false contigPathMap resultPathMap heap r list n
  = Ok (resultPathMap, heap, list).
Proof.
  unfold linkNode, findPath, deref. intros Href
    [<- | [Hnone | (child & child' & range & Hchild & Hcheck)]].
  - now rewrite N.eqb_refl.
  - destruct (N.eqb (id n) id_); [reflexivity|]. now rewrite Hnone.
  - destruct (N.eqb (id n) id_); [reflexivity|].
    rewrite Hchild. cbn [mbind result_bind]. rewrite Href.
    cbn [mbind result_bind]. rewrite Hcheck.
    destruct range as [[[s1 e1] s2] e2]. reflexivity.
Qed.

Lemma linkLoop_inert id_ contigPathMap resultPathMap heap r ref :
  forall fuel list,
  heap !! r = Some ref ->
  Forall (inert id_ contigPathMap ref) list ->
  length list <= fuel ->
  linkLoop fuel id_ false contigPathMap resultPathMap heap r list
  = Some (Ok (resultPathMap, heap)).
Proof.
  induction fuel as [|fuel IH]; intros list Href Hall Hlen.
  - destruct list; [reflexivity | simpl in Hlen; lia].
  - destruct list as [|n rest]; [reflexivity|].
    inversion Hall as [|? ? Hn Hrest]; subst.
    cbn [linkLoop]. rewrite (linkNode_inert _ _ _ _ _ _ _ _ Href Hn).
    apply IH; [exact Href | exact Hrest | simpl in *; lia].
Qed.

Lemma linkPaths_inert id_ contigPathMap resultPathMap heap newPath fuel path :
  contigPathMap !! id_ = Some path ->
  Forall (inert id_ contigPathMap path) path ->
  length path <= fuel ->
  linkPaths id_ contigPathMap resultPathMap heap false newPath fuel
  = Some (Ok (<[id_ := newPath]> resultPathMap, <[newPath := path]> heap)).
Proof.
  intros Hpath Hall Hlen. unfold linkPaths, initialCanonical, deref.
  rewrite Hpath, lookup_insert_eq, addPathNodesToList_app. simpl app.
  rewrite (linkLoop_inert _ _ _ _ _ path _ _ (lookup_insert_eq _ _ _) Hall Hlen).
  reflexivity.
Qed.

Lemma linkLoop_more_fuel id_ deleteSubsumed contigPathMap refCanonical :
  forall fuel fuel' resultPathMap heap mergeInList r,
  linkLoop fuel id_ deleteSubsumed contigPathMap resultPathMap heap
    refCanonical mergeInList = Some r ->
  fuel <= fuel' ->
  linkLoop fuel' id_ deleteSubsumed contigPathMap resultPathMap heap
    refCanonical mergeInList = Some r.
Proof.
  induction fuel as [|fuel IH]; intros fuel' rpm heap list r H Hle.
  - destruct list; [|discriminate]. destruct fuel'; exact H.
  - destruct fuel' as [|fuel']; [lia|].
    destruct list as [|node rest]; [exact H|].
    cbn [linkLoop] in *.
    destruct (linkNode _ _ _ _ _ _ _ _) as [[[rpm1 heap1] list1]|f];
      [|exact H].
    apply IH; [exact H | lia].
Qed.

Lemma linkPaths_more_fuel id_ contigPathMap resultPathMap heap
    deleteSubsumed newPath fuel fuel' r :
  linkPaths id_ contigPathMap resultPathMap heap deleteSubsumed newPath fuel
  = Some r ->
  fuel <= fuel' ->
  linkPaths id_ contigPathMap resultPathMap heap deleteSubsumed newPath
    fuel' = Some r.
Proof.
  unfold linkPaths. intros H Hle.
  destruct (initialCanonical _ _ _ _ _ _) as [[ref heap0]|f]; [|exact H].
  destruct (deref heap0 ref) as [path|f]; [|exact H].
  destruct (linkLoop fuel _ _ _ _ _ _ _) as [r0|] eqn:Hloop;
    [|discriminate].
  now rewrite (linkLoop_more_fuel _ _ _ _ _ _ _ _ _ _ Hloop Hle).
Qed.

Lemma linkPaths_build id_ contigPathMap resultPathMap heap newPath fuel
    resultPathMap' heap' :
  linkPaths id_ contigPathMap resultPathMap heap false newPath fuel
  = Some (Ok (resultPathMap', heap')) ->
  (exists path pre post,
    contigPathMap !! id_ = Some path
    /\ resultPathMap' = <[id_ := newPath]> resultPathMap
    /\ heap' = <[newPath := pre ++ path ++ post]> heap
    /\ Forall (fromStore contigPathMap) (pre ++ post))
  /\ forall fuel', fuel <= fuel' ->
       linkPaths id_ contigPathMap resultPathMap heap false newPath fuel'
       = Some (Ok (resultPathMap', heap')).
Proof.
  intros H. split; [|intros fuel'; now apply linkPaths_more_fuel].
  revert H. unfold linkPaths, initialCanonical, deref. intros H.
  destruct (contigPathMap !! id_) as [path|]; [|discriminate].
  rewrite lookup_insert_eq in H.
  destruct (linkLoop _ _ _ _ _ _ _ _) as [[[rpm1 heap1]|f]|] eqn:Hloop;
    try discriminate.
  injection H as <- <-.
  destruct (linkLoop_build _ _ _ _ _ _ _ _ _ _ Hloop)
    as [-> (pre & post & -> & Hall)].
  exists path, pre, post. auto.
Qed.

Lemma linkNode_merge id_ contigPathMap resultPathMap heap refCanonical
    mergeInList node rpm' heap' list' :
  linkNode id_ false contigPathMap resultPathMap heap refCanonical
    mergeInList node = Ok (rpm', heap', list') ->
  rpm' = resultPathMap
  /\ ((heap' = heap /\ list' = mergeInList)
      \/ exists ref child child' pre mid post,
           heap !! refCanonical = Some ref
           /\ contigPathMap !! id node = Some child
           /\ (child' = child \/ child' = reverseComplementPath child)
           /\ child' = pre ++ mid ++ post /\ mid <> []
           /\ heap' = <[refCanonical := pre ++ ref ++ post]> heap
           /\ list' = mergeInList ++ pre ++ post
           /\ infix (map id child') (map id (pre ++ ref ++ post))).
Proof.
  intros H. apply linkNode_build in H
    as [-> [H | (ref & child & child' & s1 & e1 & s2 & e2 & Hne & Href
                 & Hchild & Hcheck & -> & ->)]];
    (split; [reflexivity|]); [now left | right].
  destruct (checkPathConsistency_result _ _ _ _ _ _ _ _ _ _ _ Hcheck)
    as [Hor Hrange].
  destruct (Hrange eq_refl) as (Hr1 & Hr2 & _).
  exists ref, child, child', (firstn s2 child'),
    (firstn (e2 + 1 - s2) (skipn s2 child')), (skipn (e2 + 1) child').
  split; [exact Href|]. split; [exact Hchild|]. split; [exact Hor|].
  split; [apply split3; lia|]. split.
  - intros Hmid. apply (f_equal (@length MergeNode)) in Hmid.
    rewrite length_firstn, length_skipn in Hmid. simpl in Hmid. lia.
  - split; [reflexivity|]. split; [reflexivity|].
    exists (map id (firstn s1 ref)), (map id (skipn (e1 + 1) ref)).
    exact (merge_contains_child _ _ _ _ _ _ _ _ _ _ Hcheck).
Qed.

(** ** The second pass *)

Lemma eraseChild_Ok resultPathMap heap key rpm' heap' :
  eraseChild resultPathMap heap key = Ok (rpm', heap') ->
  exists ptr child,
    resultPathMap !! key = Some ptr /\ heap !! ptr = Some child
    /\ rpm' = delete key resultPathMap /\ heap' = delete ptr heap.
Proof.
  unfold eraseChild. intros H.
  destruct (resultPathMap !! key) as [ptr|]; [|discriminate].
  destruct (heap !! ptr) as [child|] eqn:Hchild; [|discriminate].
  injection H as <- <-. exists ptr, child. auto.
Qed.

(** With [deleteSubsumed] a turn leaves the work list as it was, and either
    leaves the store as it was or removes the entry of the node and frees
    its path. *)
Lemma linkNode_subsumed id_ contigPathMap resultPathMap heap r list n
    rpm' heap' list' :
  linkNode id_ true contigPathMap resultPathMap heap r list n
  = Ok (rpm', heap', list') ->
  list' = list
  /\ ((rpm' = resultPathMap /\ heap' = heap)
      \/ (id n <> id_
          /\ exists ptr child,
               resultPathMap !! id n = Some ptr /\ heap !! ptr = Some child
               /\ rpm' = delete (id n) resultPathMap
               /\ heap' = delete ptr heap)).
Proof.
  unfold linkNode. intros H.
  destruct (N.eqb_spec (id n) id_) as [|Hne];
    [injection H as <- <- <-; auto|].
  inv_bind_as H found Hfound.
  destruct found as [child|]; [|injection H as <- <- <-; auto].
  inv_bind_as H path1 Hpath1.
  inv_bind_as H res Hcheck.
  destruct res as [[validMerge child'] [[[s1 e1] s2] e2]].
  destruct validMerge; simpl in H; [|injection H as <- <- <-; auto].
  destruct (negb (Nat.eqb s2 0) || negb (Nat.eqb (e2 + 1) (length child'))).
  - inv_bind_as H u Hassert.
    destruct (_ && _).
    + inv_bind_as H st Herase. destruct st as [rpm1 heap1].
      injection H as <- <- <-. split; [reflexivity|]. right.
      split; [exact Hne|].
      apply eraseChild_Ok in Herase
        as (ptr & c & Hptr & Hc & -> & ->). exists ptr, c. auto.
    + injection H as <- <- <-. auto.
  - inv_bind_as H st Herase. destruct st as [rpm1 heap1].
    injection H as <- <- <-. split; [reflexivity|]. right.
    split; [exact Hne|].
    apply eraseChild_Ok in Herase as (ptr & c & Hptr & Hc & -> & ->).
    exists ptr, c. auto.
Qed.

Lemma StoreOK_delete resultPathMap heap k ptr :
  StoreOK resultPathMap heap ->
  resultPathMap !! k = Some ptr ->
  StoreOK (delete k resultPathMap) (delete ptr heap).
Proof.
  intros [Hvalid Hinj] Hk. split.
  - intros k' q Hk'. apply lookup_delete_Some in Hk' as [Hne Hk'].
    destruct (Hvalid _ _ Hk') as (p & Hp & Hroot).
    exists p. split; [|exact Hroot].
    rewrite lookup_delete_ne; [exact Hp|].
    intros <-. apply Hne. exact (Hinj _ _ _ Hk Hk').
  - intros k1 k2 q H1 H2.
    apply lookup_delete_Some in H1 as [_ H1].
    apply lookup_delete_Some in H2 as [_ H2].
    exact (Hinj _ _ _ H1 H2).
Qed.

(** What the loop of the second pass does to the store: it only removes
    entries, those of nodes of the work list other than the root, and frees
    their paths. *)
Lemma linkLoop_subsumed id_ contigPathMap r : forall fuel list
    resultPathMap heap rpm' heap',
  linkLoop fuel id_ true contigPathMap resultPathMap heap r list
    = Some (Ok (rpm', heap')) ->
  rpm' ⊆ resultPathMap /\ heap' ⊆ heap
  /\ rpm' !! id_ = resultPathMap !! id_
  /\ (forall k, rpm' !! k = None -> is_Some (resultPathMap !! k) ->
        k <> id_ /\ exists n, In n list /\ id n = k)
  /\ (StoreOK resultPathMap heap -> StoreOK rpm' heap').
Proof.
  induction fuel as [|fuel IH]; intros list rpm heap rpm' heap' H.
  - destruct list; [|discriminate]. injection H as <- <-.
    split; [reflexivity|]. split; [reflexivity|]. split; [reflexivity|].
    split; [|tauto]. intros k Hk [x Hx]. congruence.
  - destruct list as [|n rest].
    { injection H as <- <-.
      split; [reflexivity|]. split; [reflexivity|]. split; [reflexivity|].
      split; [|tauto]. intros k Hk [x Hx]. congruence. }
    cbn [linkLoop] in H.
    destruct (linkNode id_ true contigPathMap rpm heap r (n :: rest) n)
      as [[[rpm1 heap1] list1]|f] eqn:Hnode; [|discriminate].
    apply linkNode_subsumed in Hnode
      as [-> [[-> ->] | (Hne & ptr & child & Hptr & Hchild & -> & ->)]];
      simpl tail in H;
      destruct (IH _ _ _ _ _ H) as (Hsub1 & Hsub2 & Hid & Hgone & Hok).
    + split; [exact Hsub1|]. split; [exact Hsub2|]. split; [exact Hid|].
      split; [|exact Hok].
      intros k Hk Hsome. destruct (Hgone k Hk Hsome) as [Hk1 (m & Hm & E)].
      split; [exact Hk1|]. exists m. split; [now right | exact E].
    + split; [etrans; [exact Hsub1 | apply delete_subseteq]|].
      split; [etrans; [exact Hsub2 | apply delete_subseteq]|].
      split; [rewrite Hid; now apply lookup_delete_ne|].
      split.
      * intros k Hk Hsome. destruct (decide (k = id n)) as [->|Hkn].
        -- split; [exact Hne|]. exists n. split; [now left | reflexivity].
        -- destruct (Hgone k Hk) as [Hk1 (m & Hm & E)].
           { rewrite lookup_delete_ne by congruence. exact Hsome. }
           split; [exact Hk1|]. exists m. split; [now right | exact E].
      * intros Hstore. apply Hok. now apply StoreOK_delete.
Qed.

Lemma linkLoop_subsumed_total id_ contigPathMap r : forall fuel list
    resultPathMap heap,
  length list <= fuel ->
  exists res,
    linkLoop fuel id_ true contigPathMap resultPathMap heap r list
    = Some res.
Proof.
  induction fuel as [|fuel IH]; intros list rpm heap Hlen.
  - destruct list; [eauto | simpl in Hlen; lia].
  - destruct list as [|n rest]; [simpl; eauto|].
    cbn [linkLoop].
    destruct (linkNode id_ true contigPathMap rpm heap r (n :: rest) n)
      as [[[rpm1 heap1] list1]|f] eqn:Hnode; [|eauto].
    apply linkNode_subsumed in Hnode as [-> _]. simpl tail.
    apply IH. simpl in Hlen. lia.
Qed.

Lemma occursIn_In k p : (exists n, In n p /\ id n = k) -> occursIn k p.
Proof.
  intros (n & Hn & E). apply In_nth_error in Hn as [i Hi].
  exists i, n. auto.
Qed.

(** Two entries of equal contents do not both outlive the loop of the
    second pass on one of them. *)
Lemma linkLoop_twin k1 k2 contigPathMap r p q2 : forall fuel list
    resultPathMap heap rpm' heap',
  linkLoop fuel k1 true contigPathMap resultPathMap heap r list
    = Some (Ok (rpm', heap')) ->
  heap' !! r = Some p -> rpm' !! k2 = Some q2 -> heap' !! q2 = Some p ->
  k1 <> k2 -> 2 <= length p -> occursIn k2 p ->
  (exists n, In n list /\ id n = k2) ->
  False.
Proof.
  induction fuel as [|fuel IH];
    intros list rpm heap rpm' heap' H Hr Hk2 Hq2 Hne Hlen Hocc (m & Hm & Em).
  - destruct list; [destruct Hm | discriminate].
  - destruct list as [|n rest]; [destruct Hm|].
    destruct (linkLoop_subsumed _ _ _ _ _ _ _ _ _ H)
      as (Hsub1 & Hsub2 & _).
    cbn [linkLoop] in H.
    destruct (linkNode k1 true contigPathMap rpm heap r (n :: rest) n)
      as [[[rpm1 heap1] list1]|f] eqn:Hnode; [|discriminate].
    destruct (N.eq_dec (id n) k2) as [E|E].
    + (* the turn at a node of id [k2] removes the entry of [k2] *)
      pose proof (lookup_weaken _ _ _ _ Hk2 Hsub1) as Hk2'.
      pose proof (lookup_weaken _ _ _ _ Hq2 Hsub2) as Hq2'.
      pose proof (lookup_weaken _ _ _ _ Hr Hsub2) as Hr'.
      unfold linkNode, findPath, deref in Hnode.
      destruct (N.eqb_spec (id n) k1) as [E1|_]; [congruence|].
      rewrite E, Hk2', Hq2' in Hnode. cbn [mbind result_bind] in Hnode.
      rewrite Hr' in Hnode. cbn [mbind result_bind] in Hnode.
      rewrite (checkPathConsistency_self k1 k2 p (0, 0, 0, 0) Hlen Hocc)
        in Hnode.
      cbn [mbind result_bind andb] in Hnode.
      replace (Nat.eqb (length p - 1 + 1) (length p)) with true in Hnode
        by (symmetry; apply Nat.eqb_eq; lia).
      simpl in Hnode. unfold eraseChild in Hnode.
      rewrite Hk2', Hq2' in Hnode. simpl in Hnode.
      injection Hnode as <- <- <-. simpl tail in H.
      destruct (linkLoop_subsumed _ _ _ _ _ _ _ _ _ H) as (Hsub & _).
      pose proof (lookup_weaken _ _ _ _ Hk2 Hsub) as Hdel.
      rewrite lookup_delete_eq in Hdel. discriminate.
    + apply linkNode_subsumed in Hnode as [-> _]. simpl tail in H.
      apply (IH _ _ _ _ _ H Hr Hk2 Hq2 Hne Hlen Hocc).
      exists m. split; [|exact Em].
      destruct Hm as [->|Hm]; [congruence | exact Hm].
Qed.

Lemma linkPaths_subsumed id_ contigPathMap resultPathMap heap newPath fuel
    ptr ref :
  resultPathMap !! id_ = Some ptr ->
  heap !! ptr = Some ref ->
  length ref <= fuel ->
  exists res,
    linkPaths id_ contigPathMap resultPathMap heap true newPath fuel
    = Some res
    /\ forall rpm' heap',
         res = Ok (rpm', heap') ->
         rpm' ⊆ resultPathMap /\ heap' ⊆ heap
         /\ rpm' !! id_ = Some ptr
         /\ forall k, rpm' !! k = None -> is_Some (resultPathMap !! k) ->
              k <> id_ /\ exists n, In n ref /\ id n = k.
Proof.
  intros Hptr Href Hlen. unfold linkPaths, initialCanonical, deref.
  rewrite Hptr, Href, addPathNodesToList_app. simpl app.
  destruct (linkLoop_subsumed_total id_ contigPathMap ptr fuel ref
              resultPathMap heap Hlen) as [res Hres].
  rewrite Hres. destruct res as [[rpm1 heap1]|f].
  - eexists. split; [reflexivity|]. intros rpm' heap' [= <- <-].
    destruct (linkLoop_subsumed _ _ _ _ _ _ _ _ _ Hres)
      as (H1 & H2 & H3 & H4 & _).
    rewrite Hptr in H3. auto.
  - eexists. split; [reflexivity|]. intros rpm' heap' [=].
Qed.

Lemma linkPaths_subsumed_mono id_ contigPathMap resultPathMap heap newPath
    fuel rpm' heap' :
  linkPaths id_ contigPathMap resultPathMap heap true newPath fuel
    = Some (Ok (rpm', heap')) ->
  rpm' ⊆ resultPathMap /\ heap' ⊆ heap
  /\ (StoreOK resultPathMap heap -> StoreOK rpm' heap').
Proof.
  unfold linkPaths, initialCanonical. intros H.
  destruct (resultPathMap !! id_) as [r|]; [|discriminate].
  destruct (deref heap r) as [path|f]; [|discriminate].
  destruct (linkLoop _ _ _ _ _ _ _ _) as [[[rpm1 heap1]|f]|] eqn:Hloop;
    try discriminate.
  injection H as <- <-.
  destruct (linkLoop_subsumed _ _ _ _ _ _ _ _ _ Hloop)
    as (H1 & H2 & _ & _ & H5). auto.
Qed.

Lemma two_ids_length (p : list MergeNode) k1 k2 :
  k1 <> k2 ->
  (exists n, In n p /\ id n = k1) -> (exists n, In n p /\ id n = k2) ->
  2 <= length p.
Proof.
  intros Hne (n1 & H1 & E1) (n2 & H2 & E2).
  destruct p as [|a [|b p]]; simpl; [destruct H1 | | lia].
  destruct H1 as [<-|[]], H2 as [<-|[]]. congruence.
Qed.

Lemma linkPaths_twin k1 k2 contigPathMap resultPathMap heap newPath fuel
    rpm' heap' q1 q2 p :
  linkPaths k1 contigPathMap resultPathMap heap true newPath fuel
    = Some (Ok (rpm', heap')) ->
  rpm' !! k1 = Some q1 -> heap' !! q1 = Some p ->
  rpm' !! k2 = Some q2 -> heap' !! q2 = Some p ->
  k1 <> k2 ->
  (exists n, In n p /\ id n = k1) -> (exists n, In n p /\ id n = k2) ->
  False.
Proof.
  intros H Hk1 Hq1 Hk2 Hq2 Hne Hroot1 Hroot2.
  destruct (linkPaths_subsumed_mono _ _ _ _ _ _ _ _ H) as (Hsub1 & Hsub2 & _).
  unfold linkPaths, initialCanonical, deref in H.
  rewrite (lookup_weaken _ _ _ _ Hk1 Hsub1) in H.
  rewrite (lookup_weaken _ _ _ _ Hq1 Hsub2) in H.
  rewrite addPathNodesToList_app in H. simpl app in H.
  destruct (linkLoop _ _ _ _ _ _ _ _) as [[[rpm1 heap1]|f]|] eqn:Hloop;
    try discriminate.
  injection H as <- <-.
  exact (linkLoop_twin _ _ _ _ _ _ _ _ _ _ _ _ Hloop Hq1 Hk2 Hq2 Hne
           (two_ids_length _ _ _ Hne Hroot1 Hroot2)
           (occursIn_In _ _ Hroot2) Hroot2).
Qed.

Lemma secondPass_mono fuel newPath originalPathMap : forall keys
    resultsPathMap heap rpm' heap',
  secondPass fuel newPath originalPathMap keys resultsPathMap heap
    = Some (Ok (rpm', heap')) ->
  rpm' ⊆ resultsPathMap /\ heap' ⊆ heap
  /\ (StoreOK resultsPathMap heap -> StoreOK rpm' heap').
Proof.
  induction keys as [|key keys IH]; intros rpm heap rpm' heap' H.
  - injection H as <- <-. auto.
  - cbn [secondPass] in H.
    destruct (rpm !! key); [|now apply IH].
    destruct (linkPaths key originalPathMap rpm heap true (newPath heap) fuel)
      as [[[rpm1 heap1]|f]|] eqn:Hlink; try discriminate.
    destruct (linkPaths_subsumed_mono _ _ _ _ _ _ _ _ Hlink)
      as (H1 & H2 & H3).
    destruct (IH _ _ _ _ H) as (H4 & H5 & H6).
    split; [etrans; eassumption|]. split; [etrans; eassumption|]. auto.
Qed.

(** Two entries of equal contents do not both outlive the second pass. *)
Lemma secondPass_twin fuel newPath originalPathMap k1 k2 q1 q2 p :
  forall keys resultsPathMap heap rpm' heap',
  secondPass fuel newPath originalPathMap keys resultsPathMap heap
    = Some (Ok (rpm', heap')) ->
  In k1 keys ->
  rpm' !! k1 = Some q1 -> heap' !! q1 = Some p ->
  rpm' !! k2 = Some q2 -> heap' !! q2 = Some p ->
  k1 <> k2 ->
  (exists n, In n p /\ id n = k1) -> (exists n, In n p /\ id n = k2) ->
  False.
Proof.
  induction keys as [|key keys IH];
    intros rpm heap rpm' heap' H Hin Hk1 Hq1 Hk2 Hq2 Hne Hroot1 Hroot2;
    [destruct Hin|].
  cbn [secondPass] in H.
  destruct (rpm !! key) as [q|] eqn:Hkey.
  - destruct (linkPaths key originalPathMap rpm heap true (newPath heap) fuel)
      as [[[rpm1 heap1]|f]|] eqn:Hlink; try discriminate.
    destruct (secondPass_mono _ _ _ _ _ _ _ _ H) as (Hsub1 & Hsub2 & _).
    destruct (N.eq_dec key k1) as [->|Hkey1].
    + exact (linkPaths_twin _ _ _ _ _ _ _ _ _ _ _ _ Hlink
               (lookup_weaken _ _ _ _ Hk1 Hsub1)
               (lookup_weaken _ _ _ _ Hq1 Hsub2)
               (lookup_weaken _ _ _ _ Hk2 Hsub1)
               (lookup_weaken _ _ _ _ Hq2 Hsub2) Hne Hroot1 Hroot2).
    + apply (IH _ _ _ _ H); try assumption.
      destruct Hin as [|Hin]; [congruence | exact Hin].
  - destruct (N.eq_dec key k1) as [->|Hkey1].
    + destruct (secondPass_mono _ _ _ _ _ _ _ _ H) as (Hsub1 & _).
      pose proof (lookup_weaken _ _ _ _ Hk1 Hsub1). congruence.
    + apply (IH _ _ _ _ H); try assumption.
      destruct Hin as [|Hin]; [congruence | exact Hin].
Qed.

Lemma StoreOK_insert resultPathMap heap k q p :
  StoreOK resultPathMap heap ->
  heap !! q = None ->
  (exists n, In n p /\ id n = k) ->
  StoreOK (<[k := q]> resultPathMap) (<[q := p]> heap).
Proof.
  intros [Hvalid Hinj] Hfresh Hroot. split.
  - intros k' q' Hk'. apply lookup_insert_Some in Hk' as [[<- <-]|[Hne Hk']].
    + exists p. split; [apply lookup_insert_eq | exact Hroot].
    + destruct (Hvalid _ _ Hk') as (p' & Hp' & Hroot').
      exists p'. split; [|exact Hroot'].
      rewrite lookup_insert_ne; [exact Hp' | congruence].
  - intros k1 k2 q' H1 H2.
    apply lookup_insert_Some in H1 as [[<- <-]|[Hne1 H1]];
      apply lookup_insert_Some in H2 as [[<- E]|[Hne2 H2]];
      try reflexivity.
    + destruct (Hvalid _ _ H2) as (p' & Hp' & _). congruence.
    + subst q'. destruct (Hvalid _ _ H1) as (p' & Hp' & _). congruence.
    + exact (Hinj _ _ _ H1 H2).
Qed.

Lemma firstPass_StoreOK fuel newPath originalPathMap :
  (forall h, h !! newPath h = None) ->
  (forall k p, originalPathMap !! k = Some p ->
     exists n, In n p /\ id n = k) ->
  forall keys resultsPathMap heap rpm' heap',
  StoreOK resultsPathMap heap ->
  firstPass fuel newPath originalPathMap keys resultsPathMap heap
    = Some (Ok (rpm', heap')) ->
  StoreOK rpm' heap'.
Proof.
  intros Hfresh Hroots.
  induction keys as [|key keys IH]; intros rpm heap rpm' heap' Hok H.
  - injection H as <- <-. exact Hok.
  - cbn [firstPass] in H.
    destruct (linkPaths key originalPathMap rpm heap false (newPath heap)
                fuel) as [[[rpm1 heap1]|f]|] eqn:Hlink; try discriminate.
    apply linkPaths_build in Hlink
      as [(path & pre & post & Hpath & -> & -> & _) _].
    refine (IH _ _ _ _ _ H).
    apply StoreOK_insert; [exact Hok | apply Hfresh|].
    destruct (Hroots _ _ Hpath) as (n & Hn & E).
    exists n. split; [|exact E].
    apply in_or_app. right. apply in_or_app. now left.
Qed.

Lemma readPathsFromFile_roots lines m k p :
  readPathsFromFile lines ∅ = Ok m -> m !! k = Some p ->
  exists n, In n p /\ id n = k.
Proof.
  intros H Hp. unfold readPathsFromFile in H.
  rewrite (readPathLines_shape _ _ _ _ _ H Hp).
  rewrite lookup_empty. simpl.
  exists (rootNode k). split; [|reflexivity].
  apply in_or_app. right. now left.
Qed.

Lemma StoreOK_empty : StoreOK ∅ ∅.
Proof.
  split.
  - intros k q H. rewrite lookup_empty in H. discriminate.
  - intros k1 k2 q H. rewrite lookup_empty in H. discriminate.
Qed.

Lemma nextFree_fresh heap : heap !! nextFree heap = None.
Proof. apply not_elem_of_dom. unfold nextFree. apply is_fresh. Qed.

Lemma derefAll_total heap ptrs :
  Forall (fun q => is_Some (heap !! q)) ptrs ->
  exists paths, derefAll heap ptrs = Ok paths.
Proof.
  intros Hall. unfold derefAll.
  destruct (forEach_inv
    (fun paths ptr => p ← deref heap ptr; Ok (paths ++ [p]))
    (fun _ => True) (fun q => is_Some (heap !! q))) with (l := ptrs) (s := @nil (list MergeNode))
    as (paths & Hrun & _); [|exact I|exact Hall|eauto].
  intros s q _ [p Hp]. exists (s ++ [p]). unfold deref. rewrite Hp. auto.
Qed.

Lemma In_sortedKeys {A} (m : gmap N A) k :
  In k (sortedKeys m) <-> is_Some (m !! k).
Proof.
  unfold sortedKeys. rewrite <- list_elem_of_In, merge_sort_Permutation.
  rewrite elem_of_elements. apply elem_of_dom.
Qed.

Lemma Forall2_contents (heap : gmap N (list MergeNode)) ptrs paths p :
  Forall2 (fun ptr p => heap !! ptr = Some p) ptrs paths ->
  (p ∈ paths <-> exists ptr, ptr ∈ ptrs /\ heap !! ptr = Some p).
Proof.
  intros Hall. split.
  - intros Hin. apply list_elem_of_lookup in Hin as [i Hi].
    destruct (Forall2_lookup_r _ _ _ _ _ Hall Hi) as (ptr & Hptr & Hp).
    exists ptr. split; [eapply list_elem_of_lookup_2, Hptr | exact Hp].
  - intros (ptr & Hin & Hp). apply list_elem_of_lookup in Hin as [i Hi].
    destruct (Forall2_lookup_l _ _ _ _ _ Hall Hi) as (p' & Hp' & Hpp).
    assert (p' = p) by congruence. subst p'.
    eapply list_elem_of_lookup_2, Hp'.
Qed.

Lemma linkAll_store fuel newPath lines originalPathMap resultsPathMap heap :
  (forall h, h !! newPath h = None) ->
  readPathsFromFile lines ∅ = Ok originalPathMap ->
  linkAll fuel newPath originalPathMap = Some (Ok (resultsPathMap, heap)) ->
  StoreOK resultsPathMap heap
  /\ forall k1 k2 q1 q2 p,
       resultsPathMap !! k1 = Some q1 -> heap !! q1 = Some p ->
       resultsPathMap !! k2 = Some q2 -> heap !! q2 = Some p ->
       k1 = k2.
Proof.
  intros Hfresh Hread Hlink. unfold linkAll in Hlink.
  destruct (firstPass fuel newPath originalPathMap
              (sortedKeys originalPathMap) ∅ ∅)
    as [[[rpm1 heap1]|f]|] eqn:Hfirst; try discriminate.
  assert (Hok1 : StoreOK rpm1 heap1).
  { eapply firstPass_StoreOK; [exact Hfresh | | apply StoreOK_empty
                               | exact Hfirst].
    intros k p. apply (readPathsFromFile_roots _ _ _ _ Hread). }
  destruct (secondPass_mono _ _ _ _ _ _ _ _ Hlink) as (Hsub & _ & Hok).
  specialize (Hok Hok1). split; [exact Hok|].
  intros k1 k2 q1 q2 p Hk1 Hq1 Hk2 Hq2.
  destruct (N.eq_dec k1 k2) as [|Hne]; [assumption|]. exfalso.
  destruct Hok as [Hvalid _].
  destruct (Hvalid _ _ Hk1) as (p1 & Hp1 & Hroot1).
  destruct (Hvalid _ _ Hk2) as (p2 & Hp2 & Hroot2).
  assert (p1 = p) by congruence. assert (p2 = p) by congruence. subst p1 p2.
  refine (secondPass_twin _ _ _ _ _ _ _ _ _ _ _ _ _ Hlink _ Hk1 Hq1 Hk2 Hq2
            Hne Hroot1 Hroot2).
  apply In_sortedKeys. exists q1. exact (lookup_weaken _ _ _ _ Hk1 Hsub).
Qed.

Lemma firstPass_more_fuel fuel fuel' newPath originalPathMap :
  fuel <= fuel' ->
  forall keys resultsPathMap heap r,
  firstPass fuel newPath originalPathMap keys resultsPathMap heap = Some r ->
  firstPass fuel' newPath originalPathMap keys resultsPathMap heap = Some r.
Proof.
  intros Hle. induction keys as [|key keys IH]; intros rpm heap r H;
    [exact H|].
  cbn [firstPass] in *.
  destruct (linkPaths key originalPathMap rpm heap false (newPath heap) fuel)
    as [res|] eqn:Hlink; [|discriminate].
  rewrite (linkPaths_more_fuel _ _ _ _ _ _ _ _ _ Hlink Hle).
  destruct res as [[rpm1 heap1]|f]; [now apply IH | exact H].
Qed.

Lemma secondPass_more_fuel fuel fuel' newPath originalPathMap :
  fuel <= fuel' ->
  forall keys resultsPathMap heap r,
  secondPass fuel newPath originalPathMap keys resultsPathMap heap = Some r ->
  secondPass fuel' newPath originalPathMap keys resultsPathMap heap = Some r.
Proof.
  intros Hle. induction keys as [|key keys IH]; intros rpm heap r H;
    [exact H|].
  cbn [secondPass] in *.
  destruct (rpm !! key); [|now apply IH].
  destruct (linkPaths key originalPathMap rpm heap true (newPath heap) fuel)
    as [res|] eqn:Hlink; [|discriminate].
  rewrite (linkPaths_more_fuel _ _ _ _ _ _ _ _ _ Hlink Hle).
  destruct res as [[rpm1 heap1]|f]; [now apply IH | exact H].
Qed.

Lemma linkAll_more_fuel fuel fuel' newPath originalPathMap r :
  fuel <= fuel' ->
  linkAll fuel newPath originalPathMap = Some r ->
  linkAll fuel' newPath originalPathMap = Some r.
Proof.
  intros Hle H. unfold linkAll in *.
  destruct (firstPass fuel newPath originalPathMap
              (sortedKeys originalPathMap) ∅ ∅) as [res|] eqn:Hfirst;
    [|discriminate].
  rewrite (firstPass_more_fuel _ _ _ _ Hle _ _ _ _ Hfirst).
  destruct res as [[rpm1 heap1]|f]; [|exact H].
  now apply (secondPass_more_fuel _ _ _ _ Hle).
Qed.

Lemma linked_paths_distinct `{NodeOrder} lines newPath fuel originalPathMap
    resultsPathMap heap :
  AsymmetricOrder ->
  (forall h, h !! newPath h = None) ->
  readPathsFromFile lines ∅ = Ok originalPathMap ->
  linkAll fuel newPath originalPathMap = Some (Ok (resultsPathMap, heap)) ->
  exists out,
    uniquePaths resultsPathMap heap = Ok out
    /\ NoDup out
    /\ Sorted (fun a b => ContigPath_lt b a = false) out
    /\ (forall p, p ∈ out
          <-> exists k ptr,
                resultsPathMap !! k = Some ptr /\ heap !! ptr = Some p)
    /\ map snd (pathsOnlyOutput out) = out
    /\ forall (alphabet : Alphabet) contigVec k written,
         fastaOutput contigVec out k = Ok written ->
         exists unused merged,
           written = map Unmerged unused ++ map Merged merged
           /\ map fa_path merged = out.
Proof.
  intros Hasym Hfresh Hread Hlink.
  destruct (linkAll_store _ _ _ _ _ _ Hfresh Hread Hlink)
    as [[Hvalid Hinj] Htwin].
  destruct (derefAll_total heap (elements (uniquePtr resultsPathMap)))
    as [paths0 Hderef].
  { apply List.Forall_forall. intros q Hq.
    apply list_elem_of_In, elem_of_uniquePtr in Hq as [k Hk].
    destruct (Hvalid _ _ Hk) as (p & Hp & _). now exists p. }
  assert (Hrun : uniquePaths resultsPathMap heap = Ok (sortPaths paths0)).
  { unfold uniquePaths. now rewrite Hderef. }
  exists (sortPaths paths0). split; [exact Hrun|].
  destruct (uniquePaths_by_identity _ _ _ Hasym Hrun)
    as (Hsorted & ptrs & paths & Hnd & Hptrs & Hall & Hperm & Hnodup).
  split.
  { apply Hnodup. intros p q v [kp Hkp] [kq Hkq] Hp Hq.
    assert (kp = kq) by exact (Htwin _ _ _ _ _ Hkp Hp Hkq Hq).
    congruence. }
  split; [exact Hsorted|]. split.
  { intros p. rewrite Hperm, (Forall2_contents _ _ _ _ Hall). split.
    - intros (ptr & Hin & Hp). apply Hptrs in Hin as [k Hk]. eauto.
    - intros (k & ptr & Hk & Hp). exists ptr. split; [|exact Hp].
      apply Hptrs. eauto. }
  split; [apply (map_snd_imap (fun i => i))|].
  intros alphabet contigVec k written Hout.
  destruct (fastaOutput_shape _ _ _ _ Hout)
    as (unused & merged & lastContig & first & -> & _ & _ & Hmerged & _).
  exists unused, merged. split; [reflexivity|].
  clear -Hmerged. induction Hmerged as [|path r paths merged [E _] _ IH];
    [reflexivity|]. simpl. now rewrite E, IH.
Qed.

(** C5: value deduplication before emission.  On every run in which the
    path file is read and the two linking passes of [main] complete, the
    vector [uniquePaths] handed to the emission holds every path of the
    result store and no path twice, equal paths being those that are equal
    as sequences of oriented contigs, and it is sorted lexicographically over
    the element sequences; the paths written in paths-only mode and the
    paths of the merged records written in FASTA mode are this vector.  The
    code collects the addresses of the path objects in a set and sorts their
    contents by value; two objects of equal contents never reach that set,
    because the second pass of [linkPaths], on either of their keys, accepts
    the other path over its whole length and removes it, so that the set of
    addresses and the set of values have the same elements.  The bound on
    the turns of the loops plays no part in the result. *)
Theorem value_dedup_before_emission `{NodeOrder} lines newPath fuel
    originalPathMap resultsPathMap heap :
  AsymmetricOrder ->
  (forall h, h !! newPath h = None) ->
  readPathsFromFile lines ∅ = Ok originalPathMap ->
  linkAll fuel newPath originalPathMap = Some (Ok (resultsPathMap, heap)) ->
  (exists out,
    uniquePaths resultsPathMap heap = Ok out
    /\ NoDup out
    /\ Sorted (fun a b => ContigPath_lt b a = false) out
    /\ (forall p, p ∈ out
          <-> exists k ptr,
                resultsPathMap !! k = Some ptr /\ heap !! ptr = Some p)
    /\ map snd (pathsOnlyOutput out) = out
    /\ forall (alphabet : Alphabet) contigVec k written,
         fastaOutput contigVec out k = Ok written ->
         exists unused merged,
           written = map Unmerged unused ++ map Merged merged
           /\ map fa_path merged = out)
  /\ forall fuel', fuel <= fuel' ->
       linkAll fuel' newPath originalPathMap
       = Some (Ok (resultsPathMap, heap)).
Proof.
  intros Hasym Hfresh Hread Hlink. split.
  - exact (linked_paths_distinct _ _ _ _ _ _ Hasym Hfresh Hread Hlink).
  - intros fuel' Hle. exact (linkAll_more_fuel _ _ _ _ _ Hle Hlink).
Qed.

Lemma value_dedup_before_emission_witness :
  readPathsFromFile twin_lines ∅ = Ok twin_original
  /\ firstPass 9 nextFree twin_original (sortedKeys twin_original) ∅ ∅
     = Some (Ok (<[1%N := 1%N]> linked_results, <[1%N := path01]> linked_heap))
  /\ linkAll 9 nextFree twin_original = Some (Ok (linked_results, linked_heap))
  /\ uniquePaths (H := byIdThenSense) linked_results linked_heap
     = Ok [path01]
  /\ exists out,
       uniquePaths (H := byIdThenSense) linked_results linked_heap = Ok out
       /\ NoDup out
       /\ Sorted (fun a b => ContigPath_lt (H := byIdThenSense) b a = false)
            out
       /\ (forall p, p ∈ out
             <-> exists k ptr,
                   linked_results !! k = Some ptr
                   /\ linked_heap !! ptr = Some p)
       /\ map snd (pathsOnlyOutput out) = out
       /\ forall (alphabet : Alphabet) contigVec k written,
            fastaOutput contigVec out k = Ok written ->
            exists unused merged,
              written = map Unmerged unused ++ map Merged merged
              /\ map fa_path merged = out.
Proof.
  split; [vm_compute; reflexivity|]. split; [vm_compute; reflexivity|].
  split; [vm_compute; reflexivity|]. split; [vm_compute; reflexivity|].
  apply (value_dedup_before_emission (H := byIdThenSense) twin_lines nextFree
           9 twin_original linked_results linked_heap).
  - exact byIdThenSense_asym.
  - exact nextFree_fresh.
  - vm_compute. reflexivity.
  - vm_compute. reflexivity.
Defined.

(** X14: one turn of the loop of [linkPaths] in the first pass.  The result
    store is left as it was.  Either the turn leaves the canonical path and
    the work list as they were too, or it has merged the stored path of the
    node in: that path, as it stands or reversed, splits into a head, a
    non-empty middle and a tail; the head is put in front of the canonical
    path and the tail behind it, both are queued at the back of the work
    list, and the ids of the child are a contiguous part of the ids of the
    new canonical path. *)
Theorem merge_turn id_ contigPathMap resultPathMap heap refCanonical
    mergeInList node rpm' heap' list' :
  linkNode id_ false contigPathMap resultPathMap heap refCanonical
    mergeInList node = Ok (rpm', heap', list') ->
  rpm' = resultPathMap
  /\ ((heap' = heap /\ list' = mergeInList)
      \/ exists ref child child' pre mid post,
           heap !! refCanonical = Some ref
           /\ contigPathMap !! id node = Some child
           /\ (child' = child \/ child' = reverseComplementPath child)
           /\ child' = pre ++ mid ++ post /\ mid <> []
           /\ heap' = <[refCanonical := pre ++ ref ++ post]> heap
           /\ list' = mergeInList ++ pre ++ post
           /\ infix (map id child') (map id (pre ++ ref ++ post))).
Proof. apply linkNode_merge. Qed.

Lemma merge_turn_witness :
  let list := [node 2 false] in
  let list' := [node 2 false; node 3 false] in
  linkNode 1 false store_chain no_results chain_start 100 list (node 2 false)
    = Ok (no_results, chain_heap, list')
  /\ no_results = no_results
  /\ ((chain_heap = chain_start /\ list' = list)
      \/ exists ref child child' pre mid post,
           chain_start !! 100%N = Some ref
           /\ store_chain !! id (node 2 false) = Some child
           /\ (child' = child \/ child' = reverseComplementPath child)
           /\ child' = pre ++ mid ++ post /\ mid <> []
           /\ chain_heap = <[100%N := pre ++ ref ++ post]> chain_start
           /\ list' = list ++ pre ++ post
           /\ infix (map id child') (map id (pre ++ ref ++ post))).
Proof.
  intros list list'. split; [vm_compute; reflexivity|].
  apply (merge_turn 1 store_chain no_results chain_start 100 list
           (node 2 false) no_results chain_heap list').
  vm_compute. reflexivity.
Defined.

(** X15: a call of [linkPaths] in the first pass that returns has
    published, under [id] and at the new address, the original path of
    [id] with nodes put in front of it and behind it, every one of them
    read off a path of the original store, as it stands or reversed; the
    other entries of the result store and the other objects are as they
    were.  The bound on the number of turns plays no part in the result:
    every larger one gives the same. *)
Theorem published_path_extends_original id_ contigPathMap resultPathMap
    heap newPath fuel resultPathMap' heap' :
  linkPaths id_ contigPathMap resultPathMap heap false newPath fuel
  = Some (Ok (resultPathMap', heap')) ->
  (exists path pre post,
    contigPathMap !! id_ = Some path
    /\ resultPathMap' = <[id_ := newPath]> resultPathMap
    /\ heap' = <[newPath := pre ++ path ++ post]> heap
    /\ Forall (fromStore contigPathMap) (pre ++ post))
  /\ forall fuel', fuel <= fuel' ->
       linkPaths id_ contigPathMap resultPathMap heap false newPath fuel'
       = Some (Ok (resultPathMap', heap')).
Proof. apply linkPaths_build. Qed.

Lemma published_path_extends_original_witness :
  (exists path pre post,
    store_chain !! 1%N = Some path
    /\ chain_results = <[1%N := 100%N]> no_results
    /\ chain_heap = <[100%N := pre ++ path ++ post]> no_heap
    /\ Forall (fromStore store_chain) (pre ++ post))
  /\ linkPaths 1 store_chain no_results no_heap false 100 9
     = Some (Ok (chain_results, chain_heap)).
Proof.
  destruct (published_path_extends_original 1 store_chain no_results no_heap
              100 5 chain_results chain_heap
              ltac:(vm_compute; reflexivity)) as [Hshape Hfuel].
  split; [exact Hshape|]. apply Hfuel. lia.
Defined.

(** X16: when no node of the original path of [id] triggers a merge (each
    is the root itself, has no path of its own, or has a path that the
    check rejects), a call of [linkPaths] in the first pass returns after
    one turn per node and publishes a copy of the original path. *)
Theorem unmerged_path_copied id_ contigPathMap resultPathMap heap newPath
    fuel path :
  contigPathMap !! id_ = Some path ->
  Forall (inert id_ contigPathMap path) path ->
  length path <= fuel ->
  linkPaths id_ contigPathMap resultPathMap heap false newPath fuel
  = Some (Ok (<[id_ := newPath]> resultPathMap, <[newPath := path]> heap)).
Proof. apply linkPaths_inert. Qed.

Lemma unmerged_path_copied_witness :
  linkPaths 2 store_chain no_results no_heap false 100 2
  = Some (Ok (<[2%N := 100%N]> no_results,
              <[100%N := [node 2 false; node 3 false]]> no_heap)).
Proof.
  apply (unmerged_path_copied 2 store_chain no_results no_heap 100 2
           [node 2 false; node 3 false]).
  - vm_compute. reflexivity.
  - constructor; [left; reflexivity|].
    constructor; [right; left; vm_compute; reflexivity|]. constructor.
  - simpl. lia.
Defined.

(** X17: a call of [linkPaths] in the second pass.  The work list never
    grows, so the loop comes to its end within one turn per node of the
    path stored under [id].  A call that returns has written to no path: it
    has only removed entries of the result store and freed their paths, the
    entry of [id] is still there, and every entry removed is that of a node
    of the path of [id]. *)
Theorem second_pass_removes_only id_ contigPathMap resultPathMap heap
    newPath fuel ptr ref :
  resultPathMap !! id_ = Some ptr ->
  heap !! ptr = Some ref ->
  length ref <= fuel ->
  exists res,
    linkPaths id_ contigPathMap resultPathMap heap true newPath fuel
    = Some res
    /\ forall rpm' heap',
         res = Ok (rpm', heap') ->
         rpm' ⊆ resultPathMap /\ heap' ⊆ heap
         /\ rpm' !! id_ = Some ptr
         /\ forall k, rpm' !! k = None -> is_Some (resultPathMap !! k) ->
              k <> id_ /\ exists n, In n ref /\ id n = k.
Proof. apply linkPaths_subsumed. Qed.

Lemma second_pass_removes_only_witness :
  linkPaths 0 twin_original store_twins heap_twins true 0 2
  = Some (Ok (store_single, heap_single))
  /\ exists res,
       linkPaths 0 twin_original store_twins heap_twins true 0 2 = Some res
       /\ forall rpm' heap',
            res = Ok (rpm', heap') ->
            rpm' ⊆ store_twins /\ heap' ⊆ heap_twins
            /\ rpm' !! 0%N = Some 100%N
            /\ forall k, rpm' !! k = None -> is_Some (store_twins !! k) ->
                 k <> 0%N /\ exists n, In n path01 /\ id n = k.
Proof.
  split; [vm_compute; reflexivity|].
  apply (second_pass_removes_only 0 twin_original store_twins heap_twins 0 2
           100 path01).
  - vm_compute. reflexivity.
  - vm_compute. reflexivity.
  - simpl. lia.
Defined.

(** X18: the result store that the two linking loops of [main] hand to the
    emission is well formed: every entry points to an allocated path, that
    path holds the key of the entry, and no two entries share a path
    object. *)
Theorem linked_store_well_formed fuel newPath lines originalPathMap
    resultsPathMap heap :
  (forall h, h !! newPath h = None) ->
  readPathsFromFile lines ∅ = Ok originalPathMap ->
  linkAll fuel newPath originalPathMap = Some (Ok (resultsPathMap, heap)) ->
  StoreOK resultsPathMap heap.
Proof.
  intros Hfresh Hread Hlink.
  exact (proj1 (linkAll_store _ _ _ _ _ _ Hfresh Hread Hlink)).
Qed.

Lemma linked_store_well_formed_witness : StoreOK linked_results linked_heap.
Proof.
  apply (linked_store_well_formed 9 nextFree twin_lines twin_original
           linked_results linked_heap).
  - exact nextFree_fresh.
  - vm_compute. reflexivity.
  - vm_compute. reflexivity.
Defined.
